(** * Retrieval core of the RAG system: chunking, rank fusion, reranking

    A shallow embedding of
      - [src/lib/document-processors/chunker.ts]        (modules [Chunker],
                                                         [ChunkerTools]),
      - the semantic chunker ([semanticChunk],
        [hybridChunk])                                   (modules [SemanticChunker],
                                                         [HybridChunker]),
      - [src/lib/db/vector-search.ts]                    (module [VectorSearch]),
      - [src/lib/ai/rerank.ts]                           (modules [Rerank],
                                                         [RerankCustom]),
      - [src/lib/ai/embeddings.ts]                       (module [Embeddings]),
      - the retry and circuit-breaker utilities          (module [ErrorHandling]),
      - the rate limiter                                 (module [RateLimit]),
      - the metrics collector                            (module [Metrics]),
    and the properties of the retrieval specification that concern them.
    The models come first, then the vocabulary of the statements, then the
    statements and their proofs.

    Conventions.
    - A JavaScript string is the list of its UTF-16 code units ([jsstring]).
    - A JavaScript number that the code uses as an index, a length or a size is
      an integer ([Z], or [nat] for a row count); every other number (similarity,
      fused score) is an exact rational ([Q]): rounding of binary floating point
      is not part of the model, nor are [NaN] and the infinities (a division
      by zero has the value 0 of [Q]).
    - A JavaScript object used as a dictionary is a [gmap] from property names;
      a JavaScript [Map], whose iteration order is insertion order, is an
      association list.
    - External collaborators (sentence detector, embedding provider, database,
      rerank service) are parameters of the functions that call them. *)

From Stdlib Require Import ZArith QArith Qround Qminmax List Lia Lqa Bool String Ascii NArith Sorted.
From stdpp Require Import base option list gmap strings.

Local Open Scope Z_scope.

(** ** JavaScript strings *)

Module JsString.

Definition jsstring := list N.

(** A string literal of the source, given by its (ASCII) characters. *)
Definition js (s : string) : jsstring :=
  List.map N_of_ascii (list_ascii_of_string s).

(** WhiteSpace and LineTerminator code units: what [String.prototype.trim]
    strips and what the regular expression class [\s] matches. *)
Definition isWhiteSpace (c : N) : bool :=
  ((9 <=? c) && (c <=? 13))%N
  || (c =? 32)%N || (c =? 160)%N || (c =? 5760)%N
  || ((8192 <=? c) && (c <=? 8202))%N
  || (c =? 8232)%N || (c =? 8233)%N || (c =? 8239)%N || (c =? 8287)%N
  || (c =? 12288)%N || (c =? 65279)%N.

(** The regular expression class [\w]: [A-Za-z0-9_]. *)
Definition isWordChar (c : N) : bool :=
  ((48 <=? c) && (c <=? 57))%N
  || ((65 <=? c) && (c <=? 90))%N
  || (c =? 95)%N
  || ((97 <=? c) && (c <=? 122))%N.

Fixpoint trimStart (s : jsstring) : jsstring :=
  match s with
  | [] => []
  | c :: r => if isWhiteSpace c then trimStart r else s
  end.

Definition trimEnd (s : jsstring) : jsstring := rev (trimStart (rev s)).

(** [s.trim()] *)
Definition trim (s : jsstring) : jsstring := trimEnd (trimStart s).

(** [s.length] *)
Definition strlen (s : jsstring) : Z := Z.of_nat (length s).

Definition clampIndex (len i : Z) : Z := Z.max 0 (Z.min i len).

(** [s.substring(from, to)]: both indices are clamped to [0, s.length] and
    swapped when the first is the larger one. *)
Definition substring (s : jsstring) (from to : Z) : jsstring :=
  let a := clampIndex (strlen s) from in
  let b := clampIndex (strlen s) to in
  take (Z.to_nat (Z.max a b - Z.min a b)) (drop (Z.to_nat (Z.min a b)) s).

Fixpoint isPrefixOf (p s : jsstring) : bool :=
  match p, s with
  | [], _ => true
  | _ :: _, [] => false
  | a :: p', b :: s' => (a =? b)%N && isPrefixOf p' s'
  end.

(** The last position, counted from [i] for the head of [s], at which [sep]
    occurs in [s]. *)
Fixpoint lastOccurrence (sep s : jsstring) (i : nat) : option nat :=
  match s with
  | [] => if isPrefixOf sep [] then Some i else None
  | _ :: r =>
      match lastOccurrence sep r (S i) with
      | Some j => Some j
      | None => if isPrefixOf sep s then Some i else None
      end
  end.

(** [s.lastIndexOf(sep)], [-1] when [sep] does not occur. *)
Definition lastIndexOf (s sep : jsstring) : Z :=
  match lastOccurrence sep s 0 with
  | Some j => Z.of_nat j
  | None => -1
  end.

(** [s.split(/\s+/)]: the pieces between maximal runs of white space; a run
    at either end of [s] leaves an empty piece there, and the empty string
    splits into one empty piece. [cur] is the piece being read, reversed;
    [inRun] says that the previous code unit was white space. *)
Fixpoint splitWhitespaceFrom (inRun : bool) (cur s : jsstring) : list jsstring :=
  match s with
  | [] => [rev cur]
  | c :: r =>
      if isWhiteSpace c
      then if inRun then splitWhitespaceFrom true cur r
           else rev cur :: splitWhitespaceFrom true [] r
      else splitWhitespaceFrom false (c :: cur) r
  end.

Definition splitWhitespace (s : jsstring) : list jsstring :=
  splitWhitespaceFrom false [] s.

(** [word.replace(/[^\w]/g, "")] *)
Definition stripNonWord (w : jsstring) : jsstring := List.filter isWordChar w.

(** [parts.join(sep)] *)
Fixpoint join (sep : jsstring) (parts : list jsstring) : jsstring :=
  match parts with
  | [] => []
  | [p] => p
  | p :: rest => p ++ sep ++ join sep rest
  end.

End JsString.

(** ** JavaScript values stored in chunk metadata *)

Module JsValue.
Import JsString.

(** Metadata values: a number, or a value whose numeric conversion is [NaN]
    (non-numeric text, an object, [undefined]). *)
Inductive value : Type :=
  | JNum (q : Q)
  | JText (s : jsstring).

Definition JInt (z : Z) : value := JNum (inject_Z z).

(** [n <= v] for a number [n]: false when [v] converts to [NaN]. *)
Definition numLeValue (n : Z) (v : option value) : bool :=
  match v with
  | Some (JNum q) => Qle_bool (inject_Z n) q
  | _ => false
  end.

End JsValue.

(** ** Calls to external services and exceptions *)

Module Effect.

Section Eff.
Context {Call Err : Type}.

(** A computation that records the calls it issues to an external service
    and either returns a value or throws. *)
Definition Eff (A : Type) : Type := list Call → (Err + A) * list Call.

Definition ret {A} (a : A) : Eff A := λ log, (inr a, log).

Definition throw {A} (e : Err) : Eff A := λ log, (inl e, log).

Definition bind {A B} (m : Eff A) (k : A → Eff B) : Eff B :=
  λ log, match m log with
         | (inl e, log') => (inl e, log')
         | (inr a, log') => k a log'
         end.

(** The call [c] goes out. *)
Definition issue (c : Call) : Eff unit := λ log, (inr tt, log ++ [c]).

(** [try { m } catch (e) { handler e }] *)
Definition tryCatch {A} (m : Eff A) (handler : Err → Eff A) : Eff A :=
  λ log, match m log with
         | (inl e, log') => handler e log'
         | (inr a, log') => (inr a, log')
         end.

(** The outcome and the calls issued, starting from an empty record. *)
Definition outcome {A} (m : Eff A) : Err + A := fst (m []).
Definition calls {A} (m : Eff A) : list Call := snd (m []).
End Eff.

Arguments Eff : clear implicits.

Declare Scope eff_scope.
Delimit Scope eff_scope with eff.
Notation "'let*' x ':=' m 'in' k" := (bind m (λ x, k))
  (at level 10, x name, m at level 100, k at level 200) : eff_scope.

End Effect.

(** ** Fixed-window chunker: [chunker.ts] *)

Module Chunker.
Import JsString JsValue.

Record ChunkConfig : Type := mkChunkConfig {
  chunkSize : Z;
  chunkOverlap : Z;
  separators : list jsstring
}.

(** [Partial<ChunkConfig>] *)
Record PartialChunkConfig : Type := mkPartialChunkConfig {
  chunkSize_opt : option Z;
  chunkOverlap_opt : option Z;
  separators_opt : option (list jsstring)
}.

Definition noOverrides : PartialChunkConfig := mkPartialChunkConfig None None None.

Definition DEFAULT_CHUNK_CONFIG : ChunkConfig :=
  {| chunkSize := 1000;
     chunkOverlap := 200;
     separators := [[10; 10]; [10]; [46; 32]; [32]; []]%N |}.

(** [{ ...DEFAULT_CHUNK_CONFIG, ...config }] *)
Definition resolveConfig (config : PartialChunkConfig) : ChunkConfig :=
  {| chunkSize := default (chunkSize DEFAULT_CHUNK_CONFIG) (chunkSize_opt config);
     chunkOverlap := default (chunkOverlap DEFAULT_CHUNK_CONFIG) (chunkOverlap_opt config);
     separators := default (separators DEFAULT_CHUNK_CONFIG) (separators_opt config) |}.

Record TextChunk : Type := mkTextChunk {
  content : jsstring;
  metadata : gmap string value
}.

(** [{ chunkIndex, startChar: startIndex, endChar: endIndex, ...additionalMetadata }]:
    the spread comes last, so a caller-supplied key wins over a computed one. *)
Definition chunkMetadata (chunkIndex startIndex endIndex : Z)
    (additionalMetadata : gmap string value) : gmap string value :=
  additionalMetadata ∪
    <["chunkIndex" := JInt chunkIndex]>
      (<["startChar" := JInt startIndex]>
        (<["endChar" := JInt endIndex]> ∅)).

(** The [for (const separator of separators)] loop: the first separator, in
    priority order, whose last occurrence in the window lies beyond half the
    chunk size decides the split point; [-1] when there is none. *)
Fixpoint bestSplitPoint (chunkSize startIndex : Z) (window : jsstring)
    (separators : list jsstring) : Z :=
  match separators with
  | [] => -1
  | separator :: rest =>
      match separator with
      | [] => bestSplitPoint chunkSize startIndex window rest
      | _ =>
          let lastIndex := lastIndexOf window separator in
          (* lastIndex > chunkSize * 0.5 *)
          if chunkSize <? 2 * lastIndex
          then startIndex + lastIndex + strlen separator
          else bestSplitPoint chunkSize startIndex window rest
      end
  end.

(** The variables of the [while] loop. *)
Record LoopState : Type := mkLoopState {
  startIndex : Z;
  chunkIndex : Z;
  chunks : list TextChunk
}.

Definition initialState : LoopState := mkLoopState 0 0 [].

(** [startIndex < text.length] *)
Definition loopGuard (text : jsstring) (st : LoopState) : bool :=
  startIndex st <? strlen text.

Definition windowEnd (text : jsstring) (cfg : ChunkConfig) (start : Z) : Z :=
  let endIndex := Z.min (start + chunkSize cfg) (strlen text) in
  if endIndex <? strlen text
  then
    let split := bestSplitPoint (chunkSize cfg) start
                   (substring text start endIndex) (separators cfg) in
    if split =? -1 then endIndex else split
  else endIndex.

(** One pass through the body of the [while] loop. *)
Definition iteration (text : jsstring) (cfg : ChunkConfig)
    (additionalMetadata : gmap string value) (st : LoopState) : LoopState :=
  let endIndex := windowEnd text cfg (startIndex st) in
  let content := trim (substring text (startIndex st) endIndex) in
  let pushed :=
    if 0 <? strlen content
    then (chunks st ++
            [mkTextChunk content
               (chunkMetadata (chunkIndex st) (startIndex st) endIndex additionalMetadata)],
          chunkIndex st + 1)
    else (chunks st, chunkIndex st) in
  let next := endIndex - chunkOverlap cfg in
  let next' :=
    match last (fst pushed) with
    | Some lastChunk =>
        if numLeValue next (metadata lastChunk !! "startChar") then endIndex else next
    | None => next
    end in
  mkLoopState next' (snd pushed) (fst pushed).

(** The loop, run for at most [fuel] passes: the state in which it stops, or
    the state reached when the passes are used up. *)
Fixpoint run (fuel : nat) (text : jsstring) (cfg : ChunkConfig)
    (additionalMetadata : gmap string value) (st : LoopState) : LoopState :=
  if loopGuard text st
  then match fuel with
       | O => st
       | S fuel' => run fuel' text cfg additionalMetadata
                      (iteration text cfg additionalMetadata st)
       end
  else st.

(** [chunkText(text, config, additionalMetadata)]; [None] when the loop has
    not left after [fuel] passes. *)
Definition chunkText (fuel : nat) (text : jsstring) (config : PartialChunkConfig)
    (additionalMetadata : gmap string value) : option (list TextChunk) :=
  let cfg := resolveConfig config in
  if (strlen text =? 0) || (strlen (trim text) =? 0) then Some []
  else
    let final := run fuel text cfg additionalMetadata initialState in
    if loopGuard text final then None else Some (chunks final).

End Chunker.

(** ** Semantic chunker: [semanticChunk] *)

Module SemanticChunker.
Import JsString JsValue Effect.
Local Open Scope eff_scope.

Record SemanticChunkConfig : Type := mkSemanticChunkConfig {
  maxChunkSize : Z;
  minChunkSize : Z;
  similarityThreshold : Q;
  sentenceWindow : Z
}.

(** [Partial<SemanticChunkConfig>] *)
Record PartialSemanticChunkConfig : Type := mkPartialSemanticChunkConfig {
  maxChunkSize_opt : option Z;
  minChunkSize_opt : option Z;
  similarityThreshold_opt : option Q;
  sentenceWindow_opt : option Z
}.

Definition noOverrides : PartialSemanticChunkConfig :=
  mkPartialSemanticChunkConfig None None None None.

Definition DEFAULT_SEMANTIC_CONFIG : SemanticChunkConfig :=
  {| maxChunkSize := 1500;
     minChunkSize := 200;
     similarityThreshold := 3 # 4;
     sentenceWindow := 3 |}.

(** [{ ...DEFAULT_SEMANTIC_CONFIG, ...config }] *)
Definition resolveConfig (config : PartialSemanticChunkConfig) : SemanticChunkConfig :=
  {| maxChunkSize := default (maxChunkSize DEFAULT_SEMANTIC_CONFIG) (maxChunkSize_opt config);
     minChunkSize := default (minChunkSize DEFAULT_SEMANTIC_CONFIG) (minChunkSize_opt config);
     similarityThreshold :=
       default (similarityThreshold DEFAULT_SEMANTIC_CONFIG) (similarityThreshold_opt config);
     sentenceWindow :=
       default (sentenceWindow DEFAULT_SEMANTIC_CONFIG) (sentenceWindow_opt config) |}.

Record SemanticChunk : Type := mkSemanticChunk {
  content : jsstring;
  metadata : gmap string value
}.

(** [{ chunkIndex, sentenceCount, avgSimilarity, ...additionalMetadata }] *)
Definition chunkMetadata (chunkIndex sentenceCount : Z) (avgSimilarity : Q)
    (additionalMetadata : gmap string value) : gmap string value :=
  additionalMetadata ∪
    <["chunkIndex" := JInt chunkIndex]>
      (<["sentenceCount" := JInt sentenceCount]>
        (<["avgSimilarity" := JNum avgSimilarity]> ∅)).

(** What [semanticChunk] can throw. *)
Inductive error : Type :=
  | VectorLengthMismatch   (* [new Error("Vectors must have the same length")] *)
  | UndefinedVector        (* [TypeError]: [.length] of an absent embedding *)
  | EmbeddingFailed.       (* a rejected [generateEmbedding] promise *)

(** The variables of the grouping loop. *)
Record GroupState : Type := mkGroupState {
  chunks : list SemanticChunk;
  currentChunk : list jsstring;
  currentSize : Z;
  chunkIndex : Z;
  similarities : list Q
}.

Definition sumQ (l : list Q) : Q := fold_left Qplus l 0%Q.

Section WithProviders.

(** [nlp(text).sentences().out("array")] of the [compromise] library. *)
Variable nlpSentences : jsstring → list jsstring.

(** [generateEmbedding(sentence)] of the embedding provider, a function of
    the sentence; [None] when the promise rejects. *)
Variable generateEmbedding : jsstring → option (list Q).

(** [Math.sqrt] *)
Variable Math_sqrt : Q → Q.

Definition dotAndNorms (a b : list Q) : Q * Q * Q :=
  fold_left (λ '(dotProduct, normA, normB) '(x, y),
               (dotProduct + x * y, normA + x * x, normB + y * y)%Q)
            (combine a b) (0, 0, 0)%Q.

Definition cosineSimilarity (a b : list Q) : error + Q :=
  if negb (length a =? length b)%nat then inl VectorLengthMismatch
  else
    let '(dotProduct, normA, normB) := dotAndNorms a b in
    inr (dotProduct / (Math_sqrt normA * Math_sqrt normB))%Q.

Definition splitIntoSentences (text : jsstring) : list jsstring :=
  List.filter (λ s, 0 <? strlen (trim s)) (nlpSentences text).

(** [await Promise.all(batch.map((sentence) => generateEmbedding(sentence)))]:
    every call of the batch goes out; the batch fails when one of them does. *)
Definition embedBatch (batch : list jsstring) : Eff jsstring error (list (list Q)) :=
  λ log,
    (match mapM generateEmbedding batch with
     | Some vectors => inr vectors
     | None => inl EmbeddingFailed
     end, log ++ batch).

(** The batches of [batchSize] sentences, one after the other; [rounds]
    bounds their number. *)
Fixpoint embedBatches (rounds : nat) (batchSize : nat) (rest : list jsstring)
    (embeddings : list (list Q)) : Eff jsstring error (list (list Q)) :=
  match rest, rounds with
  | [], _ => ret embeddings
  | _, O => ret embeddings
  | _, S rounds' =>
      let* batchEmbeddings := embedBatch (take batchSize rest) in
      embedBatches rounds' batchSize (drop batchSize rest)
                   (embeddings ++ batchEmbeddings)
  end.

Definition embedSentences (sentences : list jsstring)
    : Eff jsstring error (list (list Q)) :=
  embedBatches (length sentences) 20 sentences [].

(** [embeddings[i]], [undefined] outside the array. *)
Definition at_ {A} (l : list A) (i : Z) : option A :=
  if i <? 0 then None else l !! Z.to_nat i.

(** [cosineSimilarity(embeddings[i], embeddings[idx])] *)
Definition similarityAt (embeddings : list (list Q)) (i idx : Z) : error + Q :=
  match at_ embeddings i, at_ embeddings idx with
  | Some a, Some b => cosineSimilarity a b
  | _, _ => inl UndefinedVector
  end.

(** [recentIndices.reduce((sum, idx) => sum + cosineSimilarity(...), 0)] *)
Fixpoint sumSimilarities (embeddings : list (list Q)) (i : Z)
    (recentIndices : list Z) (sum : Q) : error + Q :=
  match recentIndices with
  | [] => inr sum
  | idx :: rest =>
      match similarityAt embeddings i idx with
      | inl e => inl e
      | inr c => sumSimilarities embeddings i rest (sum + c)%Q
      end
  end.

(** [similarities.length > 0 ? sum / similarities.length : 1.0] *)
Definition chunkAvgSimilarity (similarities : list Q) : Q :=
  match similarities with
  | [] => 1
  | _ => (sumQ similarities / inject_Z (Z.of_nat (length similarities)))%Q
  end.

Definition finalize (additionalMetadata : gmap string value) (st : GroupState)
    : SemanticChunk :=
  mkSemanticChunk
    (trim (join (js " ") (currentChunk st)))
    (chunkMetadata (chunkIndex st) (Z.of_nat (length (currentChunk st)))
       (chunkAvgSimilarity (similarities st)) additionalMetadata).

(** [currentChunk.slice(lookbackStart)] for [lookbackStart >= 0] *)
Definition sliceFrom {A} (l : list A) (start : Z) : list A := drop (Z.to_nat start) l.

(** The body of [for (let i = 1; i < sentences.length; i++)] at index [i]
    with [sentence = sentences[i]]. *)
Definition groupStep (cfg : SemanticChunkConfig)
    (additionalMetadata : gmap string value) (embeddings : list (list Q))
    (i : Z) (sentence : jsstring) (st : GroupState) : error + GroupState :=
  let sentenceLength := strlen sentence in
  let count := Z.of_nat (length (currentChunk st)) in
  let lookbackStart := Z.max 0 (count - sentenceWindow cfg) in
  let recentSentences := sliceFrom (currentChunk st) lookbackStart in
  let recentIndices :=
    List.map (λ idx, i - count + lookbackStart + Z.of_nat idx)
             (seq 0 (length recentSentences)) in
  match sumSimilarities embeddings i recentIndices 0 with
  | inl e => inl e
  | inr sum =>
      let avgSimilarity :=
        (sum / inject_Z (Z.of_nat (length recentIndices)))%Q in
      let similarities' := similarities st ++ [avgSimilarity] in
      let wouldExceedMax := maxChunkSize cfg <? currentSize st + sentenceLength in
      let isSimilar := Qle_bool (similarityThreshold cfg) avgSimilarity in
      let meetsMinSize := minChunkSize cfg <=? currentSize st in
      if wouldExceedMax || (negb isSimilar && meetsMinSize)
      then
        inr (mkGroupState
               (chunks st ++
                  [finalize additionalMetadata
                     (mkGroupState (chunks st) (currentChunk st) (currentSize st)
                        (chunkIndex st) similarities')])
               [sentence] sentenceLength (chunkIndex st + 1) [])
      else
        inr (mkGroupState (chunks st) (currentChunk st ++ [sentence])
               (currentSize st + sentenceLength) (chunkIndex st) similarities')
  end.

(** The loop from index [i] over the sentences [rest] that are left. *)
Fixpoint groupLoop (cfg : SemanticChunkConfig)
    (additionalMetadata : gmap string value) (embeddings : list (list Q))
    (i : Z) (rest : list jsstring) (st : GroupState) : error + GroupState :=
  match rest with
  | [] => inr st
  | sentence :: rest' =>
      match groupStep cfg additionalMetadata embeddings i sentence st with
      | inl e => inl e
      | inr st' => groupLoop cfg additionalMetadata embeddings (i + 1) rest' st'
      end
  end.

Definition groupSentences (cfg : SemanticChunkConfig)
    (additionalMetadata : gmap string value) (embeddings : list (list Q))
    (sentences : list jsstring) : error + list SemanticChunk :=
  match sentences with
  | [] => inl UndefinedVector   (* [sentences[0].length] of no sentence *)
  | first :: rest =>
      match groupLoop cfg additionalMetadata embeddings 1 rest
              (mkGroupState [] [first] (strlen first) 0 []) with
      | inl e => inl e
      | inr st =>
          inr (if (0 <? length (currentChunk st))%nat
               then chunks st ++ [finalize additionalMetadata st]
               else chunks st)
      end
  end.

(** [semanticChunk(text, config, additionalMetadata)] *)
Definition semanticChunk (text : jsstring) (config : PartialSemanticChunkConfig)
    (additionalMetadata : gmap string value)
    : Eff jsstring error (list SemanticChunk) :=
  let cfg := resolveConfig config in
  if (strlen text =? 0) || (strlen (trim text) =? 0) then ret []
  else
    let sentences := splitIntoSentences text in
    if (length sentences =? 0)%nat then ret []
    else if strlen text <=? maxChunkSize cfg
    then ret [mkSemanticChunk (trim text)
                (chunkMetadata 0 (Z.of_nat (length sentences)) 1 additionalMetadata)]
    else
      let* embeddings := embedSentences sentences in
      match groupSentences cfg additionalMetadata embeddings sentences with
      | inl e => throw e
      | inr chunks => ret chunks
      end.

End WithProviders.

End SemanticChunker.

(** ** Hybrid search: [vector-search.ts] *)

Module VectorSearch.
Import JsString JsValue Effect.
Local Open Scope eff_scope.

Definition RRF_K : Z := 60.

Record SimilarChunk : Type := mkSimilarChunk {
  id : string;
  documentId : string;
  content : jsstring;
  metadata : option (gmap string value);
  similarity : Q
}.

Record RankedResult : Type := mkRankedResult {
  rid : string;
  rank : Z;
  score : Q
}.

(** A row of the keyword query: [SimilarChunk & { rank: number }]. *)
Record FtsRow : Type := mkFtsRow {
  chunk : SimilarChunk;
  ftsRank : Q
}.

(** *** [Map<string, V>], in insertion order *)

Definition JsMap (V : Type) : Type := list (string * V).

Fixpoint mapGet {V} (m : JsMap V) (key : string) : option V :=
  match m with
  | [] => None
  | (k, v) :: rest => if String.eqb k key then Some v else mapGet rest key
  end.

Definition mapHas {V} (m : JsMap V) (key : string) : bool :=
  match mapGet m key with Some _ => true | None => false end.

(** [m.set(key, v)]: a key that is present keeps its place. *)
Fixpoint mapSet {V} (m : JsMap V) (key : string) (v : V) : JsMap V :=
  match m with
  | [] => [(key, v)]
  | (k, w) :: rest =>
      if String.eqb k key then (k, v) :: rest else (k, w) :: mapSet rest key v
  end.

(** [x || 0] for a score read from the map. *)
Definition orZero (x : option Q) : Q :=
  match x with
  | Some s => if Qeq_bool s 0 then 0%Q else s
  | None => 0%Q
  end.

(** *** Reciprocal rank fusion *)

(** The body of the inner loop of [reciprocalRankFusion]. *)
Definition addReciprocalRank (k : Z) (rrfScores : JsMap Q) (item : RankedResult)
    : JsMap Q :=
  let currentScore := orZero (mapGet rrfScores (rid item)) in
  let rrfScore := (1 / inject_Z (k + rank item))%Q in
  mapSet rrfScores (rid item) (currentScore + rrfScore)%Q.

Definition reciprocalRankFusion (rankedLists : list (list RankedResult)) (k : Z)
    : JsMap Q :=
  fold_left (λ rrfScores rankedList, fold_left (addReciprocalRank k) rankedList rrfScores)
            rankedLists [].

(** [semanticResults.map((chunk, index) => ({ id, rank: index + 1, score }))] *)
Definition rankSemantic (semanticResults : list SimilarChunk) : list RankedResult :=
  imap (λ index c, mkRankedResult (id c) (Z.of_nat index + 1) (similarity c))
       semanticResults.

Definition rankFts (ftsResults : list FtsRow) : list RankedResult :=
  imap (λ index row, mkRankedResult (id (chunk row)) (Z.of_nat index + 1) (ftsRank row))
       ftsResults.

(** [arr.sort(compare)], a stable sort: [x], which stood before the elements
    of the sorted [l], goes behind [y] only when [compare(x, y) > 0]. *)
Fixpoint insertSorted {A} (compare : A → A → Q) (x : A) (l : list A) : list A :=
  match l with
  | [] => [x]
  | y :: rest =>
      if negb (Qle_bool (compare x y) 0)
      then y :: insertSorted compare x rest
      else x :: y :: rest
  end.

Definition sort {A} (compare : A → A → Q) (l : list A) : list A :=
  foldr (insertSorted compare) [] l.

(** The map of all chunks: those of the vector stage, then those of the
    keyword stage that are not in it. *)
Definition buildChunkMap (semanticResults : list SimilarChunk)
    (ftsResults : list FtsRow) : JsMap SimilarChunk :=
  fold_left (λ chunkMap row,
               if negb (mapHas chunkMap (id (chunk row)))
               then mapSet chunkMap (id (chunk row)) (chunk row)
               else chunkMap)
    ftsResults
    (fold_left (λ chunkMap c, mapSet chunkMap (id c) c) semanticResults []).

(** Lines 157-205 of [hybridSearch], which are also lines 272-317 of
    [hybridSearchInDocuments]: rank, fuse, look the chunks up, sort by fused
    score, cut at [limit]. *)
Definition mergeResults (semanticResults : list SimilarChunk)
    (ftsResults : list FtsRow) (limit : nat) : list SimilarChunk :=
  let semanticRanked := rankSemantic semanticResults in
  let ftsRanked := rankFts ftsResults in
  let rrfScores := reciprocalRankFusion [semanticRanked; ftsRanked] RRF_K in
  let chunkMap := buildChunkMap semanticResults ftsResults in
  let found := omap (λ entry, mapGet chunkMap (fst entry)) rrfScores in
  let sorted :=
    sort (λ a b, let rrfA := orZero (mapGet rrfScores (id a)) in
                 let rrfB := orZero (mapGet rrfScores (id b)) in
                 (rrfB - rrfA)%Q) found in
  take limit sorted.

(** *** The queries *)

(** The keyword condition of the [WHERE] clause. *)
Inductive TextCondition : Type :=
  | WhereLike (likeConditions : jsstring)   (* [WHERE (${likeConditions})] *)
  | WhereTsQuery (tsQuery : jsstring).      (* [content_fts @@ to_tsquery('english', '${tsQuery}')] *)

(** The two kinds of SQL query of the module; [scope] is the list of the
    [documentId IN (...)] clause when there is one. *)
Inductive Query : Type :=
  | VectorQuery (embedding : list Q) (scope : option (list string))
      (minSimilarity : Q) (limit : nat)
  | TextQuery (embedding : list Q) (condition : TextCondition)
      (scope : option (list string)) (limit : nat).

Inductive DbError : Type := QueryFailed.

(** [queryText.split(/\s+/).filter(len > 2).map(strip).filter(len > 2)] *)
Definition keywordsOf (queryText : jsstring) : list jsstring :=
  List.filter (λ word, 2 <? strlen word)
    (List.map stripNonWord
       (List.filter (λ word, 2 <? strlen word) (splitWhitespace queryText))).

(** [keywords.map((keyword) => `content ILIKE '%${keyword}%'`).join(" OR ")] *)
Definition likeConditionsOf (keywords : list jsstring) : jsstring :=
  join (js " OR ")
    (List.map (λ keyword, js "content ILIKE '%" ++ keyword ++ js "%'") keywords).

(** [queryText.split(/\s+/).filter(len > 0).map(strip).filter(len > 0)] *)
Definition tsTokensOf (queryText : jsstring) : list jsstring :=
  List.filter (λ word, 0 <? strlen word)
    (List.map stripNonWord
       (List.filter (λ word, 0 <? strlen word) (splitWhitespace queryText))).

(** [....join(" & ")] *)
Definition tsQueryOf (queryText : jsstring) : jsstring :=
  join (js " & ") (tsTokensOf queryText).

Section WithDatabase.

(** [prisma.$queryRawUnsafe] on the two kinds of query; [None] when the
    database call fails. *)
Variable runVectorQuery : Query → option (list SimilarChunk).
Variable runTextQuery : Query → option (list FtsRow).

Definition queryRaw {A} (run : Query → option (list A)) (q : Query)
    : Eff Query DbError (list A) :=
  λ log, (match run q with
          | Some rows => inr rows
          | None => inl QueryFailed
          end, log ++ [q]).

Definition hybridSearch (queryEmbedding : list Q) (queryText : jsstring)
    (limit : nat) (minSimilarity : Q) : Eff Query DbError (list SimilarChunk) :=
  let searchLimit := (limit * 2)%nat in
  let* semanticResults :=
    queryRaw runVectorQuery
      (VectorQuery queryEmbedding None minSimilarity searchLimit) in
  let keywords := keywordsOf queryText in
  if (length keywords =? 0)%nat
  then ret (take limit semanticResults)
  else
    let likeConditions := likeConditionsOf keywords in
    let* ftsResults :=
      queryRaw runTextQuery
        (TextQuery queryEmbedding (WhereLike likeConditions) None searchLimit) in
    ret (mergeResults semanticResults ftsResults limit).

Definition hybridSearchInDocuments (queryEmbedding : list Q) (queryText : jsstring)
    (documentIds : list string) (limit : nat) (minSimilarity : Q)
    : Eff Query DbError (list SimilarChunk) :=
  if (length documentIds =? 0)%nat
  then hybridSearch queryEmbedding queryText limit minSimilarity
  else
    let searchLimit := (limit * 2)%nat in
    let* semanticResults :=
      queryRaw runVectorQuery
        (VectorQuery queryEmbedding (Some documentIds) minSimilarity searchLimit) in
    let tsQuery := tsQueryOf queryText in
    if (strlen tsQuery =? 0)
    then ret (take limit semanticResults)
    else
      let* ftsResults :=
        queryRaw runTextQuery
          (TextQuery queryEmbedding (WhereTsQuery tsQuery) (Some documentIds)
             searchLimit) in
      ret (mergeResults semanticResults ftsResults limit).

End WithDatabase.

End VectorSearch.

(** ** Reranker: [rerank.ts] *)

Module Rerank.
Import JsString JsValue Effect VectorSearch.
Local Open Scope eff_scope.

Definition RERANK_MODEL : jsstring := js "rerank-english-v3.0".
Definition RERANK_TOP_N : nat := 5.

(** [RerankedChunk extends SimilarChunk]: the fields of the chunk that was
    spread, and the two scores. *)
Record RerankedChunk : Type := mkRerankedChunk {
  spread : SimilarChunk;
  rerankScore : Q;
  originalSimilarity : Q
}.

(** The argument of [cohereClient.rerank]. *)
Record RerankRequest : Type := mkRerankRequest {
  token : jsstring;
  model : jsstring;
  query : jsstring;
  documents : list jsstring;
  topN : nat;
  returnDocuments : bool
}.

(** An element of [reranked.results]. *)
Record RerankResult : Type := mkRerankResult {
  index : Z;
  relevanceScore : Q
}.

(** What can be thrown inside the [try] block. *)
Inductive error : Type :=
  | ImportFailed      (* [await import("cohere-ai")] rejects *)
  | RerankFailed      (* [cohereClient.rerank] rejects: network, timeout, status *)
  | TypeError.        (* [originalChunk.similarity] of [undefined] *)

(** The surroundings of a call: whether the module [cohere-ai] can be
    loaded, [process.env.COHERE_API_KEY], and the rerank service. *)
Record Environment : Type := mkEnvironment {
  cohereInstalled : bool;
  COHERE_API_KEY : option jsstring;
  rerankService : RerankRequest → option (list RerankResult)
}.

(** [{ ...chunk, rerankScore: chunk.similarity, originalSimilarity: chunk.similarity }] *)
Definition withOwnScore (c : SimilarChunk) : RerankedChunk :=
  mkRerankedChunk c (similarity c) (similarity c).

(** [chunks[i]], [undefined] outside the array. *)
Definition chunkAt (chunks : list SimilarChunk) (i : Z) : option SimilarChunk :=
  if i <? 0 then None else chunks !! Z.to_nat i.

(** The callback of [reranked.results.map]. *)
Definition toReranked (chunks : list SimilarChunk) (result : RerankResult)
    : error + RerankedChunk :=
  match chunkAt chunks (index result) with
  | Some originalChunk =>
      inr (mkRerankedChunk
             (mkSimilarChunk (id originalChunk) (documentId originalChunk)
                (content originalChunk) (VectorSearch.metadata originalChunk)
                (relevanceScore result))
             (relevanceScore result)
             (similarity originalChunk))
  | None => inl TypeError
  end.

Fixpoint mapResults (chunks : list SimilarChunk) (results : list RerankResult)
    : error + list RerankedChunk :=
  match results with
  | [] => inr []
  | result :: rest =>
      match toReranked chunks result with
      | inl e => inl e
      | inr c =>
          match mapResults chunks rest with
          | inl e => inl e
          | inr cs => inr (c :: cs)
          end
      end
  end.

(** [!cohereApiKey] *)
Definition keyMissing (key : option jsstring) : bool :=
  match key with
  | None => true
  | Some k => strlen k =? 0
  end.

Definition importCohere (env : Environment) : Eff RerankRequest error unit :=
  if cohereInstalled env then ret tt else throw ImportFailed.

Definition callRerank (env : Environment) (request : RerankRequest)
    : Eff RerankRequest error (list RerankResult) :=
  λ log, (match rerankService env request with
          | Some results => inr results
          | None => inl RerankFailed
          end, log ++ [request]).

(** [chunks.slice(0, topN).map(withOwnScore)] *)
Definition firstTopN (chunks : list SimilarChunk) (topN : nat) : list RerankedChunk :=
  withOwnScore <$> take topN chunks.

Definition rerankChunks (env : Environment) (query : jsstring)
    (chunks : list SimilarChunk) (topN : nat)
    : Eff RerankRequest error (list RerankedChunk) :=
  if (length chunks =? 0)%nat then ret []
  else if (length chunks <=? topN)%nat then ret (withOwnScore <$> chunks)
  else
    tryCatch
      (let documents := VectorSearch.content <$> chunks in
       let* _ := importCohere env in
       let cohereApiKey := COHERE_API_KEY env in
       if keyMissing cohereApiKey then ret (firstTopN chunks topN)
       else
         let* results :=
           callRerank env
             (mkRerankRequest (default [] cohereApiKey) RERANK_MODEL query
                documents topN false) in
         match mapResults chunks results with
         | inl e => throw e
         | inr rerankedChunks => ret rerankedChunks
         end)
      (λ _, ret (firstTopN chunks topN)).

End Rerank.

(** ** The rest of [chunker.ts] *)

Module ChunkerTools.
Import JsString JsValue Chunker.

Definition CHAR_PER_TOKEN : Z := 4.
Definition OVERLAP_RATIO : Q := 2 # 10.



(** [Math.ceil(text.length / CHAR_PER_TOKEN)] *)
Definition estimateTokenCount (text : jsstring) : Z :=
  Qceiling (inject_Z (strlen text) / inject_Z CHAR_PER_TOKEN).

(** [getChunkConfigForTokens(targetTokens)] *)
Definition getChunkConfigForTokens (targetTokens : Z) : ChunkConfig :=
  {| chunkSize := targetTokens * CHAR_PER_TOKEN;
     chunkOverlap := Qfloor (inject_Z (targetTokens * CHAR_PER_TOKEN) * OVERLAP_RATIO);
     separators := separators DEFAULT_CHUNK_CONFIG |}.

(** A full configuration passed where a [Partial<ChunkConfig>] is expected. *)
Definition asOverrides (cfg : ChunkConfig) : PartialChunkConfig :=
  mkPartialChunkConfig (Some (chunkSize cfg)) (Some (chunkOverlap cfg))
    (Some (separators cfg)).

End ChunkerTools.

(** ** The second entry point of [rerank.ts] *)

Module RerankCustom.
Import JsString JsValue Effect VectorSearch Rerank.
Local Open Scope eff_scope.

(** The [options] argument of [rerankChunksCustom]. *)
Record RerankOptions : Type := mkRerankOptions {
  topN_opt : option nat;
  model_opt : option jsstring
}.

Definition noOptions : RerankOptions := mkRerankOptions None None.

(** [rerankChunksCustom(query, chunks, options)] *)
Definition rerankChunksCustom (env : Environment) (query : jsstring)
    (chunks : list SimilarChunk) (options : RerankOptions)
    : Eff RerankRequest error (list RerankedChunk) :=
  let topN := default RERANK_TOP_N (topN_opt options) in
  let model := default RERANK_MODEL (model_opt options) in
  if (length chunks =? 0)%nat then ret []
  else if (length chunks <=? topN)%nat then ret (withOwnScore <$> chunks)
  else
    tryCatch
      (let* _ := importCohere env in
       let cohereApiKey := COHERE_API_KEY env in
       if keyMissing cohereApiKey then ret (firstTopN chunks topN)
       else
         let documents := VectorSearch.content <$> chunks in
         let* results :=
           callRerank env
             (mkRerankRequest (default [] cohereApiKey) model query
                documents topN false) in
         match mapResults chunks results with
         | inl e => throw e
         | inr rerankedChunks => ret rerankedChunks
         end)
      (λ _, ret (firstTopN chunks topN)).

End RerankCustom.

(** ** The fallback of the semantic chunker: [hybridChunk] *)

Module HybridChunker.
Import JsString JsValue Effect SemanticChunker.
Local Open Scope eff_scope.

(** [const maxSize = 1500] *)
Definition maxSize : Z := 1500.

(** The variables of the fallback loop. *)
Record FallbackState : Type := mkFallbackState {
  chunks : list SemanticChunk;
  currentChunk : list jsstring;
  currentSize : Z;
  chunkIndex : Z
}.

(** The chunk pushed for the sentences collected so far. *)
Definition fallbackChunk (additionalMetadata : gmap string value)
    (st : FallbackState) : SemanticChunk :=
  mkSemanticChunk
    (trim (join (js " ") (currentChunk st)))
    (chunkMetadata (chunkIndex st) (Z.of_nat (length (currentChunk st))) 0
       additionalMetadata).

(** The body of [for (const sentence of sentences)]. *)
Definition fallbackStep (additionalMetadata : gmap string value)
    (st : FallbackState) (sentence : jsstring) : FallbackState :=
  let st1 :=
    if (maxSize <? currentSize st + strlen sentence)
       && (0 <? length (currentChunk st))%nat
    then mkFallbackState (chunks st ++ [fallbackChunk additionalMetadata st])
           [] 0 (chunkIndex st + 1)
    else st in
  mkFallbackState (chunks st1) (currentChunk st1 ++ [sentence])
    (currentSize st1 + strlen sentence) (chunkIndex st1).

(** Lines 488-525: grouping by sentence boundaries, without embeddings. *)
Definition fallback (additionalMetadata : gmap string value)
    (sentences : list jsstring) : list SemanticChunk :=
  let st := fold_left (fallbackStep additionalMetadata) sentences
              (mkFallbackState [] [] 0 0) in
  if (0 <? length (currentChunk st))%nat
  then chunks st ++ [fallbackChunk additionalMetadata st]
  else chunks st.

Section WithProviders.
Variable nlpSentences : jsstring → list jsstring.
Variable generateEmbedding : jsstring → option (list Q).
Variable Math_sqrt : Q → Q.

(** [hybridChunk(text, additionalMetadata)]: the [try] block returns the
    result of [semanticChunk]; when it throws, or when the number of
    sentences is 0 or above 100, control reaches the fallback. *)
Definition hybridChunk (text : jsstring) (additionalMetadata : gmap string value)
    : Eff jsstring error (list SemanticChunk) :=
  let sentences := splitIntoSentences nlpSentences text in
  let* attempt :=
    if (0 <? length sentences)%nat && (length sentences <=? 100)%nat
    then
      tryCatch
        (let* result :=
           semanticChunk nlpSentences generateEmbedding Math_sqrt
             text SemanticChunker.noOverrides additionalMetadata in
         ret (Some result))
        (λ _, ret None)
    else ret None in
  match attempt with
  | Some result => ret result
  | None => ret (fallback additionalMetadata sentences)
  end.

End WithProviders.

End HybridChunker.

(** ** Retry and circuit breaker: the error-handling utilities *)

Module ErrorHandling.
Import Effect.
Local Open Scope eff_scope.

(** What [withRetry] does to the outside: it invokes [fn], and it waits. *)
Inductive Call : Type :=
  | Invoke
  | Sleep (ms : Q).

Definition isInvoke (c : Call) : bool :=
  match c with Invoke => true | Sleep _ => false end.

Definition isSleep (c : Call) : bool :=
  match c with Invoke => false | Sleep _ => true end.

Section WithRetry.
Context {E T : Type}.

(** The value of [lastError] before any attempt. *)
Variable undefined : E.

(** The predicate of [DEFAULT_RETRY_OPTIONS.retryableErrors]. *)
Variable defaultRetryable : E → bool.

(** [maxRetries] is an integer. *)
Record RetryOptions : Type := mkRetryOptions {
  maxRetries : Z;
  initialDelay : Q;
  maxDelay : Q;
  backoffMultiplier : Q;
  retryableErrors : option (E → bool)
}.

(** [Partial<RetryOptions>]; [retryableErrors_opt = Some None] is an
    explicit [undefined]. *)
Record PartialRetryOptions : Type := mkPartialRetryOptions {
  maxRetries_opt : option Z;
  initialDelay_opt : option Q;
  maxDelay_opt : option Q;
  backoffMultiplier_opt : option Q;
  retryableErrors_opt : option (option (E → bool))
}.

Definition DEFAULT_RETRY_OPTIONS : RetryOptions :=
  {| maxRetries := 3;
     initialDelay := 1000;
     maxDelay := 30000;
     backoffMultiplier := 2;
     retryableErrors := Some defaultRetryable |}.

(** [{ ...DEFAULT_RETRY_OPTIONS, ...options }] *)
Definition resolveOptions (options : PartialRetryOptions) : RetryOptions :=
  {| maxRetries := default (maxRetries DEFAULT_RETRY_OPTIONS) (maxRetries_opt options);
     initialDelay := default (initialDelay DEFAULT_RETRY_OPTIONS) (initialDelay_opt options);
     maxDelay := default (maxDelay DEFAULT_RETRY_OPTIONS) (maxDelay_opt options);
     backoffMultiplier :=
       default (backoffMultiplier DEFAULT_RETRY_OPTIONS) (backoffMultiplier_opt options);
     retryableErrors :=
       default (retryableErrors DEFAULT_RETRY_OPTIONS) (retryableErrors_opt options) |}.

(** [await fn()]: the outcome of an invocation is a function of the number
    of invocations before it. *)
Definition invoke (fn : nat → E + T) : Eff Call E T :=
  λ log, (fn (length (List.filter isInvoke log)), log ++ [Invoke]).

(** [config.retryableErrors?.(error)], [undefined] counting as [false]. *)
Definition isRetryable (config : RetryOptions) (error : E) : bool :=
  match retryableErrors config with
  | Some retryable => retryable error
  | None => false
  end.

(** The [for] loop over the attempts [range] that are left; [random attempt]
    is the value of [Math.random()] drawn in that attempt. *)
Fixpoint retryLoop (config : RetryOptions) (fn : nat → E + T) (random : Z → Q)
    (range : list Z) (delay : Q) (lastError : E) : Eff Call E T :=
  match range with
  | [] => throw lastError
  | attempt :: rest =>
      tryCatch (invoke fn)
        (λ error,
           if negb (isRetryable config error) then throw error
           else if attempt =? maxRetries config then throw error
           else
             let* _ := issue (Sleep delay) in
             retryLoop config fn random rest
               (Qmin (delay * backoffMultiplier config
                      * ((9 # 10) + random attempt * (2 # 10)))
                     (maxDelay config))
               error)
  end.

(** [withRetry(fn, options)] *)
Definition withRetry (fn : nat → E + T) (options : PartialRetryOptions)
    (random : Z → Q) : Eff Call E T :=
  let config := resolveOptions options in
  retryLoop config fn random (seqZ 0 (maxRetries config + 1))
    (initialDelay config) undefined.

End WithRetry.

(** *** [CircuitBreaker] *)

Inductive BreakerState : Type := Closed | Open | HalfOpen.

Record CircuitBreaker : Type := mkCircuitBreaker {
  threshold : Z;
  timeout : Z;
  failures : Z;
  lastFailureTime : option Z;
  state : BreakerState
}.

(** [new CircuitBreaker(threshold, timeout)] *)
Definition newCircuitBreaker (threshold timeout : Z) : CircuitBreaker :=
  mkCircuitBreaker threshold timeout 0 None Closed.

(** What [execute] throws: its own error, or the one of [fn]. *)
Inductive ExecuteError (E : Type) : Type :=
  | CircuitOpen
  | Thrown (e : E).
Arguments CircuitOpen {E}.
Arguments Thrown {E} e.

Definition onSuccess (cb : CircuitBreaker) : CircuitBreaker :=
  mkCircuitBreaker (threshold cb) (timeout cb) 0 (lastFailureTime cb) Closed.

Definition onFailure (now : Z) (cb : CircuitBreaker) : CircuitBreaker :=
  let failures' := failures cb + 1 in
  mkCircuitBreaker (threshold cb) (timeout cb) failures' (Some now)
    (if threshold cb <=? failures' then Open else state cb).

Definition reset (cb : CircuitBreaker) : CircuitBreaker :=
  mkCircuitBreaker (threshold cb) (timeout cb) 0 None Closed.

(** A call of [execute]: what it returns or throws, whether it invoked [fn],
    and the breaker afterwards. *)
Record Execution (E T : Type) : Type := mkExecution {
  result : ExecuteError E + T;
  invoked : bool;
  after : CircuitBreaker
}.
Arguments mkExecution {E T}.
Arguments result {E T}.
Arguments invoked {E T}.
Arguments after {E T}.

(** [execute(fn)] when the clock shows [now] on entry and [failedAt] in
    [onFailure], and [fn], if invoked, ends as [fn]. *)
Definition execute {E T} (now failedAt : Z) (fn : E + T) (cb : CircuitBreaker)
    : Execution E T :=
  let entered :=
    match state cb with
    | Open =>
        let timeSinceLastFailure := now - default 0 (lastFailureTime cb) in
        if timeout cb <=? timeSinceLastFailure
        then Some (mkCircuitBreaker (threshold cb) (timeout cb) (failures cb)
                     (lastFailureTime cb) HalfOpen)
        else None
    | _ => Some cb
    end in
  match entered with
  | None => mkExecution (inl CircuitOpen) false cb
  | Some cb' =>
      match fn with
      | inr value => mkExecution (inr value) true (onSuccess cb')
      | inl error => mkExecution (inl (Thrown error)) true (onFailure failedAt cb')
      end
  end.

End ErrorHandling.

(** ** Rate limiting: [RateLimiter] *)

Module RateLimit.

Record RateLimitConfig : Type := mkRateLimitConfig {
  windowMs : Z;
  maxRequests : Z
}.

Record RateLimitEntry : Type := mkRateLimitEntry {
  count : Z;
  resetTime : Z
}.

(** What [check] returns. *)
Record CheckResult : Type := mkCheckResult {
  allowed : bool;
  remaining : Z;
  resultResetTime : Z
}.

(** [now > entry.resetTime] *)
Definition expired (now : Z) (entry : RateLimitEntry) : bool := resetTime entry <? now.

(** [cleanup()] when the clock shows [now]. *)
Definition cleanup (now : Z) (store : gmap string RateLimitEntry)
    : gmap string RateLimitEntry :=
  filter (λ kv, expired now (snd kv) = false) store.

(** [check(identifier, config)] when the clock shows [now]. *)
Definition check (now : Z) (identifier : string) (config : RateLimitConfig)
    (store : gmap string RateLimitEntry) : CheckResult * gmap string RateLimitEntry :=
  match store !! identifier with
  | Some entry =>
      if expired now entry
      then
        let resetTime := now + windowMs config in
        (mkCheckResult true (maxRequests config - 1) resetTime,
         <[identifier := mkRateLimitEntry 1 resetTime]> store)
      else if maxRequests config <=? count entry
      then (mkCheckResult false 0 (resetTime entry), store)
      else
        let entry' := mkRateLimitEntry (count entry + 1) (resetTime entry) in
        (mkCheckResult true (maxRequests config - count entry') (resetTime entry'),
         <[identifier := entry']> store)
  | None =>
      let resetTime := now + windowMs config in
      (mkCheckResult true (maxRequests config - 1) resetTime,
       <[identifier := mkRateLimitEntry 1 resetTime]> store)
  end.

(** [reset(identifier)] *)
Definition reset (identifier : string) (store : gmap string RateLimitEntry)
    : gmap string RateLimitEntry :=
  delete identifier store.

End RateLimit.

(** ** Embedding in batches: [embeddings.ts] *)

Module Embeddings.
Import JsString Effect.
Local Open Scope eff_scope.

Definition BATCH_DELAY_MS : Z := 100.
Definition DEFAULT_BATCH_SIZE : Z := 100.

(** What goes out: a request to the embedding provider, and a pause. *)
Inductive Call : Type :=
  | EmbedMany (values : list jsstring)
  | Delay (ms : Z).

Inductive error : Type :=
  | EmbedManyFailed.   (* a rejected [embedMany] promise *)

(** [l.slice(start, end)] for integers: a negative index counts from the
    end, and both are clamped to the array. *)
Definition slice {A} (l : list A) (start end_ : Z) : list A :=
  let len := Z.of_nat (length l) in
  let from := if start <? 0 then Z.max (len + start) 0 else Z.min start len in
  let to := if end_ <? 0 then Z.max (len + end_) 0 else Z.min end_ len in
  take (Z.to_nat (to - from)) (drop (Z.to_nat from) l).

Section WithProvider.

(** [embedMany] of the provider on the values of a request; [None] when the
    promise rejects. *)
Variable embedMany : list jsstring → option (list (list Q)).

(** [generateEmbeddings(texts)] *)
Definition generateEmbeddings (texts : list jsstring)
    : Eff Call error (list (list Q)) :=
  λ log, (match embedMany texts with
          | Some embeddings => inr embeddings
          | None => inl EmbedManyFailed
          end, log ++ [EmbedMany texts]).

(** The loop [for (let i = 0; i < texts.length; i += batchSize)] from [i];
    [None] when it has not been left after [fuel] passes. *)
Fixpoint batchLoop (fuel : nat) (texts : list jsstring) (batchSize : Z) (i : Z)
    (embeddings : list (list Q)) : Eff Call error (option (list (list Q))) :=
  match fuel with
  | O => if i <? Z.of_nat (length texts) then ret None else ret (Some embeddings)
  | S fuel' =>
      if i <? Z.of_nat (length texts)
      then
        let batch := slice texts i (i + batchSize) in
        let* batchEmbeddings := generateEmbeddings batch in
        let* _ :=
          if i + batchSize <? Z.of_nat (length texts)
          then issue (Delay BATCH_DELAY_MS)
          else ret tt in
        batchLoop fuel' texts batchSize (i + batchSize) (embeddings ++ batchEmbeddings)
      else ret (Some embeddings)
  end.

(** [generateEmbeddingsInBatches(texts, batchSize)] for an integer
    [batchSize]. *)
Definition generateEmbeddingsInBatches (fuel : nat) (texts : list jsstring)
    (batchSize : option Z) : Eff Call error (option (list (list Q))) :=
  batchLoop fuel texts (default DEFAULT_BATCH_SIZE batchSize) 0 [].

End WithProvider.

End Embeddings.

(** ** Metrics: [MetricsCollector] *)

Module Metrics.
Import VectorSearch.

Record MetricsCollector : Type := mkMetricsCollector {
  metrics : JsMap (list Q);
  counters : JsMap Q
}.

(** [new MetricsCollector()] *)
Definition newMetricsCollector : MetricsCollector := mkMetricsCollector [] [].

(** [recordDuration(name, durationMs)] *)
Definition recordDuration (name : string) (durationMs : Q) (mc : MetricsCollector)
    : MetricsCollector :=
  let existing := default [] (mapGet (metrics mc) name) in
  mkMetricsCollector (mapSet (metrics mc) name (existing ++ [durationMs])) (counters mc).

(** [increment(name, value)] *)
Definition increment (name : string) (value : Q) (mc : MetricsCollector)
    : MetricsCollector :=
  let current := orZero (mapGet (counters mc) name) in
  mkMetricsCollector (metrics mc) (mapSet (counters mc) name (current + value)%Q).

(** [getCounter(name)] *)
Definition getCounter (name : string) (mc : MetricsCollector) : Q :=
  orZero (mapGet (counters mc) name).

(** What [getStats] returns; an entry read outside the array is
    [undefined], here [None]. *)
Record Stats : Type := mkStats {
  count : Z;
  min : option Q;
  max : option Q;
  avg : Q;
  p50 : option Q;
  p95 : option Q;
  p99 : option Q
}.

(** [sorted[i]] *)
Definition at_ (sorted : list Q) (i : Z) : option Q :=
  if i <? 0 then None else sorted !! Z.to_nat i.

(** [(a, b) => a - b] *)
Definition ascending (a b : Q) : Q := (a - b)%Q.

(** [getStats(name)] *)
Definition getStats (name : string) (mc : MetricsCollector) : option Stats :=
  match mapGet (metrics mc) name with
  | None => None
  | Some values =>
      if (length values =? 0)%nat then None
      else
        let sorted := sort ascending values in
        let count := Z.of_nat (length sorted) in
        Some {| count := count;
                min := at_ sorted 0;
                max := at_ sorted (count - 1);
                avg := (fold_left Qplus sorted 0 / inject_Z count)%Q;
                p50 := at_ sorted (Qfloor (inject_Z count * (5 # 10)));
                p95 := at_ sorted (Qfloor (inject_Z count * (95 # 100)));
                p99 := at_ sorted (Qfloor (inject_Z count * (99 # 100))) |}
  end.

End Metrics.

(** ** Vocabulary for the fixed-window chunker *)

Module ChunkerSpec.
Import JsString JsValue Chunker.

(** The caller-supplied metadata binds none of the three computed names. *)
Definition reservedFree (additionalMetadata : gmap string value) : Prop :=
  additionalMetadata !! "chunkIndex" = None
  ∧ additionalMetadata !! "startChar" = None
  ∧ additionalMetadata !! "endChar" = None.

(** The chunk at position [i] of the output: non-empty content, which is the
    trimmed window [text.substring(startChar, endChar)], and [chunkIndex = i]. *)
Definition chunkOk (text : jsstring) (i : nat) (c : TextChunk) : Prop :=
  content c ≠ []
  ∧ metadata c !! "chunkIndex" = Some (JInt (Z.of_nat i))
  ∧ ∃ s e : Z,
      metadata c !! "startChar" = Some (JInt s)
      ∧ metadata c !! "endChar" = Some (JInt e)
      ∧ content c = trim (substring text s e).

Definition chunksOk (text : jsstring) (cs : list TextChunk) : Prop :=
  ∀ (i : nat) (c : TextChunk), cs !! i = Some c → chunkOk text i c.

Definition stateOk (text : jsstring) (st : LoopState) : Prop :=
  chunkIndex st = Z.of_nat (length (chunks st)) ∧ chunksOk text (chunks st).

(** Every start offset recorded in [cs] lies above [low]. *)
Fixpoint startsAbove (low : Z) (cs : list TextChunk) : Prop :=
  match cs with
  | [] => True
  | c :: rest =>
      (∃ s, metadata c !! "startChar" = Some (JInt s) ∧ low < s)
      ∧ startsAbove low rest
  end.

(** The start offsets recorded in [cs] increase strictly and stay below
    [bound]. *)
Fixpoint startsBelow (bound : Z) (cs : list TextChunk) : Prop :=
  match cs with
  | [] => True
  | c :: rest =>
      (∃ s, metadata c !! "startChar" = Some (JInt s)
            ∧ s < bound ∧ startsAbove s rest)
      ∧ startsBelow bound rest
  end.

Definition smallWindows : PartialChunkConfig :=
  mkPartialChunkConfig (Some 10) (Some 2) None.

(** The state after the first pass over ["ab   "]. *)
Definition stalled : LoopState :=
  mkLoopState 3 1 [mkTextChunk (js "ab") (chunkMetadata 0 0 5 ∅)].
End ChunkerSpec.

(** ** Vocabulary for the semantic chunker *)

Module SemanticChunkerSpec.
Import JsString JsValue Effect SemanticChunker.

(** Stand-ins for the external collaborators, to run the model on examples:
    sentences are the pieces between white space, the embedding of a
    sentence is the pair of its length and 1, and the square root is the
    identity. *)
Definition wordsAsSentences (text : jsstring) : list jsstring := splitWhitespace text.
Definition lengthEmbedding (s : jsstring) : option (list Q) :=
  Some [inject_Z (strlen s); 1%Q].
Definition noRoot (q : Q) : Q := q.

Definition invertedSizes : PartialSemanticChunkConfig :=
  mkPartialSemanticChunkConfig (Some 5) (Some 10) None None.

(** The embedding provider answers every sentence of [l] with a vector of
    [dim] numbers. *)
Definition embeddable (generateEmbedding : jsstring → option (list Q))
    (dim : nat) (l : list jsstring) : Prop :=
  Forall (λ s, ∃ v, generateEmbedding s = Some v ∧ length v = dim) l.
End SemanticChunkerSpec.

(** ** Vocabulary for hybrid search *)

Module VectorSearchSpec.
Import JsString JsValue Effect VectorSearch.

Definition keys {V} (m : JsMap V) : list string := m.*1.

(** What the occurrences of [ident] in one ranked list add to its score. *)
Fixpoint contribution (k : Z) (rankedList : list RankedResult) (ident : string) : Q :=
  match rankedList with
  | [] => 0
  | item :: rest =>
      ((if String.eqb (rid item) ident then 1 / inject_Z (k + rank item) else 0)
       + contribution k rest ident)%Q
  end.

(** The score of a chunk id after the fusion of the two stages. *)
Definition fusedScore (semanticResults : list SimilarChunk) (ftsResults : list FtsRow)
    (ident : string) : Q :=
  orZero (mapGet (reciprocalRankFusion
                    [rankSemantic semanticResults; rankFts ftsResults] RRF_K) ident).

(** The 0-based position of the first occurrence of [ident]. *)
Fixpoint positionOf (ident : string) (ids : list string) : option nat :=
  match ids with
  | [] => None
  | x :: rest => if String.eqb x ident then Some O else S <$> positionOf ident rest
  end.

(** [1 / (60 + rank)] for the 1-based rank of [ident] in a stage, and 0 for a
    stage that does not contain it. *)
Definition stageTerm (ids : list string) (ident : string) : Q :=
  match positionOf ident ids with
  | Some index => 1 / inject_Z (RRF_K + (Z.of_nat index + 1))
  | None => 0
  end.

(** A stage list with ranks counted from [offset + 1]. *)
Definition ranked {A} (getId : A → string) (getScore : A → Q)
    (offset : nat) (l : list A) : list RankedResult :=
  imap (λ index x, mkRankedResult (getId x) (Z.of_nat (offset + index) + 1)
                     (getScore x)) l.

Definition semanticIds (semanticResults : list SimilarChunk) : list string :=
  id <$> semanticResults.
Definition ftsIds (ftsResults : list FtsRow) : list string :=
  (λ row, id (chunk row)) <$> ftsResults.

Definition exampleChunk (ident : string) (sim : Q) : SimilarChunk :=
  mkSimilarChunk ident "doc-1" (js "text") None sim.

Definition exampleSemantic : list SimilarChunk :=
  [exampleChunk "a" (9 # 10); exampleChunk "b" (8 # 10); exampleChunk "c" (7 # 10)].

Definition exampleFts : list FtsRow :=
  [mkFtsRow (exampleChunk "a" (9 # 10)) 1; mkFtsRow (exampleChunk "z" (1 # 10)) 1;
   mkFtsRow (exampleChunk "c" (7 # 10)) 1].

(** [l] is in descending order of [f]: an earlier element never has the
    smaller value. *)
Definition descending {A} (f : A → Q) (l : list A) : Prop :=
  ∀ (i j : nat) (a b : A),
    (i < j)%nat → l !! i = Some a → l !! j = Some b → (f b <= f a)%Q.

(** The comparison function of a sort in descending order of [f]. *)
Definition byValue {A} (f : A → Q) (a b : A) : Q := (f b - f a)%Q.

Definition keyedById (chunkMap : JsMap SimilarChunk) : Prop :=
  ∀ k c, mapGet chunkMap k = Some c → id c = k.

(** The contract of the spec on a result [out], for the stage lists
    [semanticResults] and [ftsResults]: at most [limit] chunks, no chunk id
    twice, descending fused score. *)
Definition searchContract (limit : nat) (semanticResults : list SimilarChunk)
    (ftsResults : list FtsRow) (out : list SimilarChunk) : Prop :=
  (length out ≤ limit)%nat
  ∧ NoDup (id <$> out)
  ∧ descending (λ c, fusedScore semanticResults ftsResults (id c)) out.

(** The queries that the two searches issue. *)
Definition unscopedVectorQuery (emb : list Q) (limit : nat) (minSim : Q) : Query :=
  VectorQuery emb None minSim (limit * 2).
Definition unscopedTextQuery (emb : list Q) (text : jsstring) (limit : nat) : Query :=
  TextQuery emb (WhereLike (likeConditionsOf (keywordsOf text))) None (limit * 2).
Definition scopedVectorQuery (emb : list Q) (docs : list string) (limit : nat)
    (minSim : Q) : Query :=
  VectorQuery emb (Some docs) minSim (limit * 2).
Definition scopedTextQuery (emb : list Q) (text : jsstring) (docs : list string)
    (limit : nat) : Query :=
  TextQuery emb (WhereTsQuery (tsQueryOf text)) (Some docs) (limit * 2).

(** The keyword-stage list that enters the fusion: empty when the stage is
    skipped. *)
Definition lexicalStage (tokens : list jsstring) (ftsResults : list FtsRow)
    : list FtsRow :=
  match tokens with
  | [] => []
  | _ => ftsResults
  end.

(** The rows of a vector query carry pairwise different chunk ids ([id] is
    the primary key of the table the query selects from). *)
Definition uniqueIds (runVectorQuery : Query → option (list SimilarChunk)) : Prop :=
  ∀ q rows, runVectorQuery q = Some rows → NoDup (semanticIds rows).

(** A database for examples: every vector query returns [exampleSemantic],
    every keyword query [exampleFts]. *)
Definition exampleVectorDb (_ : Query) : option (list SimilarChunk) := Some exampleSemantic.
Definition exampleTextDb (_ : Query) : option (list FtsRow) := Some exampleFts.
End VectorSearchSpec.

(** ** Vocabulary for the reranker *)

Module RerankSpec.
Import JsString JsValue Effect VectorSearch Rerank.

(** The request that [rerankChunks] sends when it has a key. *)
Definition requestOf (env : Environment) (query : jsstring)
    (chunks : list SimilarChunk) (topN : nat) : RerankRequest :=
  mkRerankRequest (default [] (COHERE_API_KEY env)) RERANK_MODEL query
    (VectorSearch.content <$> chunks) topN false.

(** The credentials are missing, or the external call fails: the client
    library does not load, the service rejects the request, or its answer
    names a chunk that is not there. *)
Definition unavailable (env : Environment) (query : jsstring)
    (chunks : list SimilarChunk) (topN : nat) : Prop :=
  keyMissing (COHERE_API_KEY env) = true
  ∨ cohereInstalled env = false
  ∨ rerankService env (requestOf env query chunks topN) = None
  ∨ ∃ results e,
      rerankService env (requestOf env query chunks topN) = Some results
      ∧ mapResults chunks results = inl e.

Definition noKey : Environment := mkEnvironment true None (λ _, None).
Definition serviceDown : Environment :=
  mkEnvironment true (Some (js "key")) (λ _, None).
End RerankSpec.

(** ** Vocabulary for the rest of the chunker *)

Module ChunkerToolsSpec.
Import JsString JsValue Chunker ChunkerSpec ChunkerTools.

(** The start offset recorded in a chunk. *)
Definition startOf (c : TextChunk) (s : Z) : Prop :=
  metadata c !! "startChar" = Some (JInt s).

(** No code unit of [s] is white space. *)
Definition solid (s : jsstring) : Prop :=
  Forall (λ c, isWhiteSpace c = false) s.




End ChunkerToolsSpec.

(** ** More vocabulary for hybrid search *)

Module VectorSearchMoreSpec.
Import JsString JsValue Effect VectorSearch VectorSearchSpec.

(** The score that [reciprocalRankFusion] stores for [ident], 0 when there
    is none. *)
Definition rrfScore (rankedLists : list (list RankedResult)) (k : Z)
    (ident : string) : Q :=
  orZero (mapGet (reciprocalRankFusion rankedLists k) ident).

(** The reciprocal rank of the first entry of [ident] in a ranked list, 0
    when the list has none. *)
Fixpoint termOf (k : Z) (rankedList : list RankedResult) (ident : string) : Q :=
  match rankedList with
  | [] => 0
  | item :: rest =>
      if String.eqb (rid item) ident then (1 / inject_Z (k + rank item))%Q
      else termOf k rest ident
  end.

(** No reciprocal of the list is a division by zero or negative. *)
Definition positiveRanks (k : Z) (rankedList : list RankedResult) : Prop :=
  Forall (λ item, 0 < k + rank item) rankedList.

(** In the stage with ids [ids], [x] is placed no worse than [y]: [y] is
    absent, or both are present and [x] comes first or at the same place. *)
Definition noWorse (ids : list string) (x y : string) : Prop :=
  match positionOf x ids, positionOf y ids with
  | Some i, Some j => (i ≤ j)%nat
  | _, None => True
  | None, Some _ => False
  end.

(** [a] stands before [b] in [l]. *)
Definition before {A} (a b : A) (l : list A) : Prop := ([a; b] `sublist_of` l).

(** The chunk stored for an id: a row of the vector stage, or else, for an
    id that the vector stage does not have, a row of the keyword stage. *)
Definition fromStages (sem : list SimilarChunk) (fts : list FtsRow)
    (c : SimilarChunk) : Prop :=
  c ∈ sem ∨ ((id c ∉ semanticIds sem) ∧ ∃ row, row ∈ fts ∧ chunk row = c).

(** The number of single quotes in a string. *)
Definition quotes (s : jsstring) : nat := length (List.filter (N.eqb 39) s).

(** A database whose keyword query fails, and one that is down. *)
Definition failingTextDb (_ : Query) : option (list FtsRow) := None.
Definition failingVectorDb (_ : Query) : option (list SimilarChunk) := None.

End VectorSearchMoreSpec.

(** ** More vocabulary for the reranker *)

Module RerankMoreSpec.
Import JsString JsValue Effect VectorSearch VectorSearchSpec Rerank RerankSpec.

(** The chunk [c] with the score [score] of the rerank service: every field
    of [c] but [similarity], which is overwritten. *)
Definition rescored (c : SimilarChunk) (score : Q) : RerankedChunk :=
  mkRerankedChunk
    (mkSimilarChunk (id c) (documentId c) (VectorSearch.content c)
       (VectorSearch.metadata c) score)
    score (similarity c).

(** Every index of the answer names a chunk. *)
Definition inRange (chunks : list SimilarChunk) (results : list RerankResult) : Prop :=
  Forall (λ r, 0 ≤ index r < Z.of_nat (length chunks)) results.

(** A service that prefers the third chunk to the first and names no
    other. *)
Definition thirdThenFirst : Environment :=
  mkEnvironment true (Some (js "key"))
    (λ _, Some [mkRerankResult 2 (9 # 10); mkRerankResult 0 (1 # 2)]).
End RerankMoreSpec.

(** ** More vocabulary for the semantic chunker *)

Module SemanticChunkerMoreSpec.
Import JsString JsValue Effect SemanticChunker SemanticChunkerSpec.

(** The sum of the lengths of the sentences of a group. *)
Definition totalLength (group : list jsstring) : Z :=
  foldr (λ sentence n, strlen sentence + n) 0 group.

(** The chunks [out] are made of the sentence groups [groups], one chunk per
    group and in the same order: no group is empty; a group of more than one
    sentence has at most [limit] characters in its sentences; the chunk of
    the group at position [i] holds its sentences joined by one space and
    trimmed, [chunkIndex = i], the number of its sentences as
    [sentenceCount], and an [avgSimilarity] that satisfies [P]. *)
Definition grouped (P : Q → Prop) (limit : Z) (additionalMetadata : gmap string value)
    (groups : list (list jsstring)) (out : list SemanticChunk) : Prop :=
  length groups = length out
  ∧ ∀ i group, groups !! i = Some group →
      group ≠ []
      ∧ ((1 < length group)%nat → totalLength group ≤ limit)
      ∧ ∃ avgSimilarity,
          P avgSimilarity
          ∧ out !! i
            = Some (mkSemanticChunk (trim (join (js " ") group))
                      (chunkMetadata (Z.of_nat i) (Z.of_nat (length group))
                         avgSimilarity additionalMetadata)).

Definition anyScore (q : Q) : Prop := True.
Definition zeroScore (q : Q) : Prop := q = 0%Q.

(** The state of the grouping loop of [semanticChunk] after the sentences
    [seen]: the chunks pushed so far and the sentences being collected. *)
Definition groupedSoFar (cfg : SemanticChunkConfig)
    (additionalMetadata : gmap string value)
    (seen : list jsstring) (st : GroupState) : Prop :=
  ∃ groups,
    grouped anyScore (maxChunkSize cfg) additionalMetadata groups (chunks st)
    ∧ concat groups ++ currentChunk st = seen
    ∧ chunkIndex st = Z.of_nat (length (chunks st))
    ∧ currentSize st = totalLength (currentChunk st)
    ∧ currentChunk st ≠ []
    ∧ ((1 < length (currentChunk st))%nat
       → totalLength (currentChunk st) ≤ maxChunkSize cfg).

(** An embedding provider that fails on the sentence [bad]. *)
Definition failingOn (bad : jsstring) (s : jsstring) : option (list Q) :=
  if bool_decide (s = bad) then None else lengthEmbedding s.

(** [n] times the word [w], each followed by a space. *)
Definition wordsOf (n : nat) (w : jsstring) : jsstring :=
  concat (replicate n (w ++ js " ")).
End SemanticChunkerMoreSpec.

(** ** Vocabulary for [hybridChunk] *)

Module HybridChunkerSpec.
Import JsString JsValue Effect SemanticChunker SemanticChunkerSpec.
Import SemanticChunkerMoreSpec HybridChunker.

(** The state of the fallback loop after the sentences [seen]. *)
Definition collectedSoFar (additionalMetadata : gmap string value)
    (seen : list jsstring) (st : FallbackState) : Prop :=
  ∃ groups,
    grouped zeroScore maxSize additionalMetadata groups (chunks st)
    ∧ concat groups ++ currentChunk st = seen
    ∧ chunkIndex st = Z.of_nat (length (chunks st))
    ∧ currentSize st = totalLength (currentChunk st)
    ∧ ((1 < length (currentChunk st))%nat
       → totalLength (currentChunk st) ≤ maxSize).
End HybridChunkerSpec.

(** ** Vocabulary for retry and circuit breaker *)

Module ErrorHandlingSpec.
Import Effect ErrorHandling.

Definition invocations (log : list Call) : nat := length (List.filter isInvoke log).
Definition sleeps (log : list Call) : nat := length (List.filter isSleep log).

(** A wait of [withRetry] is the initial delay or at most [maxDelay]. *)
Definition boundedDelay {E} (config : RetryOptions (E := E)) (ms : Q) : Prop :=
  ms = initialDelay config ∨ (ms <= maxDelay config)%Q.

Definition boundedSleep {E} (config : RetryOptions (E := E)) (c : Call) : Prop :=
  match c with
  | Invoke => True
  | Sleep ms => boundedDelay config ms
  end.

(** The invocation number [j] of [fn] fails with an error that the
    configuration lets retry. *)
Definition failsRetryably {E T} (config : RetryOptions (E := E))
    (fn : nat → E + T) (j : nat) : Prop :=
  ∃ e, fn j = inl e ∧ isRetryable config e = true.

(** The invocation number [k] ends the loop: it succeeds, it fails with an
    error that is not retried, or it is the last attempt. *)
Definition decisive {E T} (config : RetryOptions (E := E))
    (fn : nat → E + T) (k : nat) : Prop :=
  (∃ v, fn k = inr v)
  ∨ (∃ e, fn k = inl e ∧ isRetryable config e = false)
  ∨ Z.of_nat k = maxRetries config.

(** An event in the life of a circuit breaker. *)
Inductive Event (E T : Type) : Type :=
  | Execute (now failedAt : Z) (fn : E + T)
  | Reset.
Arguments Execute {E T}.
Arguments Reset {E T}.

Definition step {E T} (cb : CircuitBreaker) (ev : Event E T) : CircuitBreaker :=
  match ev with
  | Execute now failedAt fn => after (execute now failedAt fn cb)
  | Reset => reset cb
  end.

Definition history {E T} (threshold timeout : Z) (events : list (Event E T))
    : CircuitBreaker :=
  fold_left step events (newCircuitBreaker threshold timeout).

(** What holds of a breaker between two calls. *)
Definition settled (cb : CircuitBreaker) : Prop :=
  (state cb = Open ↔ threshold cb ≤ failures cb)
  ∧ state cb ≠ HalfOpen
  ∧ (state cb = Open → is_Some (lastFailureTime cb))
  ∧ 0 ≤ failures cb.

(** Examples: an operation that fails twice with a retryable error and then
    succeeds. *)
Definition flaky (n : nat) : bool + Z :=
  if (n <? 2)%nat then inl true else inr 42.
Definition retryAll : PartialRetryOptions (E := bool) :=
  mkPartialRetryOptions None None None None (Some (Some (λ e, e))).
Definition noJitter (attempt : Z) : Q := 1 # 2.
End ErrorHandlingSpec.

(** ** Vocabulary for rate limiting *)

Module RateLimitSpec.
Import RateLimit.

(** The results of checking [identifier] at each of [times], in order. *)
Fixpoint checks (times : list Z) (identifier : string) (config : RateLimitConfig)
    (store : gmap string RateLimitEntry) : list CheckResult :=
  match times with
  | [] => []
  | now :: rest =>
      let '(result, store') := check now identifier config store in
      result :: checks rest identifier config store'
  end.

(** [identifier] has no running window at [now]. *)
Definition fresh (now : Z) (identifier : string) (store : gmap string RateLimitEntry) : Prop :=
  match store !! identifier with
  | Some entry => expired now entry = true
  | None => True
  end.

Definition chat : RateLimitConfig := mkRateLimitConfig 60000 20.
End RateLimitSpec.

(** ** Vocabulary for embedding in batches *)

Module EmbeddingsSpec.
Import JsString Effect Embeddings.

(** The calls for the batches [batches]: one request each, with a pause
    between two of them and none at the end. *)
Fixpoint withPauses (batches : list (list jsstring)) : list Call :=
  match batches with
  | [] => []
  | [batch] => [EmbedMany batch]
  | batch :: rest => EmbedMany batch :: Delay BATCH_DELAY_MS :: withPauses rest
  end.

Definition isRequest (c : Call) : bool :=
  match c with EmbedMany _ => true | Delay _ => false end.

Definition requests (log : list Call) : nat := length (List.filter isRequest log).

(** A provider that answers every text with the vector of its length. *)
Definition lengths (values : list jsstring) : option (list (list Q)) :=
  Some ((λ s, [inject_Z (strlen s)]) <$> values).
End EmbeddingsSpec.

(** ** Vocabulary for the metrics *)

Module MetricsSpec.
Import VectorSearch Metrics.

(** The collector after the calls [recordDuration(name, durationMs)] for the
    pairs of [events], in order. *)
Definition afterRecording (events : list (string * Q)) : MetricsCollector :=
  fold_left (λ mc event, recordDuration (fst event) (snd event) mc) events
    newMetricsCollector.

(** The durations recorded under [name], in order. *)
Definition recorded (name : string) (events : list (string * Q)) : list Q :=
  snd <$> List.filter (λ event, String.eqb (fst event) name) events.
End MetricsSpec.

(** ** Facts about strings *)

Module JsStringProps.
Import JsString.

Lemma strlen_zero (s : jsstring) : (strlen s =? 0) = true ↔ s = [].
Proof. unfold strlen. destruct s; simpl; split; done. Qed.

Lemma strlen_pos (s : jsstring) : (0 <? strlen s) = true ↔ s ≠ [].
Proof. unfold strlen. destruct s; simpl; split; done. Qed.

Lemma trimStart_nil (s : jsstring) :
  trimStart s = [] → Forall (λ c, isWhiteSpace c = true) s.
Proof.
  induction s as [|c s IH]; simpl; [constructor|].
  destruct (isWhiteSpace c) eqn:Hw; [|done]. intros H. constructor; auto.
Qed.

Lemma trimStart_head (s : jsstring) c r :
  trimStart s = c :: r → isWhiteSpace c = false.
Proof.
  induction s as [|c' s IH]; simpl; [done|].
  destruct (isWhiteSpace c') eqn:Hw; [exact IH|]. by intros [= <- _].
Qed.

Lemma trimStart_all_ws (s : jsstring) :
  Forall (λ c, isWhiteSpace c = true) s → trimStart s = [].
Proof. induction 1 as [|c s Hc _ IH]; simpl; [done|]. by rewrite Hc. Qed.

(** A string trims to the empty string exactly when it is blank. *)
Lemma trim_nil (s : jsstring) :
  trim s = [] ↔ Forall (λ c, isWhiteSpace c = true) s.
Proof.
  unfold trim, trimEnd. split.
  - intros H. apply (f_equal (@rev N)) in H. rewrite rev_involutive in H.
    simpl in H. apply trimStart_nil, Forall_rev in H.
    rewrite rev_involutive in H.
    destruct (trimStart s) as [|c r] eqn:E; [by apply trimStart_nil|].
    apply trimStart_head in E. apply Forall_inv in H. congruence.
  - intros H. by rewrite (trimStart_all_ws s H).
Qed.

End JsStringProps.

(** ** Properties of the fixed-window chunker *)

Module ChunkerProps.
Import JsString JsStringProps JsValue Chunker ChunkerSpec.

Lemma chunkMetadata_chunkIndex ci s e (m : gmap string value) :
  reservedFree m → chunkMetadata ci s e m !! "chunkIndex" = Some (JInt ci).
Proof.
  intros (Hc & _ & _). unfold chunkMetadata.
  rewrite lookup_union_r by exact Hc. by simplify_map_eq.
Qed.

Lemma chunkMetadata_startChar ci s e (m : gmap string value) :
  reservedFree m → chunkMetadata ci s e m !! "startChar" = Some (JInt s).
Proof.
  intros (_ & Hs & _). unfold chunkMetadata.
  rewrite lookup_union_r by exact Hs. by simplify_map_eq.
Qed.

Lemma chunkMetadata_endChar ci s e (m : gmap string value) :
  reservedFree m → chunkMetadata ci s e m !! "endChar" = Some (JInt e).
Proof.
  intros (_ & _ & He). unfold chunkMetadata.
  rewrite lookup_union_r by exact He. by simplify_map_eq.
Qed.

Lemma reservedFree_empty : reservedFree ∅.
Proof. repeat split; apply lookup_empty. Qed.

Lemma numLeValue_JInt n z : numLeValue n (Some (JInt z)) = (n <=? z).
Proof.
  unfold numLeValue, JInt, Qle_bool, inject_Z; simpl.
  by rewrite !Z.mul_1_r.
Qed.

Lemma JInt_inj a b : JInt a = JInt b → a = b.
Proof. unfold JInt, inject_Z. congruence. Qed.

(** *** What every emitted chunk looks like *)

Lemma stateOk_initial text : stateOk text initialState.
Proof. split; [reflexivity | intros i c H; discriminate H]. Qed.

Lemma iteration_chunks text cfg m st :
  chunks (iteration text cfg m st) = chunks st
  ∨ ∃ c, chunks (iteration text cfg m st) = chunks st ++ [c]
         ∧ chunkIndex (iteration text cfg m st) = chunkIndex st + 1
         ∧ content c ≠ []
         ∧ content c = trim (substring text (startIndex st) (windowEnd text cfg (startIndex st)))
         ∧ metadata c = chunkMetadata (chunkIndex st) (startIndex st)
                          (windowEnd text cfg (startIndex st)) m.
Proof.
  unfold iteration.
  destruct (0 <? strlen _) eqn:Hlen; simpl.
  - right. eexists. repeat split; simpl; eauto. by apply strlen_pos.
  - by left.
Qed.

Lemma iteration_chunkIndex_same text cfg m st :
  chunks (iteration text cfg m st) = chunks st →
  chunkIndex (iteration text cfg m st) = chunkIndex st.
Proof.
  unfold iteration.
  destruct (0 <? strlen _) eqn:Hlen; simpl; [|done].
  intros H. apply (f_equal length) in H. rewrite length_app in H. simpl in H. lia.
Qed.

Lemma stateOk_iteration text cfg m st :
  reservedFree m → stateOk text st → stateOk text (iteration text cfg m st).
Proof.
  intros Hm [Hidx Hcs].
  destruct (iteration_chunks text cfg m st) as [Hsame | (c & Happ & Hci & Hne & Hct & Hmd)].
  - split.
    + rewrite iteration_chunkIndex_same, Hsame; done.
    + by rewrite Hsame.
  - split.
    + rewrite Hci, Happ, length_app, Hidx. simpl. lia.
    + rewrite Happ. intros i c' Hi.
      apply lookup_app_Some in Hi as [Hi | [Hge Hi]]; [by apply Hcs|].
      apply list_lookup_singleton_Some in Hi as [Hi ->].
      assert (i = length (chunks st)) as -> by lia.
      repeat split; [done | |].
      * rewrite Hmd, chunkMetadata_chunkIndex by done. by rewrite Hidx.
      * exists (startIndex st), (windowEnd text cfg (startIndex st)).
        rewrite Hmd, chunkMetadata_startChar, chunkMetadata_endChar by done.
        done.
Qed.

Lemma stateOk_run fuel text cfg m st :
  reservedFree m → stateOk text st → stateOk text (run fuel text cfg m st).
Proof.
  intros Hm. revert st.
  induction fuel as [|fuel IH]; intros st Hst; simpl;
    destruct (loopGuard text st); auto using stateOk_iteration.
Qed.

(** *** Progress of the window *)

Lemma bestSplitPoint_advances cs start window seps :
  1 ≤ cs →
  bestSplitPoint cs start window seps = -1
  ∨ start < bestSplitPoint cs start window seps.
Proof.
  intros Hcs. induction seps as [|sep seps IH]; simpl; [by left|].
  destruct sep as [|c sep]; [exact IH|].
  destruct (cs <? 2 * lastIndexOf window (c :: sep)) eqn:Hlt; [|exact IH].
  right. apply Z.ltb_lt in Hlt. unfold strlen. lia.
Qed.

Lemma windowEnd_advances text cfg start :
  1 ≤ chunkSize cfg → start < strlen text → start < windowEnd text cfg start.
Proof.
  intros Hcs Hlt. unfold windowEnd.
  destruct (_ <? strlen text); [|lia].
  destruct (bestSplitPoint_advances (chunkSize cfg) start
              (substring text start (Z.min (start + chunkSize cfg) (strlen text)))
              (separators cfg) Hcs) as [-> | Hadv]; simpl; [lia|].
  destruct (_ =? -1) eqn:He; [lia | exact Hadv].
Qed.

Lemma startsAbove_snoc low cs c s :
  startsAbove low cs → metadata c !! "startChar" = Some (JInt s) → low < s →
  startsAbove low (cs ++ [c]).
Proof.
  induction cs as [|c' cs IH]; simpl; [eauto|].
  intros [H1 H2] Hc Hlt. split; [exact H1 | by apply IH].
Qed.

Lemma startsBelow_weaken b b' cs : b ≤ b' → startsBelow b cs → startsBelow b' cs.
Proof.
  intros Hle. induction cs as [|c cs IH]; simpl; [done|].
  intros [(s & Hs & Hlt & Hab) Hrest]. split; [|by apply IH].
  exists s. repeat split; [done | lia | done].
Qed.

Lemma startsBelow_snoc b b' cs c :
  startsBelow b cs → metadata c !! "startChar" = Some (JInt b) → b < b' →
  startsBelow b' (cs ++ [c]).
Proof.
  induction cs as [|c' cs IH]; simpl.
  - intros _ Hc Hlt. split; [|done]. exists b. by repeat split.
  - intros [(s & Hs & Hlt & Hab) Hrest] Hc Hlt'. split; [|by apply IH].
    exists s. repeat split; [done | lia |]. by apply startsAbove_snoc with b.
Qed.

Lemma startsBelow_last b cs c :
  startsBelow b cs → last cs = Some c →
  ∃ s, metadata c !! "startChar" = Some (JInt s) ∧ s < b.
Proof.
  induction cs as [|c' cs IH]; [done|].
  destruct cs as [|c'' cs].
  - simpl. intros [(s & Hs & Hlt & _) _] [= <-]. eauto.
  - intros [_ Hrest] Hlast. apply IH; [exact Hrest | exact Hlast].
Qed.

Lemma startsAbove_last low cs c s :
  startsAbove low cs → last cs = Some c →
  metadata c !! "startChar" = Some (JInt s) → low < s.
Proof.
  induction cs as [|c' cs IH]; [done|].
  destruct cs as [|c'' cs].
  - simpl. intros [(s' & Hs' & Hlt) _] [= <-] Hs.
    rewrite Hs in Hs'. apply (inj Some) in Hs'. apply JInt_inj in Hs'. lia.
  - intros [_ Hrest] Hlast. apply IH; [exact Hrest | exact Hlast].
Qed.

(** A bound above the last recorded start offset is above all of them. *)
Lemma startsBelow_rebound b b' cs c s :
  startsBelow b cs → last cs = Some c →
  metadata c !! "startChar" = Some (JInt s) → s < b' →
  startsBelow b' cs.
Proof.
  induction cs as [|c' cs IH]; [done|].
  destruct cs as [|c'' cs].
  - simpl. intros [(s' & Hs' & Hlt & _) _] [= <-] Hs Hb'. split; [|done].
    exists s'. split; [done|]. split; [|done].
    rewrite Hs in Hs'. apply (inj Some) in Hs'. apply JInt_inj in Hs'. lia.
  - intros [(s' & Hs' & Hlt & Hab) Hrest] Hlast Hs Hb'.
    split; [|by apply IH].
    exists s'. split; [done|]. split; [|done].
    pose proof (startsAbove_last _ _ _ _ Hab Hlast Hs). lia.
Qed.

(** One pass of the loop keeps the recorded start offsets increasing, and
    leaves the next start above all of them. *)
Lemma startsBelow_iteration text cfg m st :
  reservedFree m → 1 ≤ chunkSize cfg → loopGuard text st = true →
  startsBelow (startIndex st) (chunks st) →
  startsBelow (startIndex (iteration text cfg m st))
              (chunks (iteration text cfg m st)).
Proof.
  intros Hm Hcs Hguard Hinv.
  apply Z.ltb_lt in Hguard.
  pose proof (windowEnd_advances text cfg (startIndex st) Hcs Hguard) as Hadv.
  unfold iteration.
  set (endIndex := windowEnd text cfg (startIndex st)) in *.
  destruct (0 <? strlen _); simpl.
  - rewrite last_snoc. simpl.
    rewrite chunkMetadata_startChar, numLeValue_JInt by done.
    destruct (_ <=? _) eqn:Hle.
    + eapply startsBelow_snoc; [exact Hinv | by apply chunkMetadata_startChar | lia].
    + apply Z.leb_gt in Hle.
      eapply startsBelow_snoc; [exact Hinv | by apply chunkMetadata_startChar | lia].
  - destruct (last (chunks st)) as [lc|] eqn:Hlast.
    + destruct (startsBelow_last _ _ _ Hinv Hlast) as (s & Hs & Hlt).
      rewrite Hs, numLeValue_JInt.
      destruct (_ <=? _) eqn:Hle.
      * eapply startsBelow_weaken; [|exact Hinv]. lia.
      * apply Z.leb_gt in Hle.
        eapply startsBelow_rebound; [exact Hinv | exact Hlast | exact Hs | lia].
    + apply last_None in Hlast. by rewrite Hlast.
Qed.

Lemma startsBelow_run fuel text cfg m st :
  reservedFree m → 1 ≤ chunkSize cfg →
  startsBelow (startIndex st) (chunks st) →
  startsBelow (startIndex (run fuel text cfg m st))
              (chunks (run fuel text cfg m st)).
Proof.
  intros Hm Hcs. revert st.
  induction fuel as [|fuel IH]; intros st Hst; simpl;
    destruct (loopGuard text st) eqn:Hg; auto using startsBelow_iteration.
Qed.

(** *** The emitted chunks *)

Lemma chunkText_Some fuel text config m out :
  chunkText fuel text config m = Some out →
  out = [] ∨ out = chunks (run fuel text (resolveConfig config) m initialState).
Proof.
  unfold chunkText.
  destruct (_ || _); [intros [= <-]; by left|].
  destruct (loopGuard _ _); [done|]. intros [= <-]. by right.
Qed.

(** C10. Every chunk that [chunkText] has pushed, after any number of passes
    of its loop and so in particular every chunk of the sequence it returns,
    has non-empty content, which is the trimmed window
    [text.substring(startChar, endChar)], and carries as [chunkIndex] its own
    position in the sequence, so that the indices read 0, 1, ..., n-1; a
    window that trims to the empty string pushes nothing and leaves the
    running index alone. The caller's [additionalMetadata] is taken not to
    bind the names [chunkIndex], [startChar] and [endChar]. The property
    holds for every chunk size, in particular for [chunkSize >= 1]. *)
Theorem chunkText_chunks_wellformed
    (fuel : nat) (text : jsstring) (config : PartialChunkConfig)
    (additionalMetadata : gmap string value) :
  reservedFree additionalMetadata →
  let cfg := resolveConfig config in
  chunksOk text (chunks (run fuel text cfg additionalMetadata initialState))
  ∧ (∀ out, chunkText fuel text config additionalMetadata = Some out →
            chunksOk text out)
  ∧ (∀ st, trim (substring text (startIndex st) (windowEnd text cfg (startIndex st))) = [] →
           chunks (iteration text cfg additionalMetadata st) = chunks st
           ∧ chunkIndex (iteration text cfg additionalMetadata st) = chunkIndex st).
Proof.
  intros Hm cfg.
  assert (chunksOk text (chunks (run fuel text cfg additionalMetadata initialState))) as Hrun.
  { apply stateOk_run; [exact Hm | apply stateOk_initial]. }
  split; [exact Hrun|]. split.
  - intros out Hout. apply chunkText_Some in Hout as [-> | ->]; [|exact Hrun].
    intros i c Hi. discriminate Hi.
  - intros st Hempty. unfold iteration. rewrite Hempty. by simpl.
Qed.

Lemma chunkText_chunks_wellformed_witness :
  reservedFree ∅
  ∧ option_map (List.map content)
      (chunkText 9 (js "hello world, this is a test")
         (mkPartialChunkConfig (Some 10) (Some 2) None) ∅)
    = Some [js "hello worl"; js "rld, this"; js "s is a"; js "a test"; js "st"]
  ∧ ∃ out, chunkText 9 (js "hello world, this is a test")
             (mkPartialChunkConfig (Some 10) (Some 2) None) ∅ = Some out
           ∧ chunksOk (js "hello world, this is a test") out.
Proof.
  split; [exact reservedFree_empty|]. split; [vm_compute; reflexivity|].
  destruct (chunkText 9 (js "hello world, this is a test")
              (mkPartialChunkConfig (Some 10) (Some 2) None) ∅) as [out|] eqn:Hout.
  - exists out. split; [reflexivity|].
    exact (proj1 (proj2 (chunkText_chunks_wellformed 9 (js "hello world, this is a test")
                    (mkPartialChunkConfig (Some 10) (Some 2) None) ∅ reservedFree_empty))
             out Hout).
  - vm_compute in Hout. discriminate Hout.
Defined.

(** The start offsets of the pushed chunks increase strictly, whatever the
    number of passes: the half of the progress property that the loop keeps. *)
Lemma chunkText_startChar_increasing fuel text config m :
  reservedFree m → 1 ≤ chunkSize (resolveConfig config) →
  let final := run fuel text (resolveConfig config) m initialState in
  startsBelow (startIndex final) (chunks final).
Proof.
  intros Hm Hcs. apply startsBelow_run; [exact Hm | exact Hcs | exact I].
Qed.

(** *** The end of the text *)

(** The window that reaches the end of the text does not end the loop: the
    next start is [text.length - chunkOverlap], and the guard of lines 91-94
    compares it with the start of the chunk pushed last, not with the start
    of the window just read. *)

Lemma stalled_reached :
  iteration (js "ab   ") (resolveConfig smallWindows) ∅ initialState = stalled.
Proof. vm_compute. reflexivity. Qed.

Lemma run_fixed fuel text cfg m st :
  iteration text cfg m st = st → run fuel text cfg m st = st.
Proof.
  intros Hfix. induction fuel as [|fuel IH]; simpl;
    destruct (loopGuard text st); try done. by rewrite Hfix.
Qed.

(** C7, at [chunkText("ab   ", {chunkSize: 10, chunkOverlap: 2})]: the second
    pass of the loop reads the window [3, 5), which trims to the empty string,
    and leaves [startIndex] at 3 and the whole loop state as it was; the loop
    guard [3 < 5] still holds, so no number of passes ends the loop. *)
Theorem chunkText_start_not_advanced :
  1 ≤ chunkSize (resolveConfig smallWindows)
  ∧ loopGuard (js "ab   ") stalled = true
  ∧ iteration (js "ab   ") (resolveConfig smallWindows) ∅ stalled = stalled
  ∧ ∀ fuel, chunkText fuel (js "ab   ") smallWindows ∅ = None.
Proof.
  assert (iteration (js "ab   ") (resolveConfig smallWindows) ∅ stalled = stalled)
    as Hfix by (vm_compute; reflexivity).
  split; [done|]. split; [reflexivity|]. split; [exact Hfix|].
  intros [|fuel]; [reflexivity|].
  unfold chunkText.
  change ((strlen (js "ab   ") =? 0) || (strlen (trim (js "ab   ")) =? 0)) with false.
  cbv iota. simpl run.
  change (loopGuard (js "ab   ") initialState) with true. cbv iota.
  rewrite stalled_reached, run_fixed by exact Hfix. reflexivity.
Qed.

(** The same with the default configuration (windows of 1000 code units,
    overlap 200): one letter followed by 200 spaces. *)
Lemma chunkText_default_config_diverges :
  ∀ fuel, chunkText fuel (js "a" ++ repeat 32%N 200) noOverrides ∅ = None.
Proof.
  set (text := js "a" ++ repeat 32%N 200).
  set (st := mkLoopState 1 1 [mkTextChunk (js "a") (chunkMetadata 0 0 201 ∅)]).
  assert (iteration text (resolveConfig noOverrides) ∅ initialState = st)
    as Hfirst by (vm_compute; reflexivity).
  assert (iteration text (resolveConfig noOverrides) ∅ st = st)
    as Hfix by (vm_compute; reflexivity).
  intros [|fuel]; [vm_compute; reflexivity|].
  unfold chunkText.
  change ((strlen text =? 0) || (strlen (trim text) =? 0)) with false.
  cbv iota. simpl run.
  change (loopGuard text initialState) with true. cbv iota.
  rewrite Hfirst, run_fixed by exact Hfix. reflexivity.
Qed.

(** An empty or blank text gives the empty sequence. *)
Lemma chunkText_blank fuel text config m :
  trim text = [] → chunkText fuel text config m = Some [].
Proof. intros Hb. unfold chunkText. rewrite Hb. by rewrite orb_true_r. Qed.

(** C3, at [chunkText("abcdef", {chunkSize: 10, chunkOverlap: 2})]: the text
    is shorter than a window, and the result has two chunks, the whole text
    and once more its last two code units. *)
Theorem chunkText_short_text_two_chunks :
  strlen (js "abcdef") < chunkSize (resolveConfig smallWindows)
  ∧ chunkText 2 (js "abcdef") smallWindows ∅
    = Some [mkTextChunk (js "abcdef") (chunkMetadata 0 0 6 ∅);
            mkTextChunk (js "ef") (chunkMetadata 1 4 6 ∅)].
Proof. split; [done | vm_compute; reflexivity]. Qed.

(** The same with the default configuration: 300 letters give the whole text
    and once more its last 200 letters. *)
Lemma chunkText_default_config_two_chunks :
  option_map (List.map (λ c, length (content c)))
    (chunkText 2 (repeat 97%N 300) noOverrides ∅) = Some [300%nat; 200%nat].
Proof. vm_compute. reflexivity. Qed.

Lemma run_exit fuel text cfg m st :
  loopGuard text st = false → run fuel text cfg m st = st.
Proof. intros Hexit. destruct fuel; simpl; by rewrite Hexit. Qed.

Lemma substring_whole (s : jsstring) : substring s 0 (strlen s) = s.
Proof.
  unfold substring, clampIndex, strlen.
  replace (Z.max 0 (Z.min 0 (Z.of_nat (length s)))) with 0 by lia.
  replace (Z.max 0 (Z.min (Z.of_nat (length s)) (Z.of_nat (length s))))
    with (Z.of_nat (length s)) by lia.
  replace (Z.min 0 (Z.of_nat (length s))) with 0 by lia.
  replace (Z.max 0 (Z.of_nat (length s)) - 0) with (Z.of_nat (length s)) by lia.
  simpl. rewrite Nat2Z.id. apply take_ge. lia.
Qed.

(** When the overlap reaches back to the start of the text (or is not
    positive), a text shorter than a window does give the single chunk. *)
Lemma chunkText_short_text_single fuel text config m :
  reservedFree m →
  trim text ≠ [] →
  strlen text < chunkSize (resolveConfig config) →
  chunkOverlap (resolveConfig config) ≤ 0
    ∨ strlen text ≤ chunkOverlap (resolveConfig config) →
  chunkText (S fuel) text config m
  = Some [mkTextChunk (trim text) (chunkMetadata 0 0 (strlen text) m)].
Proof.
  intros Hm Htrim Hshort Hov.
  unfold chunkText. generalize dependent (resolveConfig config).
  intros cfg Hshort Hov.
  assert (0 < strlen text) as Hpos.
  { unfold strlen. destruct text; [done | simpl; lia]. }
  assert (0 < strlen (trim text)) as Hpos'.
  { unfold strlen. destruct (trim text); [done | simpl; lia]. }
  replace (strlen text =? 0) with false by (symmetry; apply Z.eqb_neq; lia).
  replace (strlen (trim text) =? 0) with false by (symmetry; apply Z.eqb_neq; lia).
  simpl orb. cbv iota. simpl run.
  replace (loopGuard text initialState) with true
    by (symmetry; apply Z.ltb_lt; exact Hpos).
  assert (windowEnd text cfg 0 = strlen text) as Hend.
  { unfold windowEnd. rewrite Z.min_r by lia. by rewrite Z.ltb_irrefl. }
  assert (∃ n, n = iteration text cfg m initialState
               ∧ chunks n = [mkTextChunk (trim text) (chunkMetadata 0 0 (strlen text) m)]
               ∧ strlen text ≤ startIndex n) as (n & <- & Hn & Hge).
  { eexists; split; [reflexivity|]. unfold iteration. simpl startIndex.
    rewrite Hend, substring_whole.
    replace (0 <? strlen (trim text)) with true by (symmetry; by apply Z.ltb_lt).
    simpl. rewrite chunkMetadata_startChar, numLeValue_JInt by done.
    split; [done|].
    destruct (_ <=? 0) eqn:Hle; simpl; [lia|]. apply Z.leb_gt in Hle. lia. }
  assert (loopGuard text n = false) as Hexit by (apply Z.ltb_ge; exact Hge).
  rewrite run_exit by exact Hexit. by rewrite Hexit, Hn.
Qed.

End ChunkerProps.

(** ** Properties of the semantic chunker *)

Module SemanticChunkerProps.
Import JsString JsStringProps JsValue Effect SemanticChunker SemanticChunkerSpec.

Section Short.
Variable nlpSentences : jsstring → list jsstring.
Variable generateEmbedding : jsstring → option (list Q).
Variable Math_sqrt : Q → Q.

Lemma semanticChunk_blank text config m log :
  trim text = [] →
  semanticChunk nlpSentences generateEmbedding Math_sqrt text config m log
  = (inr [], log).
Proof.
  intros Hb. unfold semanticChunk. rewrite Hb. by rewrite orb_true_r.
Qed.

Lemma semanticChunk_short text config m log :
  trim text ≠ [] →
  splitIntoSentences nlpSentences text ≠ [] →
  strlen text ≤ maxChunkSize (resolveConfig config) →
  semanticChunk nlpSentences generateEmbedding Math_sqrt text config m log
  = (inr [mkSemanticChunk (trim text)
            (chunkMetadata 0
               (Z.of_nat (length (splitIntoSentences nlpSentences text))) 1 m)],
     log).
Proof.
  intros Hb Hs Hlen. unfold semanticChunk.
  assert ((strlen text =? 0) = false) as ->.
  { apply not_true_is_false. rewrite strlen_zero. intros ->. by apply Hb. }
  assert ((strlen (trim text) =? 0) = false) as ->.
  { apply not_true_is_false. by rewrite strlen_zero. }
  simpl orb. cbv iota.
  destruct (splitIntoSentences nlpSentences text) as [|s ss] eqn:Hss; [done|].
  simpl Nat.eqb. cbv iota.
  apply Z.leb_le in Hlen. by rewrite Hlen.
Qed.
End Short.

(** C6. Let the sentence detector find no non-blank sentence in a blank
    text. Then for every non-empty text with at least one detected sentence
    and [text.length <= maxChunkSize], [semanticChunk] returns exactly one
    chunk, whose content is the trimmed text and whose [avgSimilarity] is 1,
    and no call to the embedding provider goes out. The caller's
    [additionalMetadata] is taken not to bind the name [avgSimilarity]. *)
Theorem semanticChunk_short_text_single_chunk
    (nlpSentences : jsstring → list jsstring)
    (generateEmbedding : jsstring → option (list Q)) (Math_sqrt : Q → Q)
    (text : jsstring) (config : PartialSemanticChunkConfig)
    (additionalMetadata : gmap string value) :
  (∀ t, trim t = [] → splitIntoSentences nlpSentences t = []) →
  additionalMetadata !! "avgSimilarity" = None →
  text ≠ [] →
  splitIntoSentences nlpSentences text ≠ [] →
  strlen text ≤ maxChunkSize (resolveConfig config) →
  let call := semanticChunk nlpSentences generateEmbedding Math_sqrt
                text config additionalMetadata in
  ∃ c, outcome call = inr [c]
       ∧ content c = trim text
       ∧ metadata c !! "avgSimilarity" = Some (JNum 1)
       ∧ calls call = [].
Proof.
  intros Hnlp Hmeta Hne Hsent Hlen call.
  assert (trim text ≠ []) as Hb by (intros Hb; by apply Hsent, Hnlp).
  unfold outcome, calls, call.
  rewrite semanticChunk_short by done. simpl.
  eexists. split; [reflexivity|]. simpl. split; [done|]. split; [|done].
  unfold chunkMetadata. rewrite lookup_union_r by exact Hmeta.
  by simplify_map_eq.
Qed.

Lemma wordsAsSentences_blank t :
  trim t = [] → splitIntoSentences wordsAsSentences t = [].
Proof.
  intros Hb. apply trim_nil in Hb.
  unfold splitIntoSentences, wordsAsSentences, splitWhitespace.
  assert (∀ b, List.filter (λ s, 0 <? strlen (trim s)) (splitWhitespaceFrom b [] t) = [])
    as H; [|apply H].
  induction Hb as [|c r Hc Hr IH]; intros b; simpl; [done|].
  rewrite Hc. destruct b; simpl; apply IH.
Qed.

Lemma semanticChunk_short_text_single_chunk_witness :
  ∃ c, outcome (semanticChunk wordsAsSentences lengthEmbedding noRoot
                  (js " Hello there. ") noOverrides ∅) = inr [c]
       ∧ content c = js "Hello there."
       ∧ metadata c !! "avgSimilarity" = Some (JNum 1)
       ∧ calls (semanticChunk wordsAsSentences lengthEmbedding noRoot
                  (js " Hello there. ") noOverrides ∅) = [].
Proof.
  apply (semanticChunk_short_text_single_chunk wordsAsSentences lengthEmbedding noRoot
           (js " Hello there. ") noOverrides ∅).
  - exact wordsAsSentences_blank.
  - reflexivity.
  - discriminate.
  - vm_compute. discriminate.
  - vm_compute. discriminate.
Defined.

(** *** No validation of the sizes *)

(** C4 fails: with [minChunkSize = 10 > maxChunkSize = 5] the call returns
    chunks, both on the short path and after embedding and grouping. *)
Lemma semanticChunk_inverted_sizes_accepted :
  maxChunkSize (resolveConfig invertedSizes) < minChunkSize (resolveConfig invertedSizes)
  ∧ outcome (semanticChunk wordsAsSentences lengthEmbedding noRoot
               (js "Hi.") invertedSizes ∅)
    = inr [mkSemanticChunk (js "Hi.") (chunkMetadata 0 1 1 ∅)]
  ∧ option_map (List.map content)
      (match outcome (semanticChunk wordsAsSentences lengthEmbedding noRoot
                        (js "aa bb cc dd") invertedSizes ∅) with
       | inl _ => None
       | inr cs => Some cs
       end)
    = Some [js "aa bb"; js "cc dd"].
Proof. split; [done|]. split; vm_compute; reflexivity. Qed.

Section Proceeds.
Variable nlpSentences : jsstring → list jsstring.
Variable generateEmbedding : jsstring → option (list Q).
Variable Math_sqrt : Q → Q.

Lemma embedBatch_ok dim batch log :
  embeddable generateEmbedding dim batch →
  ∃ vs, embedBatch generateEmbedding batch log = (inr vs, log ++ batch)
        ∧ length vs = length batch
        ∧ Forall (λ v, length v = dim) vs.
Proof.
  intros Hb. unfold embedBatch.
  assert (∃ vs, mapM generateEmbedding batch = Some vs
                ∧ length vs = length batch
                ∧ Forall (λ v, length v = dim) vs) as (vs & -> & Hl & Hd).
  { induction Hb as [|s l (v & Hv & Hdim) _ (vs & IH & Hl & Hd)]; simpl.
    - exists []. by repeat split.
    - exists (v :: vs). rewrite Hv. simpl. rewrite IH. simpl.
      split; [done|]. split; [by rewrite Hl | by constructor]. }
  eauto.
Qed.

Lemma embedBatches_ok dim rounds rest acc log :
  (length rest ≤ rounds)%nat →
  embeddable generateEmbedding dim rest →
  Forall (λ v, length v = dim) acc →
  ∃ vs, embedBatches generateEmbedding rounds 20 rest acc log
        = (inr vs, log ++ rest)
        ∧ length vs = (length acc + length rest)%nat
        ∧ Forall (λ v, length v = dim) vs.
Proof.
  revert rest acc log.
  induction rounds as [|rounds IH]; intros rest acc log Hr He Ha.
  - destruct rest; [|simpl in Hr; lia].
    exists acc. simpl. unfold ret. rewrite app_nil_r, Nat.add_0_r. done.
  - destruct rest as [|s rest].
    { exists acc. simpl. unfold ret. rewrite app_nil_r, Nat.add_0_r. done. }
    set (l := s :: rest) in *.
    assert (embeddable generateEmbedding dim (take 20 l)) as Ht by (by apply Forall_take).
    assert (embeddable generateEmbedding dim (drop 20 l)) as Hd by (by apply Forall_drop).
    destruct (embedBatch_ok dim (take 20 l) log Ht) as (vs & Hvs & Hlen & Hdim).
    destruct (IH (drop 20 l) (acc ++ vs) (log ++ take 20 l)) as (ws & Hws & Hlen' & Hdim').
    { rewrite length_drop. subst l. simpl in *. lia. }
    { exact Hd. }
    { apply Forall_app; by split. }
    exists ws. split; [|split; [|exact Hdim']].
    + change (embedBatches generateEmbedding (S rounds) 20 l acc log)
        with (bind (embedBatch generateEmbedding (take 20 l))
                (λ b, embedBatches generateEmbedding rounds 20 (drop 20 l) (acc ++ b)) log).
      unfold bind. rewrite Hvs, Hws.
      by rewrite <- app_assoc, take_drop.
    + rewrite Hlen', length_app, Hlen, length_drop, length_take. lia.
Qed.

Lemma cosineSimilarity_ok (a b : list Q) :
  length a = length b → ∃ c, cosineSimilarity Math_sqrt a b = inr c.
Proof.
  intros Hl. unfold cosineSimilarity.
  rewrite Hl, Nat.eqb_refl. simpl.
  destruct (dotAndNorms a b) as [[d na] nb]. eauto.
Qed.

Lemma sumSimilarities_ok dim (embeddings : list (list Q)) i indices sum :
  Forall (λ v, length v = dim) embeddings →
  0 ≤ i < Z.of_nat (length embeddings) →
  Forall (λ idx, 0 ≤ idx < Z.of_nat (length embeddings)) indices →
  ∃ total, sumSimilarities Math_sqrt embeddings i indices sum = inr total.
Proof.
  intros Hdim Hi Hidx. revert sum.
  induction Hidx as [|idx rest Hin _ IH]; intros sum; simpl; [eauto|].
  unfold similarityAt, at_.
  replace (i <? 0) with false by (symmetry; apply Z.ltb_ge; lia).
  replace (idx <? 0) with false by (symmetry; apply Z.ltb_ge; lia).
  destruct (lookup_lt_is_Some_2 embeddings (Z.to_nat i)) as [a Ha]; [lia|].
  destruct (lookup_lt_is_Some_2 embeddings (Z.to_nat idx)) as [b Hb]; [lia|].
  rewrite Ha, Hb.
  destruct (cosineSimilarity_ok a b) as [c ->]; [|apply IH].
  rewrite Forall_lookup in Hdim.
  by rewrite (Hdim _ _ Ha), (Hdim _ _ Hb).
Qed.

Lemma groupStep_ok dim cfg m (embeddings : list (list Q)) i sentence st :
  Forall (λ v, length v = dim) embeddings →
  0 ≤ i < Z.of_nat (length embeddings) →
  (0 < length (currentChunk st))%nat →
  Z.of_nat (length (currentChunk st)) ≤ i →
  ∃ st', groupStep Math_sqrt cfg m embeddings i sentence st = inr st'
         ∧ (0 < length (currentChunk st'))%nat
         ∧ Z.of_nat (length (currentChunk st')) ≤ i + 1.
Proof.
  intros Hdim Hi Hpos Hcount. unfold groupStep.
  set (count := Z.of_nat (length (currentChunk st))) in *.
  set (lookbackStart := Z.max 0 (count - sentenceWindow cfg)).
  set (recent := sliceFrom (currentChunk st) lookbackStart).
  destruct (sumSimilarities_ok dim embeddings i
              (List.map (λ idx, i - count + lookbackStart + Z.of_nat idx)
                 (seq 0 (length recent))) 0%Q Hdim Hi) as [total ->].
  { apply Forall_forall. intros idx Hin.
    apply list_elem_of_In, in_map_iff in Hin as (k & <- & Hk).
    apply in_seq in Hk.
    assert (length recent = length (currentChunk st) - Z.to_nat lookbackStart)%nat
      as Hrec by (unfold recent, sliceFrom; apply length_drop).
    subst count lookbackStart. lia. }
  destruct (_ || _); eexists; (split; [reflexivity|]); simpl;
    rewrite ?length_app; simpl; lia.
Qed.

Lemma groupLoop_ok dim cfg m (embeddings : list (list Q)) rest : ∀ i st,
  Forall (λ v, length v = dim) embeddings →
  0 ≤ i →
  i + Z.of_nat (length rest) ≤ Z.of_nat (length embeddings) →
  (0 < length (currentChunk st))%nat →
  Z.of_nat (length (currentChunk st)) ≤ i →
  ∃ st', groupLoop Math_sqrt cfg m embeddings i rest st = inr st'
         ∧ (0 < length (currentChunk st'))%nat.
Proof.
  induction rest as [|sentence rest IH]; intros i st Hdim Hi Hn Hpos Hcount; simpl.
  - eauto.
  - simpl in Hn.
    destruct (groupStep_ok dim cfg m embeddings i sentence st)
      as (st' & -> & Hpos' & Hcount'); [done | lia | done | done |].
    apply IH; [done | lia | lia | done | done].
Qed.

(** C4, amended. [semanticChunk] does not compare [minChunkSize] with
    [maxChunkSize]: a call whose resolved configuration has
    [minChunkSize > maxChunkSize] proceeds like any other call. Whenever the
    embedding provider answers every detected sentence with a vector of one
    and the same length, the call returns a chunk sequence, which is not
    empty unless the text is blank or has no detected sentence. *)
Theorem semanticChunk_sizes_not_validated
    (dim : nat) (text : jsstring) (config : PartialSemanticChunkConfig)
    (additionalMetadata : gmap string value) :
  maxChunkSize (resolveConfig config) < minChunkSize (resolveConfig config) →
  embeddable generateEmbedding dim (splitIntoSentences nlpSentences text) →
  ∃ cs, outcome (semanticChunk nlpSentences generateEmbedding Math_sqrt
                   text config additionalMetadata) = inr cs
        ∧ (trim text ≠ [] → splitIntoSentences nlpSentences text ≠ [] → cs ≠ []).
Proof.
  intros _ He. unfold outcome, semanticChunk.
  destruct (_ || _) eqn:Hblank.
  { exists []. split; [done|]. intros Hb.
    apply orb_true_iff in Hblank as [H|H]; apply strlen_zero in H.
    - subst text. by destruct Hb.
    - by destruct Hb. }
  destruct (splitIntoSentences nlpSentences text) as [|first rest] eqn:Hs.
  { exists []. by split. }
  change (length (first :: rest) =? 0)%nat with false. cbv iota.
  destruct (_ <=? _).
  { eexists. split; [reflexivity | done]. }
  unfold bind, embedSentences. cbv beta.
  destruct (embedBatches_ok dim (length (first :: rest)) (first :: rest) [] [])
    as (vs & -> & Hlen & Hdim); [done | done | constructor |].
  unfold groupSentences.
  destruct (groupLoop_ok dim (resolveConfig config) additionalMetadata vs rest 1
              (mkGroupState [] [first] (strlen first) 0 []))
    as (st & -> & Hpos); [done | lia | | simpl; lia | simpl; lia |].
  { rewrite Hlen. simpl. lia. }
  unfold throw, ret. simpl.
  eexists. split; [reflexivity|]. intros _ _.
  apply Nat.ltb_lt in Hpos. rewrite Hpos. by destruct (chunks st).
Qed.
End Proceeds.

Lemma lengthEmbedding_embeddable l : embeddable lengthEmbedding 2 l.
Proof. apply Forall_forall. intros s _. eexists. by split. Qed.

Lemma semanticChunk_sizes_not_validated_witness :
  maxChunkSize (resolveConfig invertedSizes) < minChunkSize (resolveConfig invertedSizes)
  ∧ ∃ cs, outcome (semanticChunk wordsAsSentences lengthEmbedding noRoot
                     (js "aa bb cc dd") invertedSizes ∅) = inr cs
          ∧ cs ≠ [].
Proof.
  assert (maxChunkSize (resolveConfig invertedSizes)
          < minChunkSize (resolveConfig invertedSizes)) as Hinv by (vm_compute; reflexivity).
  split; [exact Hinv|].
  destruct (semanticChunk_sizes_not_validated wordsAsSentences lengthEmbedding noRoot
              2 (js "aa bb cc dd") invertedSizes ∅ Hinv
              (lengthEmbedding_embeddable _)) as (cs & Hcs & Hne).
  exists cs. split; [exact Hcs|].
  apply Hne; vm_compute; discriminate.
Defined.

End SemanticChunkerProps.

(** ** Properties of hybrid search *)

Module VectorSearchProps.
Import JsString JsStringProps JsValue Effect VectorSearch VectorSearchSpec.

(** *** The insertion-ordered map *)

Lemma mapGet_mapSet {V} (m : JsMap V) k v k' :
  mapGet (mapSet m k v) k' = if String.eqb k k' then Some v else mapGet m k'.
Proof.
  induction m as [|[k0 w] m IH]; simpl.
  - done.
  - destruct (String.eqb k0 k) eqn:E0; simpl.
    + apply String.eqb_eq in E0 as ->. by destruct (String.eqb k k').
    + rewrite IH. destruct (String.eqb k0 k') eqn:E1; [|done].
      apply String.eqb_eq in E1 as ->. by rewrite String.eqb_sym, E0.
Qed.

Lemma mapGet_None {V} (m : JsMap V) k : mapGet m k = None ↔ k ∉ keys m.
Proof.
  unfold keys. induction m as [|[k0 w] m IH]; csimpl.
  - split; [intros _; apply not_elem_of_nil | done].
  - rewrite not_elem_of_cons. destruct (String.eqb k0 k) eqn:E.
    + apply String.eqb_eq in E as ->. split; [done | intros [? _]; done].
    + apply String.eqb_neq in E. rewrite IH. split; [by split | by intros [_ ?]].
Qed.

Lemma keys_mapSet {V} (m : JsMap V) k v :
  keys (mapSet m k v) = if mapHas m k then keys m else keys m ++ [k].
Proof.
  unfold keys, mapHas. induction m as [|[k0 w] m IH]; csimpl; [done|].
  destruct (String.eqb k0 k) eqn:E; csimpl; [done|].
  rewrite IH. by destruct (mapGet m k).
Qed.

Lemma NoDup_keys_mapSet {V} (m : JsMap V) k v :
  NoDup (keys m) → NoDup (keys (mapSet m k v)).
Proof.
  intros Hm. rewrite keys_mapSet. unfold mapHas.
  destruct (mapGet m k) eqn:E; [done|].
  apply NoDup_app. split; [done|]. split; [|apply NoDup_singleton].
  intros x Hx Hk. apply list_elem_of_singleton in Hk as ->.
  by apply mapGet_None in E.
Qed.

Lemma orZero_Some (s : Q) : (orZero (Some s) == s)%Q.
Proof.
  unfold orZero. destruct (Qeq_bool s 0) eqn:E; [|reflexivity].
  apply Qeq_bool_iff in E. by rewrite E.
Qed.

(** *** The fused score *)

Lemma fold_addReciprocalRank_score k rankedList : ∀ scores ident,
  (orZero (mapGet (fold_left (addReciprocalRank k) rankedList scores) ident)
   == orZero (mapGet scores ident) + contribution k rankedList ident)%Q.
Proof.
  induction rankedList as [|item rest IH]; intros scores ident; simpl.
  - ring.
  - rewrite IH. unfold addReciprocalRank. rewrite mapGet_mapSet.
    destruct (String.eqb (rid item) ident) eqn:E.
    + apply String.eqb_eq in E as <-. rewrite orZero_Some. ring.
    + ring.
Qed.

Lemma fold_addReciprocalRank_NoDup k rankedList : ∀ scores,
  NoDup (keys scores) →
  NoDup (keys (fold_left (addReciprocalRank k) rankedList scores)).
Proof.
  induction rankedList as [|item rest IH]; intros scores Hs; simpl; [done|].
  apply IH. by apply NoDup_keys_mapSet.
Qed.

Lemma reciprocalRankFusion_NoDup rankedLists k :
  NoDup (keys (reciprocalRankFusion rankedLists k)).
Proof.
  unfold reciprocalRankFusion.
  assert (∀ scores : JsMap Q, NoDup (keys scores) →
            NoDup (keys (fold_left
              (λ rrfScores rankedList, fold_left (addReciprocalRank k) rankedList rrfScores)
              rankedLists scores))) as H.
  { induction rankedLists as [|l ls IH]; intros scores Hs; simpl; [done|].
    by apply IH, fold_addReciprocalRank_NoDup. }
  apply H. constructor.
Qed.

Lemma fusedScore_contributions sem fts ident :
  (fusedScore sem fts ident
   == contribution RRF_K (rankSemantic sem) ident
      + contribution RRF_K (rankFts fts) ident)%Q.
Proof.
  unfold fusedScore, reciprocalRankFusion. simpl.
  rewrite !fold_addReciprocalRank_score. simpl. ring.
Qed.

Lemma positionOf_None ident ids : positionOf ident ids = None ↔ ident ∉ ids.
Proof.
  induction ids as [|x ids IH]; simpl.
  - split; [intros _; apply not_elem_of_nil | done].
  - rewrite not_elem_of_cons. destruct (String.eqb x ident) eqn:E.
    + apply String.eqb_eq in E as ->. split; [done | intros [? _]; done].
    + apply String.eqb_neq in E.
      destruct (positionOf ident ids); simpl.
      * split; [done|]. intros [_ H]. by apply IH in H.
      * split; [|done]. intros _. split; [done | by apply IH].
Qed.

Lemma positionOf_lookup ids : ∀ i x,
  NoDup ids → ids !! i = Some x → positionOf x ids = Some i.
Proof.
  induction ids as [|y ids IH]; intros i x Hnd Hi; [done|].
  apply NoDup_cons in Hnd as [Hy Hnd]. simpl.
  destruct i as [|i]; simpl in Hi.
  - injection Hi as ->. by rewrite String.eqb_refl.
  - destruct (String.eqb y x) eqn:E.
    + apply String.eqb_eq in E as ->. destruct Hy. by eapply list_elem_of_lookup_2.
    + by rewrite (IH i x Hnd Hi).
Qed.

Section Ranking.
Context {A : Type} (getId : A → string) (getScore : A → Q).

Lemma ranked_cons offset x l :
  ranked getId getScore offset (x :: l)
  = mkRankedResult (getId x) (Z.of_nat offset + 1) (getScore x)
      :: ranked getId getScore (S offset) l.
Proof.
  unfold ranked. rewrite imap_cons. rewrite Nat.add_0_r. f_equal.
  apply imap_ext. intros i y _. simpl. by rewrite Nat.add_succ_r.
Qed.

(** In a list without repeated ids, the contribution of a stage is the
    reciprocal of the shifted rank. *)
Lemma contribution_ranked k l : ∀ offset ident,
  NoDup (getId <$> l) →
  (contribution k (ranked getId getScore offset l) ident
   == match positionOf ident (getId <$> l) with
      | Some index => 1 / inject_Z (k + (Z.of_nat (offset + index) + 1))
      | None => 0
      end)%Q.
Proof.
  induction l as [|x l IH]; intros offset ident Hnd.
  - reflexivity.
  - rewrite ranked_cons. rewrite fmap_cons in Hnd.
    apply NoDup_cons in Hnd as [Hx Hnd]. csimpl.
    rewrite (IH (S offset) ident Hnd).
    destruct (String.eqb (getId x) ident) eqn:E.
    + apply String.eqb_eq in E as <-.
      apply positionOf_None in Hx. rewrite Hx, Nat.add_0_r. apply Qplus_0_r.
    + rewrite Qplus_0_l.
      destruct (positionOf ident (getId <$> l)) as [i|]; csimpl; [|reflexivity].
      by rewrite Nat.add_succ_r.
Qed.
End Ranking.

Lemma rankSemantic_ranked sem : rankSemantic sem = ranked id similarity 0 sem.
Proof. reflexivity. Qed.

Lemma rankFts_ranked fts :
  rankFts fts = ranked (λ row, id (chunk row)) ftsRank 0 fts.
Proof. reflexivity. Qed.

Lemma fusedScore_stageTerms sem fts ident :
  NoDup (semanticIds sem) → NoDup (ftsIds fts) →
  (fusedScore sem fts ident
   == stageTerm (semanticIds sem) ident + stageTerm (ftsIds fts) ident)%Q.
Proof.
  intros Hs Hf.
  rewrite fusedScore_contributions, rankSemantic_ranked, rankFts_ranked.
  rewrite (contribution_ranked id similarity RRF_K sem 0 ident Hs).
  rewrite (contribution_ranked (λ row, id (chunk row)) ftsRank RRF_K fts 0 ident Hf).
  reflexivity.
Qed.

(** C2. For stage lists in which no chunk id is repeated, the fused score of
    a chunk id is the sum, over the stages that contain it, of
    [1 / (60 + rank)] with [rank] its 1-based position in the stage; a chunk
    that is first in both stages has the fused score 2/61. Numbers are exact
    rationals. *)
Theorem fusedScore_is_sum_of_reciprocal_ranks
    (semanticResults : list SimilarChunk) (ftsResults : list FtsRow)
    (ident : string) :
  NoDup (semanticIds semanticResults) →
  NoDup (ftsIds ftsResults) →
  (fusedScore semanticResults ftsResults ident
   == stageTerm (semanticIds semanticResults) ident
      + stageTerm (ftsIds ftsResults) ident)%Q
  ∧ (semanticIds semanticResults !! 0%nat = Some ident →
     ftsIds ftsResults !! 0%nat = Some ident →
     (fusedScore semanticResults ftsResults ident == 2 # 61)%Q).
Proof.
  intros Hs Hf.
  pose proof (fusedScore_stageTerms semanticResults ftsResults ident Hs Hf) as Hsum.
  split; [exact Hsum|].
  intros H1 H2. rewrite Hsum. unfold stageTerm.
  rewrite (positionOf_lookup _ _ _ Hs H1), (positionOf_lookup _ _ _ Hf H2).
  reflexivity.
Qed.

Lemma fusedScore_is_sum_of_reciprocal_ranks_witness :
  (fusedScore exampleSemantic exampleFts "a"
   == stageTerm (semanticIds exampleSemantic) "a"
      + stageTerm (ftsIds exampleFts) "a")%Q
  ∧ (fusedScore exampleSemantic exampleFts "a" == 2 # 61)%Q.
Proof.
  destruct (fusedScore_is_sum_of_reciprocal_ranks exampleSemantic exampleFts "a")
    as [Hsum Hfirst].
  - apply (bool_decide_unpack _). vm_compute. reflexivity.
  - apply (bool_decide_unpack _). vm_compute. reflexivity.
  - split; [exact Hsum | apply Hfirst; reflexivity].
Defined.

(** *** Sorting by the fused score *)

Lemma StronglySorted_descending {A} (f : A → Q) (l : list A) :
  StronglySorted (λ a b, f b <= f a)%Q l → descending f l.
Proof.
  induction 1 as [|x l Hs IH Hx]; intros i j a b Hij Hi Hj; [done|].
  destruct j as [|j]; [lia|]. simpl in Hj.
  destruct i as [|i]; simpl in Hi.
  - injection Hi as <-. rewrite Forall_forall in Hx.
    apply Hx. by eapply list_elem_of_lookup_2.
  - apply (IH i j); [lia | done | done].
Qed.

Lemma descending_take {A} (f : A → Q) (l : list A) n :
  descending f l → descending f (take n l).
Proof.
  intros Hd i j a b Hij Hi Hj.
  apply lookup_take_Some in Hi as [Hi _]. apply lookup_take_Some in Hj as [Hj _].
  by apply (Hd i j).
Qed.

Section Sort.
Context {A : Type} (f : A → Q).

Lemma insertSorted_Permutation (compare : A → A → Q) x l :
  insertSorted compare x l ≡ₚ x :: l.
Proof.
  induction l as [|y l IH]; simpl; [done|].
  destruct (negb _); [|done]. rewrite IH. apply Permutation_swap.
Qed.

Lemma sort_Permutation (compare : A → A → Q) l : sort compare l ≡ₚ l.
Proof.
  induction l as [|x l IH]; simpl; [done|].
  rewrite insertSorted_Permutation. by rewrite IH.
Qed.

Lemma insertSorted_sorted x l :
  StronglySorted (λ a b, f b <= f a)%Q l →
  StronglySorted (λ a b, f b <= f a)%Q (insertSorted (byValue f) x l).
Proof.
  induction 1 as [|y l Hs IH Hy]; simpl.
  - repeat constructor.
  - unfold byValue at 1.
    destruct (Qle_bool (f y - f x) 0) eqn:E; simpl.
    + apply Qle_bool_iff in E.
      assert (f y <= f x)%Q as Hyx by lra.
      constructor; [by constructor|].
      constructor; [exact Hyx|].
      eapply Forall_impl; [exact Hy|]. intros z Hz. simpl in Hz. lra.
    + assert (f x <= f y)%Q as Hxy.
      { destruct (Qlt_le_dec 0 (f y - f x)) as [Hlt | Hle]; [lra|].
        apply Qle_bool_iff in Hle. congruence. }
      constructor; [exact IH|].
      rewrite (insertSorted_Permutation (byValue f) x l).
      by constructor.
Qed.

Lemma sort_sorted l : StronglySorted (λ a b, f b <= f a)%Q (sort (byValue f) l).
Proof.
  induction l as [|x l IH]; simpl; [constructor|]. by apply insertSorted_sorted.
Qed.
End Sort.

(** *** The map of chunks *)

Lemma keyedById_mapSet chunkMap c :
  keyedById chunkMap → keyedById (mapSet chunkMap (id c) c).
Proof.
  intros Hm k c'. rewrite mapGet_mapSet.
  destruct (String.eqb (id c) k) eqn:E; [|apply Hm].
  apply String.eqb_eq in E. by intros [= <-].
Qed.

Lemma buildChunkMap_keyedById sem fts : keyedById (buildChunkMap sem fts).
Proof.
  unfold buildChunkMap.
  assert (∀ m, keyedById m →
            keyedById (fold_left (λ chunkMap c, mapSet chunkMap (id c) c) sem m)) as H1.
  { induction sem as [|c sem IH]; intros m Hm; simpl; [done|].
    by apply IH, keyedById_mapSet. }
  assert (∀ m, keyedById m →
            keyedById (fold_left
              (λ chunkMap row,
                 if negb (mapHas chunkMap (id (chunk row)))
                 then mapSet chunkMap (id (chunk row)) (chunk row)
                 else chunkMap) fts m)) as H2.
  { induction fts as [|row fts IH]; intros m Hm; simpl; [done|].
    apply IH. destruct (negb _); [by apply keyedById_mapSet | done]. }
  apply H2, H1. intros k c H. discriminate H.
Qed.

Lemma found_NoDup (chunkMap : JsMap SimilarChunk) {V} (entries : JsMap V) :
  keyedById chunkMap → NoDup (keys entries) →
  NoDup (id <$> omap (λ entry, mapGet chunkMap (fst entry)) entries).
Proof.
  intros Hm. unfold keys.
  induction entries as [|[k v] entries IH]; csimpl; intros Hnd; [constructor|].
  apply NoDup_cons in Hnd as [Hk Hnd].
  destruct (mapGet chunkMap k) as [c|] eqn:E; csimpl; [|by apply IH].
  apply NoDup_cons. split; [|by apply IH].
  rewrite (Hm _ _ E). intros Hin. apply Hk.
  apply list_elem_of_fmap in Hin as (c' & Hid & Hc').
  apply list_elem_of_omap in Hc' as ([k' v'] & Hin' & Hget). simpl in Hget.
  rewrite Hid, (Hm _ _ Hget).
  apply list_elem_of_fmap. by exists (k', v').
Qed.

Lemma mergeResults_contract sem fts limit :
  searchContract limit sem fts (mergeResults sem fts limit).
Proof.
  unfold searchContract, mergeResults.
  set (rrfScores := reciprocalRankFusion [rankSemantic sem; rankFts fts] RRF_K).
  set (found := omap (λ entry, mapGet (buildChunkMap sem fts) (fst entry)) rrfScores).
  set (f := λ c : SimilarChunk, orZero (mapGet rrfScores (id c))).
  change (sort _ found) with (sort (byValue f) found).
  split; [|split].
  - rewrite length_take. lia.
  - rewrite fmap_take. eapply sublist_NoDup; [|apply sublist_take].
    rewrite (sort_Permutation (byValue f) found).
    apply found_NoDup; [apply buildChunkMap_keyedById|].
    apply reciprocalRankFusion_NoDup.
  - apply descending_take, StronglySorted_descending. apply (sort_sorted f).
Qed.

(** With no keyword stage, the vector stage is already in descending order
    of the fused score. *)
Lemma semantic_descending sem :
  NoDup (semanticIds sem) →
  descending (λ c, fusedScore sem [] (id c)) sem.
Proof.
  intros Hnd i j a b Hij Hi Hj.
  assert (∀ n c, sem !! n = Some c →
            (fusedScore sem [] (id c) == 1 / inject_Z (RRF_K + (Z.of_nat n + 1)))%Q) as Hscore.
  { intros n c Hn.
    rewrite (fusedScore_stageTerms sem [] (id c) Hnd) by constructor.
    unfold stageTerm at 2. simpl. rewrite Qplus_0_r. unfold stageTerm.
    rewrite (positionOf_lookup (semanticIds sem) n (id c) Hnd); [reflexivity|].
    unfold semanticIds. by rewrite list_lookup_fmap, Hn. }
  rewrite (Hscore i a Hi), (Hscore j b Hj).
  unfold Qdiv. rewrite !Qmult_1_l.
  assert (0 < inject_Z (RRF_K + (Z.of_nat i + 1)))%Q as Hx
    by (change 0%Q with (inject_Z 0); rewrite <- Zlt_Qlt; unfold RRF_K; lia).
  assert (0 < inject_Z (RRF_K + (Z.of_nat j + 1)))%Q as Hy
    by (change 0%Q with (inject_Z 0); rewrite <- Zlt_Qlt; unfold RRF_K; lia).
  apply Qlt_le_weak. apply -> (Qinv_lt_contravar _ _ Hx Hy).
  rewrite <- Zlt_Qlt. lia.
Qed.

Lemma take_contract sem limit :
  NoDup (semanticIds sem) → searchContract limit sem [] (take limit sem).
Proof.
  intros Hnd. split; [|split].
  - rewrite length_take. lia.
  - rewrite fmap_take. eapply sublist_NoDup; [exact Hnd | apply sublist_take].
  - by apply descending_take, semantic_descending.
Qed.

(** *** The two searches, run against a database *)

Section Runs.
Variable runVectorQuery : Query → option (list SimilarChunk).
Variable runTextQuery : Query → option (list FtsRow).

Lemma hybridSearch_run emb text limit minSim sem :
  runVectorQuery (unscopedVectorQuery emb limit minSim) = Some sem →
  hybridSearch runVectorQuery runTextQuery emb text limit minSim []
  = match keywordsOf text with
    | [] => (inr (take limit sem), [unscopedVectorQuery emb limit minSim])
    | _ =>
        (match runTextQuery (unscopedTextQuery emb text limit) with
         | Some fts => inr (mergeResults sem fts limit)
         | None => inl QueryFailed
         end,
         [unscopedVectorQuery emb limit minSim; unscopedTextQuery emb text limit])
    end.
Proof.
  intros Hsem. unfold hybridSearch, bind, queryRaw.
  fold (unscopedVectorQuery emb limit minSim). rewrite Hsem. simpl.
  destruct (keywordsOf text) as [|kw kws] eqn:Hk; simpl; [done|].
  rewrite <- Hk. fold (unscopedTextQuery emb text limit).
  by destruct (runTextQuery _).
Qed.

Lemma hybridSearchInDocuments_run emb text docs limit minSim sem :
  docs ≠ [] →
  runVectorQuery (scopedVectorQuery emb docs limit minSim) = Some sem →
  hybridSearchInDocuments runVectorQuery runTextQuery emb text docs limit minSim []
  = match tsTokensOf text with
    | [] => (inr (take limit sem), [scopedVectorQuery emb docs limit minSim])
    | _ =>
        (match runTextQuery (scopedTextQuery emb text docs limit) with
         | Some fts => inr (mergeResults sem fts limit)
         | None => inl QueryFailed
         end,
         [scopedVectorQuery emb docs limit minSim; scopedTextQuery emb text docs limit])
    end.
Proof.
  intros Hdocs Hsem. unfold hybridSearchInDocuments.
  destruct docs as [|d docs]; [done|]. simpl Nat.eqb. cbv iota.
  unfold bind, queryRaw.
  fold (scopedVectorQuery emb (d :: docs) limit minSim). rewrite Hsem. simpl.
  unfold tsQueryOf at 1.
  destruct (tsTokensOf text) as [|tok toks] eqn:Htok; [done|].
  assert ((strlen (join (js " & ") (tok :: toks)) =? 0) = false) as ->.
  { assert (tok ≠ []) as Hne.
    { assert (tok ∈ tsTokensOf text) as Hin by (rewrite Htok; left).
      unfold tsTokensOf in Hin.
      apply list_elem_of_In, filter_In in Hin as [_ Hlen].
      by apply strlen_pos in Hlen. }
    apply not_true_is_false. rewrite strlen_zero.
    destruct tok as [|c tok]; [done|]. by destruct toks. }
  fold (scopedTextQuery emb text (d :: docs) limit).
  by destruct (runTextQuery _).
Qed.
End Runs.

(** C1. Let the database answer the queries of the call, the vector query
    with rows of pairwise different chunk ids. Then hybrid search, without a
    document scope ([hybridSearch]) and with one ([hybridSearchInDocuments]),
    returns a sequence of at most [limit] chunks in which no chunk id occurs
    twice, also when the id was in both stage lists, and which is in
    descending order of the fused score of the two stage lists (of the vector
    stage alone when the keyword stage is skipped). Numbers are exact
    rationals. *)
Theorem hybridSearch_contract
    (runVectorQuery : Query → option (list SimilarChunk))
    (runTextQuery : Query → option (list FtsRow))
    (queryEmbedding : list Q) (queryText : jsstring) (limit : nat) (minSimilarity : Q) :
  uniqueIds runVectorQuery →
  (∀ sem fts,
     runVectorQuery (unscopedVectorQuery queryEmbedding limit minSimilarity) = Some sem →
     (keywordsOf queryText ≠ [] →
      runTextQuery (unscopedTextQuery queryEmbedding queryText limit) = Some fts) →
     ∃ out,
       outcome (hybridSearch runVectorQuery runTextQuery
                  queryEmbedding queryText limit minSimilarity) = inr out
       ∧ searchContract limit sem (lexicalStage (keywordsOf queryText) fts) out)
  ∧ (∀ documentIds sem fts,
       documentIds ≠ [] →
       runVectorQuery (scopedVectorQuery queryEmbedding documentIds limit minSimilarity)
         = Some sem →
       (tsTokensOf queryText ≠ [] →
        runTextQuery (scopedTextQuery queryEmbedding queryText documentIds limit)
          = Some fts) →
       ∃ out,
         outcome (hybridSearchInDocuments runVectorQuery runTextQuery
                    queryEmbedding queryText documentIds limit minSimilarity) = inr out
         ∧ searchContract limit sem (lexicalStage (tsTokensOf queryText) fts) out)
  ∧ hybridSearchInDocuments runVectorQuery runTextQuery
      queryEmbedding queryText [] limit minSimilarity
    = hybridSearch runVectorQuery runTextQuery queryEmbedding queryText limit minSimilarity.
Proof.
  intros Huniq. split; [|split; [|reflexivity]].
  - intros sem fts Hsem Hfts. unfold outcome.
    rewrite (hybridSearch_run _ _ _ _ _ _ _ Hsem).
    destruct (keywordsOf queryText) as [|kw kws]; simpl.
    + eexists. split; [reflexivity|]. apply take_contract. by eapply Huniq.
    + rewrite Hfts by done. eexists. split; [reflexivity|].
      apply mergeResults_contract.
  - intros documentIds sem fts Hdocs Hsem Hfts. unfold outcome.
    rewrite (hybridSearchInDocuments_run _ _ _ _ _ _ _ _ Hdocs Hsem).
    destruct (tsTokensOf queryText) as [|tok toks]; simpl.
    + eexists. split; [reflexivity|]. apply take_contract. by eapply Huniq.
    + rewrite Hfts by done. eexists. split; [reflexivity|].
      apply mergeResults_contract.
Qed.

Lemma exampleVectorDb_uniqueIds : uniqueIds exampleVectorDb.
Proof.
  intros q rows [= <-]. apply (bool_decide_unpack _). vm_compute. reflexivity.
Qed.

Lemma hybridSearch_contract_witness :
  (∃ out,
     outcome (hybridSearch exampleVectorDb exampleTextDb [1%Q] (js "hybrid search") 2 (1 # 5))
       = inr out
     ∧ searchContract 2 exampleSemantic
         (lexicalStage (keywordsOf (js "hybrid search")) exampleFts) out)
  ∧ (id <$> mergeResults exampleSemantic exampleFts 2) = ["a"; "c"]
  ∧ ∃ out,
      outcome (hybridSearchInDocuments exampleVectorDb exampleTextDb [1%Q]
                 (js "hybrid search") ["doc-1"] 2 (1 # 5)) = inr out
      ∧ searchContract 2 exampleSemantic
          (lexicalStage (tsTokensOf (js "hybrid search")) exampleFts) out.
Proof.
  destruct (hybridSearch_contract exampleVectorDb exampleTextDb [1%Q]
              (js "hybrid search") 2 (1 # 5) exampleVectorDb_uniqueIds)
    as (Hunscoped & Hscoped & _).
  split; [|split].
  - apply Hunscoped; reflexivity.
  - vm_compute. reflexivity.
  - apply Hscoped; [discriminate | reflexivity | reflexivity].
Defined.

(** The search that skips the keyword stage. When the variant's own token
    list is empty (in [hybridSearch]: tokens of more than two characters; in
    [hybridSearchInDocuments] with a document scope: its own tokens, the
    non-empty ones), the only query issued is the vector query, and when the
    database answers it the result is its rows, in their order, cut at
    [limit]. *)
Theorem hybridSearch_without_keywords
    (runVectorQuery : Query → option (list SimilarChunk))
    (runTextQuery : Query → option (list FtsRow))
    (queryEmbedding : list Q) (queryText : jsstring) (limit : nat) (minSimilarity : Q) :
  (keywordsOf queryText = [] →
     calls (hybridSearch runVectorQuery runTextQuery
              queryEmbedding queryText limit minSimilarity)
       = [unscopedVectorQuery queryEmbedding limit minSimilarity]
     ∧ ∀ sem,
         runVectorQuery (unscopedVectorQuery queryEmbedding limit minSimilarity) = Some sem →
         outcome (hybridSearch runVectorQuery runTextQuery
                    queryEmbedding queryText limit minSimilarity)
         = inr (take limit sem))
  ∧ (∀ documentIds,
       documentIds ≠ [] → tsTokensOf queryText = [] →
       calls (hybridSearchInDocuments runVectorQuery runTextQuery
                queryEmbedding queryText documentIds limit minSimilarity)
         = [scopedVectorQuery queryEmbedding documentIds limit minSimilarity]
       ∧ ∀ sem,
           runVectorQuery (scopedVectorQuery queryEmbedding documentIds limit minSimilarity)
             = Some sem →
           outcome (hybridSearchInDocuments runVectorQuery runTextQuery
                      queryEmbedding queryText documentIds limit minSimilarity)
           = inr (take limit sem)).
Proof.
  split.
  - intros Hk. split.
    + unfold calls, hybridSearch, bind, queryRaw. rewrite Hk. simpl.
      by destruct (runVectorQuery _).
    + intros sem Hsem. unfold outcome.
      by rewrite (hybridSearch_run _ _ _ _ _ _ _ Hsem), Hk.
  - intros documentIds Hdocs Hk. split.
    + unfold calls, hybridSearchInDocuments.
      destruct documentIds as [|d ds]; [done|]. simpl Nat.eqb. cbv iota.
      unfold bind, queryRaw, tsQueryOf. rewrite Hk. simpl.
      by destruct (runVectorQuery _).
    + intros sem Hsem. unfold outcome.
      by rewrite (hybridSearchInDocuments_run _ _ _ _ _ _ _ _ Hdocs Hsem), Hk.
Qed.

Lemma hybridSearch_without_keywords_witness :
  (calls (hybridSearch exampleVectorDb exampleTextDb [1%Q] (js " is it? ") 2 (1 # 5))
     = [unscopedVectorQuery [1%Q] 2 (1 # 5)]
   ∧ outcome (hybridSearch exampleVectorDb exampleTextDb [1%Q] (js " is it? ") 2 (1 # 5))
     = inr (take 2 exampleSemantic))
  ∧ (calls (hybridSearchInDocuments exampleVectorDb exampleTextDb [1%Q]
              (js " ?! ") ["doc-1"] 2 (1 # 5))
       = [scopedVectorQuery [1%Q] ["doc-1"] 2 (1 # 5)]
     ∧ outcome (hybridSearchInDocuments exampleVectorDb exampleTextDb [1%Q]
                  (js " ?! ") ["doc-1"] 2 (1 # 5))
       = inr (take 2 exampleSemantic)).
Proof.
  split.
  - destruct (proj1 (hybridSearch_without_keywords exampleVectorDb exampleTextDb [1%Q]
                       (js " is it? ") 2 (1 # 5))) as [Hcalls Hout].
    + vm_compute. reflexivity.
    + split; [exact Hcalls | apply Hout; reflexivity].
  - destruct (proj2 (hybridSearch_without_keywords exampleVectorDb exampleTextDb [1%Q]
                       (js " ?! ") 2 (1 # 5)) ["doc-1"]) as [Hcalls Hout].
    + discriminate.
    + vm_compute. reflexivity.
    + split; [exact Hcalls | apply Hout; reflexivity].
Defined.

(** *** The keywords of the two variants *)

(** In [hybridSearch] the keywords are the white-space separated tokens,
    stripped of non-word characters, of more than two characters: the first
    length filter of the source drops nothing that the second would keep. *)
Lemma keywordsOf_tokens queryText :
  keywordsOf queryText
  = List.filter (λ word, 2 <? strlen word)
      (List.map stripNonWord (splitWhitespace queryText)).
Proof.
  unfold keywordsOf. induction (splitWhitespace queryText) as [|w ws IH]; simpl; [done|].
  destruct (2 <? strlen w) eqn:Hw; simpl; rewrite IH; [done|].
  assert ((2 <? strlen (stripNonWord w)) = false) as ->; [|done].
  apply Z.ltb_ge. apply Z.ltb_ge in Hw. unfold strlen, stripNonWord in *.
  pose proof (filter_length_le isWordChar w). lia.
Qed.

(** In [hybridSearch] the condition joins one pattern per keyword with [OR]. *)
Lemma likeConditionsOf_example :
  keywordsOf (js "Is hybrid-search ok?") = [js "hybridsearch"]
  ∧ likeConditionsOf (keywordsOf (js "the RAG system"))
    = js "content ILIKE '%the%' OR content ILIKE '%RAG%' OR content ILIKE '%system%'".
Proof. split; vm_compute; reflexivity. Qed.

(** C5, at [queryText = "is it ok"]: every token has two characters. Without
    a document scope no keyword survives and no keyword query goes out; with
    the scope [["doc-1"]] all three tokens are kept, and they are joined with
    [&], the conjunction of [to_tsquery], in a query on the [content_fts]
    column. *)
Theorem scoped_search_keeps_short_tokens :
  keywordsOf (js "is it ok") = []
  ∧ tsTokensOf (js "is it ok") = [js "is"; js "it"; js "ok"]
  ∧ calls (hybridSearch exampleVectorDb exampleTextDb [1%Q] (js "is it ok") 5 (1 # 5))
    = [VectorQuery [1%Q] None (1 # 5) 10]
  ∧ calls (hybridSearchInDocuments exampleVectorDb exampleTextDb [1%Q]
             (js "is it ok") ["doc-1"] 5 (1 # 5))
    = [VectorQuery [1%Q] (Some ["doc-1"]) (1 # 5) 10;
       TextQuery [1%Q] (WhereTsQuery (js "is & it & ok")) (Some ["doc-1"]) 10].
Proof. repeat split; vm_compute; reflexivity. Qed.

(** C9, at [queryText = "is it ok"] with the document scope [["doc-1"]]: no
    token of more than two characters is left, so no keyword survives the
    tokenization; yet [hybridSearchInDocuments] sends the keyword query after
    the vector query and returns the fused list. With the example database
    its chunks are [a] and [c], where the rows of the vector stage cut at
    [limit = 2] are [a] and [b]. *)
Theorem scoped_search_without_keywords_fuses :
  keywordsOf (js "is it ok") = []
  ∧ calls (hybridSearchInDocuments exampleVectorDb exampleTextDb [1%Q]
             (js "is it ok") ["doc-1"] 2 (1 # 5))
    = [scopedVectorQuery [1%Q] ["doc-1"] 2 (1 # 5);
       scopedTextQuery [1%Q] (js "is it ok") ["doc-1"] 2]
  ∧ (∃ out,
       outcome (hybridSearchInDocuments exampleVectorDb exampleTextDb [1%Q]
                  (js "is it ok") ["doc-1"] 2 (1 # 5)) = inr out
       ∧ id <$> out = ["a"; "c"])
  ∧ id <$> take 2 exampleSemantic = ["a"; "b"].
Proof.
  split; [vm_compute; reflexivity|]. split; [vm_compute; reflexivity|].
  split; [|reflexivity].
  eexists. split; vm_compute; reflexivity.
Qed.

End VectorSearchProps.

(** ** Properties of the reranker *)

Module RerankProps.
Import JsString JsValue Effect VectorSearch VectorSearchSpec Rerank RerankSpec.

(** C8. [rerankChunks] never throws; and for a chunk list of more than
    [topN] elements, when the credentials are missing or the external rerank
    call fails, it returns the first [topN] chunks in their order, each with
    its own similarity as [rerankScore]. *)
Theorem rerankChunks_never_throws
    (env : Environment) (query : jsstring) (chunks : list SimilarChunk) (topN : nat) :
  (∃ out, outcome (rerankChunks env query chunks topN) = inr out)
  ∧ ((topN < length chunks)%nat →
     unavailable env query chunks topN →
     outcome (rerankChunks env query chunks topN)
     = inr (withOwnScore <$> take topN chunks)
     ∧ ∀ i c, take topN chunks !! i = Some c →
         ∃ r, firstTopN chunks topN !! i = Some r
              ∧ spread r = c ∧ rerankScore r = similarity c).
Proof.
  unfold outcome, rerankChunks, tryCatch, bind, importCohere, callRerank.
  fold (requestOf env query chunks topN).
  split.
  - destruct (length chunks =? 0)%nat; [by eexists|].
    destruct (length chunks <=? topN)%nat; [by eexists|].
    destruct (cohereInstalled env); simpl; [|by eexists].
    destruct (keyMissing _); simpl; [by eexists|].
    destruct (rerankService env _) as [results|]; simpl; [|by eexists].
    destruct (mapResults chunks results); simpl; by eexists.
  - intros Hlen Hdown.
    assert ((length chunks =? 0)%nat = false) as -> by (apply Nat.eqb_neq; lia).
    assert ((length chunks <=? topN)%nat = false) as -> by (apply Nat.leb_gt; lia).
    split.
    + destruct (cohereInstalled env) eqn:Hi; simpl; [|done].
      destruct (keyMissing _) eqn:Hk; simpl; [done|].
      destruct Hdown as [Hd | [Hd | [Hd | (results & e & Hd & He)]]]; try congruence.
      * by rewrite Hd.
      * by rewrite Hd, He.
    + intros i c Hi. exists (withOwnScore c). unfold firstTopN.
      by rewrite list_lookup_fmap, Hi.
Qed.

(** Without a key nothing is sent. *)
Lemma rerankChunks_without_key :
  rerankChunks noKey (js "q") exampleSemantic 2 []
  = (inr (withOwnScore <$> take 2 exampleSemantic), []).
Proof. reflexivity. Qed.

Lemma rerankChunks_never_throws_witness :
  (2 < length exampleSemantic)%nat
  ∧ unavailable serviceDown (js "q") exampleSemantic 2
  ∧ outcome (rerankChunks serviceDown (js "q") exampleSemantic 2)
    = inr (withOwnScore <$> take 2 exampleSemantic).
Proof.
  assert (2 < length exampleSemantic)%nat as Hlen by (simpl; lia).
  assert (unavailable serviceDown (js "q") exampleSemantic 2) as Hdown
    by (right; right; left; reflexivity).
  split; [exact Hlen|]. split; [exact Hdown|].
  exact (proj1 (proj2 (rerankChunks_never_throws serviceDown (js "q") exampleSemantic 2)
                  Hlen Hdown)).
Defined.

End RerankProps.

(** ** More properties of the chunker *)

Module ChunkerMoreProps.
Import JsString JsStringProps JsValue Chunker ChunkerSpec ChunkerProps.
Import ChunkerTools ChunkerToolsSpec.

(** *** Start offsets *)

Lemma startsAbove_lookup low cs i c :
  startsAbove low cs → cs !! i = Some c → ∃ s, startOf c s ∧ low < s.
Proof.
  revert i. induction cs as [|c' cs IH]; intros i Hab Hi; [done|].
  destruct Hab as [Hc Hrest]. destruct i as [|i]; simpl in Hi.
  - by injection Hi as <-.
  - by apply (IH i).
Qed.

Lemma startsBelow_pairwise bound cs i j ci cj :
  startsBelow bound cs → (i < j)%nat → cs !! i = Some ci → cs !! j = Some cj →
  ∃ si sj, startOf ci si ∧ startOf cj sj ∧ si < sj.
Proof.
  revert i j. induction cs as [|c cs IH]; intros i j Hb Hij Hi Hj; [done|].
  destruct Hb as [(s & Hs & _ & Hab) Hrest].
  destruct j as [|j]; [lia|]. simpl in Hj.
  destruct i as [|i]; simpl in Hi.
  - injection Hi as <-.
    destruct (startsAbove_lookup s cs j cj Hab Hj) as (sj & Hsj & Hlt).
    by exists s, sj.
  - apply (IH i j); [done | lia | done | done].
Qed.

(** X1. The start offsets of the chunks are strictly increasing: in the list of
    the chunks pushed after any number of passes, and so in every returned
    sequence, an earlier chunk starts before a later one. *)
Theorem chunkText_start_offsets_increase
    (fuel : nat) (text : jsstring) (config : PartialChunkConfig)
    (additionalMetadata : gmap string value) :
  reservedFree additionalMetadata →
  1 ≤ chunkSize (resolveConfig config) →
  ∀ out,
    out = chunks (run fuel text (resolveConfig config) additionalMetadata initialState)
    ∨ chunkText fuel text config additionalMetadata = Some out →
    ∀ i j ci cj, (i < j)%nat → out !! i = Some ci → out !! j = Some cj →
      ∃ si sj, startOf ci si ∧ startOf cj sj ∧ si < sj.
Proof.
  intros Hm Hcs out Hout i j ci cj Hij Hi Hj.
  assert (out = [] ∨ out = chunks (run fuel text (resolveConfig config)
                                     additionalMetadata initialState)) as [-> | ->].
  { destruct Hout as [-> | Hout]; [by right | by apply chunkText_Some in Hout]. }
  - discriminate Hi.
  - eapply startsBelow_pairwise; [|exact Hij | exact Hi | exact Hj].
    apply startsBelow_run; [exact Hm | exact Hcs | exact I].
Qed.

Lemma chunkText_start_offsets_increase_witness :
  ∃ out, chunkText 9 (js "hello world, this is a test") smallWindows ∅ = Some out
         ∧ ∀ i j ci cj, (i < j)%nat → out !! i = Some ci → out !! j = Some cj →
             ∃ si sj, startOf ci si ∧ startOf cj sj ∧ si < sj.
Proof.
  destruct (chunkText 9 (js "hello world, this is a test") smallWindows ∅)
    as [out|] eqn:Hout.
  - exists out. split; [reflexivity|].
    apply (chunkText_start_offsets_increase 9 (js "hello world, this is a test")
             smallWindows ∅ reservedFree_empty).
    + vm_compute. discriminate.
    + right. exact Hout.
  - vm_compute in Hout. discriminate Hout.
Defined.

(** X2. A text that is shorter than a window and not blank gives exactly one
    chunk when the overlap is not positive or is at least as long as the
    text: the trimmed text, with [chunkIndex] 0 and the offsets 0 and
    [text.length], after the first pass. The additional metadata is taken not
    to bind the names [chunkIndex], [startChar] and [endChar]. *)
Theorem chunkText_single_chunk
    (fuel : nat) (text : jsstring) (config : PartialChunkConfig)
    (additionalMetadata : gmap string value) :
  reservedFree additionalMetadata →
  trim text ≠ [] →
  strlen text < chunkSize (resolveConfig config) →
  chunkOverlap (resolveConfig config) ≤ 0
    ∨ strlen text ≤ chunkOverlap (resolveConfig config) →
  chunkText (S fuel) text config additionalMetadata
  = Some [mkTextChunk (trim text)
            (chunkMetadata 0 0 (strlen text) additionalMetadata)].
Proof. apply chunkText_short_text_single. Qed.

Lemma chunkText_single_chunk_witness :
  chunkText 1 (js " ab ") (mkPartialChunkConfig (Some 10) (Some 4) None) ∅
  = Some [mkTextChunk (js "ab") (chunkMetadata 0 0 4 ∅)].
Proof.
  apply (chunkText_single_chunk 0 (js " ab ")
           (mkPartialChunkConfig (Some 10) (Some 4) None) ∅ reservedFree_empty).
  - vm_compute. discriminate.
  - vm_compute. reflexivity.
  - right. vm_compute. discriminate.
Defined.

(** *** Lengths *)

Lemma trimStart_length (s : jsstring) : (length (trimStart s) ≤ length s)%nat.
Proof.
  induction s as [|c s IH]; simpl; [lia|].
  destruct (isWhiteSpace c); simpl; lia.
Qed.

Lemma trim_length (s : jsstring) : (length (trim s) ≤ length s)%nat.
Proof.
  unfold trim, trimEnd. rewrite length_rev.
  etransitivity; [apply trimStart_length|]. rewrite length_rev.
  apply trimStart_length.
Qed.

Lemma substring_length (s : jsstring) (from to : Z) :
  from ≤ to → strlen (substring s from to) ≤ to - from.
Proof.
  intros Hle. unfold substring, strlen, clampIndex.
  rewrite length_take. lia.
Qed.

Lemma isPrefixOf_length (p s : jsstring) :
  isPrefixOf p s = true → (length p ≤ length s)%nat.
Proof.
  revert s. induction p as [|a p IH]; intros [|b s] H; simpl in *; try lia; try done.
  apply andb_true_iff in H as [_ H]. apply IH in H. lia.
Qed.

Lemma lastOccurrence_fits (sep s : jsstring) : ∀ i j,
  lastOccurrence sep s i = Some j → (i ≤ j ∧ j + length sep ≤ i + length s)%nat.
Proof.
  induction s as [|c s IH]; intros i j; simpl.
  - destruct (isPrefixOf sep []) eqn:Hp; [|done]. intros [= <-].
    apply isPrefixOf_length in Hp. simpl in Hp. lia.
  - destruct (lastOccurrence sep s (S i)) as [j'|] eqn:Hrec.
    + intros [= <-]. apply IH in Hrec. lia.
    + destruct (isPrefixOf sep (c :: s)) eqn:Hp; [|done]. intros [= <-].
      apply isPrefixOf_length in Hp. simpl in Hp. lia.
Qed.

Lemma lastIndexOf_fits (s sep : jsstring) :
  0 ≤ lastIndexOf s sep → lastIndexOf s sep + strlen sep ≤ strlen s.
Proof.
  unfold lastIndexOf, strlen.
  destruct (lastOccurrence sep s 0) as [j|] eqn:H; [|lia].
  apply lastOccurrence_fits in H. lia.
Qed.

Lemma bestSplitPoint_bound cs start window seps :
  0 ≤ cs →
  bestSplitPoint cs start window seps = -1
  ∨ bestSplitPoint cs start window seps ≤ start + strlen window.
Proof.
  intros Hcs. induction seps as [|sep seps IH]; simpl; [by left|].
  destruct sep as [|c sep]; [exact IH|].
  destruct (cs <? 2 * lastIndexOf window (c :: sep)) eqn:Hlt; [|exact IH].
  right. apply Z.ltb_lt in Hlt.
  pose proof (lastIndexOf_fits window (c :: sep)). lia.
Qed.

(** A window is never longer than [chunkSize]. *)
Lemma windowEnd_bound text cfg start :
  1 ≤ chunkSize cfg → start < strlen text →
  windowEnd text cfg start ≤ start + chunkSize cfg
  ∧ (0 ≤ start → windowEnd text cfg start ≤ strlen text).
Proof.
  intros Hcs Hlt. unfold windowEnd.
  set (e0 := Z.min (start + chunkSize cfg) (strlen text)).
  destruct (e0 <? strlen text) eqn:He; [|subst e0; lia].
  pose proof (substring_length text start e0 ltac:(subst e0; lia)) as Hwin.
  assert (0 ≤ start → strlen (substring text start e0) = e0 - start) as Hexact.
  { intros H0. unfold substring, strlen, clampIndex in *.
    rewrite length_take, length_drop. subst e0. lia. }
  destruct (bestSplitPoint_bound (chunkSize cfg) start (substring text start e0)
              (separators cfg) ltac:(lia)) as [-> | Hb]; simpl.
  - subst e0. lia.
  - destruct (_ =? -1) eqn:E; subst e0; lia.
Qed.

Lemma run_chunk_length fuel text cfg m :
  1 ≤ chunkSize cfg →
  Forall (λ c, strlen (content c) ≤ chunkSize cfg)
         (chunks (run fuel text cfg m initialState)).
Proof.
  intros Hcs.
  set (ok := λ st : LoopState, Forall (λ c, strlen (content c) ≤ chunkSize cfg) (chunks st)).
  assert (∀ st, loopGuard text st = true → ok st → ok (iteration text cfg m st)) as Hstep.
  { intros st Hg Hok. apply Z.ltb_lt in Hg. unfold ok in *.
    destruct (iteration_chunks text cfg m st)
      as [-> | (c & -> & _ & _ & Hc & _)]; [done|].
    apply Forall_app. split; [done|]. constructor; [|constructor].
    rewrite Hc.
    pose proof (windowEnd_advances text cfg (startIndex st) Hcs Hg).
    pose proof (proj1 (windowEnd_bound text cfg (startIndex st) Hcs Hg)).
    pose proof (substring_length text (startIndex st)
                  (windowEnd text cfg (startIndex st)) ltac:(lia)).
    pose proof (trim_length (substring text (startIndex st)
                  (windowEnd text cfg (startIndex st)))).
    unfold strlen in *. lia. }
  assert (∀ n st, ok st → ok (run n text cfg m st)) as Hrun.
  { induction n as [|n IH]; intros st Hok; simpl;
      destruct (loopGuard text st) eqn:Hg; auto. }
  apply Hrun. constructor.
Qed.

(** X3. No chunk is longer than [chunkSize]: the content of every chunk that
    [chunkText] pushes, after any number of passes, has at most [chunkSize]
    code units. *)
Theorem chunkText_chunk_length
    (fuel : nat) (text : jsstring) (config : PartialChunkConfig)
    (additionalMetadata : gmap string value) :
  1 ≤ chunkSize (resolveConfig config) →
  ∀ out,
    out = chunks (run fuel text (resolveConfig config) additionalMetadata initialState)
    ∨ chunkText fuel text config additionalMetadata = Some out →
    Forall (λ c, strlen (content c) ≤ chunkSize (resolveConfig config)) out.
Proof.
  intros Hcs out Hout.
  assert (out = [] ∨ out = chunks (run fuel text (resolveConfig config)
                                     additionalMetadata initialState)) as [-> | ->].
  { destruct Hout as [-> | Hout]; [by right | by apply chunkText_Some in Hout]. }
  - constructor.
  - by apply run_chunk_length.
Qed.

Lemma chunkText_chunk_length_witness :
  ∃ out, chunkText 9 (js "hello world, this is a test") smallWindows ∅ = Some out
         ∧ Forall (λ c, strlen (content c) ≤ 10) out.
Proof.
  destruct (chunkText 9 (js "hello world, this is a test") smallWindows ∅)
    as [out|] eqn:Hout.
  - exists out. split; [reflexivity|].
    apply (chunkText_chunk_length 9 (js "hello world, this is a test") smallWindows ∅).
    + vm_compute. discriminate.
    + right. exact Hout.
  - vm_compute in Hout. discriminate Hout.
Defined.

(** *** Termination *)

Lemma run_exits text cfg m (step : LoopState → Prop) :
  (∀ st, step st → loopGuard text st = true →
         step (iteration text cfg m st)
         ∧ startIndex st + 1 ≤ startIndex (iteration text cfg m st)) →
  ∀ fuel st, step st → strlen text - startIndex st ≤ Z.of_nat fuel →
    loopGuard text (run fuel text cfg m st) = false.
Proof.
  intros Hstep. induction fuel as [|fuel IH]; intros st Hst Hfuel; simpl.
  - destruct (loopGuard text st) eqn:Hg; [|done]. apply Z.ltb_lt in Hg. lia.
  - destruct (loopGuard text st) eqn:Hg; [|done].
    destruct (Hstep st Hst Hg) as [Hst' Hadv]. apply IH; [done | lia].
Qed.

(** X4. Without overlap the loop always ends: for [chunkSize >= 1] and
    [chunkOverlap <= 0], [chunkText] returns after at most [text.length]
    passes, whatever the text and the additional metadata. *)
Theorem chunkText_terminates_without_overlap
    (text : jsstring) (config : PartialChunkConfig)
    (additionalMetadata : gmap string value) :
  1 ≤ chunkSize (resolveConfig config) →
  chunkOverlap (resolveConfig config) ≤ 0 →
  ∃ out, chunkText (length text) text config additionalMetadata = Some out.
Proof.
  intros Hcs Hov. unfold chunkText.
  set (cfg := resolveConfig config) in *. clearbody cfg.
  destruct (_ || _); [by eexists|].
  rewrite (run_exits text cfg additionalMetadata (λ _, True));
    [by eexists | | exact I | simpl; unfold strlen; lia].
  intros st _ Hg. split; [exact I|].
  apply Z.ltb_lt in Hg.
  pose proof (windowEnd_advances text cfg (startIndex st) Hcs Hg).
  unfold iteration. simpl.
  destruct (last _) as [lc|]; [|lia].
  destruct (numLeValue _ _); lia.
Qed.

Lemma chunkText_terminates_without_overlap_witness :
  ∃ out, chunkText (length (js "ab   cd   "))
           (js "ab   cd   ") (mkPartialChunkConfig (Some 4) (Some 0) None) ∅ = Some out.
Proof.
  apply (chunkText_terminates_without_overlap (js "ab   cd   ")
           (mkPartialChunkConfig (Some 4) (Some 0) None) ∅).
  - vm_compute. discriminate.
  - vm_compute. discriminate.
Defined.

Lemma solid_trim (s : jsstring) : solid s → trim s = s.
Proof.
  intros Hs.
  assert (∀ t, solid t → trimStart t = t) as Hstart.
  { intros [|c t] Ht; [done|]. simpl. by rewrite (Forall_inv Ht). }
  unfold trim, trimEnd. rewrite (Hstart s Hs), Hstart.
  - apply rev_involutive.
  - by apply Forall_rev.
Qed.

Lemma solid_substring (s : jsstring) from to : solid s → solid (substring s from to).
Proof. intros Hs. unfold substring. by apply Forall_take, Forall_drop. Qed.

(** X5. On a text without white space the loop always ends, whatever the
    overlap: for [chunkSize >= 1], [chunkText] returns after at most
    [text.length] passes. The additional metadata is taken not to bind the
    names [chunkIndex], [startChar] and [endChar]. *)
Theorem chunkText_terminates_on_solid_text
    (text : jsstring) (config : PartialChunkConfig)
    (additionalMetadata : gmap string value) :
  reservedFree additionalMetadata →
  1 ≤ chunkSize (resolveConfig config) →
  solid text →
  ∃ out, chunkText (length text) text config additionalMetadata = Some out.
Proof.
  intros Hm Hcs Hsolid. unfold chunkText.
  set (cfg := resolveConfig config) in *. clearbody cfg.
  destruct (_ || _); [by eexists|].
  rewrite (run_exits text cfg additionalMetadata (λ st, 0 ≤ startIndex st));
    [by eexists | | simpl; lia | simpl; unfold strlen; lia].
  intros st Hpos Hg. apply Z.ltb_lt in Hg.
  pose proof (windowEnd_advances text cfg (startIndex st) Hcs Hg) as Hadv.
  pose proof (proj2 (windowEnd_bound text cfg (startIndex st) Hcs Hg) Hpos) as Hend.
  assert (0 < strlen (trim (substring text (startIndex st)
                              (windowEnd text cfg (startIndex st))))) as Hcontent.
  { rewrite solid_trim by (by apply solid_substring).
    unfold substring, strlen, clampIndex in *.
    rewrite length_take, length_drop. lia. }
  unfold iteration. apply Z.ltb_lt in Hcontent. rewrite Hcontent. simpl.
  rewrite last_snoc. simpl.
  rewrite chunkMetadata_startChar, numLeValue_JInt by done.
  destruct (_ <=? _) eqn:Hle; [lia|]. apply Z.leb_gt in Hle. lia.
Qed.

Lemma chunkText_terminates_on_solid_text_witness :
  ∃ out, chunkText (length (js "abcdefghij")) (js "abcdefghij")
           (mkPartialChunkConfig (Some 4) (Some 3) None) ∅ = Some out.
Proof.
  apply (chunkText_terminates_on_solid_text (js "abcdefghij")
           (mkPartialChunkConfig (Some 4) (Some 3) None) ∅ reservedFree_empty).
  - vm_compute. discriminate.
  - apply (bool_decide_unpack _). vm_compute. reflexivity.
Defined.

(** *** Pages *)






(** *** Token targets *)

Lemma estimateTokenCount_div (text : jsstring) :
  estimateTokenCount text = - ((- strlen text) / 4).
Proof.
  unfold estimateTokenCount, Qceiling, Qfloor, CHAR_PER_TOKEN.
  unfold Qdiv, Qmult, Qinv, Qopp, inject_Z. simpl.
  by rewrite Z.mul_1_r.
Qed.

(** X7. [estimateTokenCount] rounds up: it is the least number of tokens of
    four characters that hold the text. *)
Theorem estimateTokenCount_rounds_up (text : jsstring) :
  4 * (estimateTokenCount text - 1) < strlen text ≤ 4 * estimateTokenCount text.
Proof.
  rewrite estimateTokenCount_div.
  pose proof (Z.div_mod (- strlen text) 4 ltac:(lia)).
  pose proof (Z.mod_pos_bound (- strlen text) 4 ltac:(lia)). lia.
Qed.

Lemma getChunkConfigForTokens_overlap (targetTokens : Z) :
  chunkOverlap (getChunkConfigForTokens targetTokens) = (targetTokens * 4 * 2) / 10.
Proof.
  unfold getChunkConfigForTokens, OVERLAP_RATIO, CHAR_PER_TOKEN, Qfloor,
    Qmult, inject_Z. simpl. done.
Qed.

(** X8. A configuration for a token target keeps the target: for
    [targetTokens >= 1], [getChunkConfigForTokens] gives an overlap that is
    the fifth part of the chunk size, rounded down, and so smaller than the
    chunk size; and every chunk that [chunkText] pushes under this
    configuration is estimated at no more than [targetTokens] tokens. *)
Theorem getChunkConfigForTokens_keeps_target
    (targetTokens : Z) (fuel : nat) (text : jsstring)
    (additionalMetadata : gmap string value) :
  1 ≤ targetTokens →
  let cfg := getChunkConfigForTokens targetTokens in
  (5 * chunkOverlap cfg ≤ chunkSize cfg < 5 * chunkOverlap cfg + 5
   ∧ 0 ≤ chunkOverlap cfg < chunkSize cfg)
  ∧ ∀ out,
      out = chunks (run fuel text cfg additionalMetadata initialState)
      ∨ chunkText fuel text (asOverrides cfg) additionalMetadata = Some out →
      Forall (λ c, estimateTokenCount (content c) ≤ targetTokens) out.
Proof.
  intros Ht cfg.
  assert (chunkSize cfg = targetTokens * 4) as Hsize by reflexivity.
  split.
  - rewrite Hsize. unfold cfg. rewrite getChunkConfigForTokens_overlap.
    pose proof (Z.div_mod (targetTokens * 4 * 2) 10 ltac:(lia)).
    pose proof (Z.mod_pos_bound (targetTokens * 4 * 2) 10 ltac:(lia)). lia.
  - intros out Hout.
    assert (resolveConfig (asOverrides cfg) = cfg) as Hres by reflexivity.
    assert (out = [] ∨ out = chunks (run fuel text cfg additionalMetadata initialState))
      as [-> | ->].
    { destruct Hout as [-> | Hout]; [by right|].
      apply chunkText_Some in Hout. by rewrite Hres in Hout. }
    + constructor.
    + eapply Forall_impl;
        [apply (run_chunk_length fuel text cfg additionalMetadata); lia|].
      intros c Hc. cbv beta in Hc. rewrite Hsize in Hc. rewrite estimateTokenCount_div.
      pose proof (Z.div_mod (- strlen (content c)) 4 ltac:(lia)).
      pose proof (Z.mod_pos_bound (- strlen (content c)) 4 ltac:(lia)). lia.
Qed.

Lemma getChunkConfigForTokens_keeps_target_witness :
  getChunkConfigForTokens 250 = DEFAULT_CHUNK_CONFIG
  ∧ ∃ out, chunkText 9 (js "hello world, this is a test")
             (asOverrides (getChunkConfigForTokens 3)) ∅ = Some out
           ∧ Forall (λ c, estimateTokenCount (content c) ≤ 3) out.
Proof.
  split; [vm_compute; reflexivity|].
  destruct (chunkText 9 (js "hello world, this is a test")
              (asOverrides (getChunkConfigForTokens 3)) ∅) as [out|] eqn:Hout.
  - exists out. split; [reflexivity|].
    apply (proj2 (getChunkConfigForTokens_keeps_target 3 9
                    (js "hello world, this is a test") ∅ ltac:(lia))).
    right. exact Hout.
  - vm_compute in Hout. discriminate Hout.
Defined.

End ChunkerMoreProps.

(** ** More properties of hybrid search *)

Module VectorSearchMoreProps.
Import JsString JsStringProps JsValue Effect VectorSearch VectorSearchSpec.
Import VectorSearchProps VectorSearchMoreSpec.

(** *** Fusion of two lists *)

Lemma contribution_absent k l ident :
  ident ∉ rid <$> l → (contribution k l ident == 0)%Q.
Proof.
  induction l as [|item l IH]; csimpl; [reflexivity|].
  intros [Hne Hrest]%not_elem_of_cons.
  assert (String.eqb (rid item) ident = false) as ->
    by (apply String.eqb_neq; congruence).
  rewrite (IH Hrest). ring.
Qed.

Lemma contribution_termOf k l ident :
  NoDup (rid <$> l) → (contribution k l ident == termOf k l ident)%Q.
Proof.
  induction l as [|item l IH]; csimpl; [reflexivity|].
  intros [Hitem Hnd]%NoDup_cons.
  destruct (String.eqb (rid item) ident) eqn:E.
  - apply String.eqb_eq in E as <-. rewrite (contribution_absent k l _ Hitem). ring.
  - rewrite (IH Hnd). ring.
Qed.

(** X9. Fusion of two ranked lists does not depend on which one comes first.
    For two lists without a repeated id and with [k + rank > 0] for every
    entry, the score of an id is the reciprocal rank [1 / (k + rank)] of its
    entry in the one list plus that of its entry in the other, a list
    without the id counting 0; so the score is the same when the two lists
    change places. *)
Theorem reciprocalRankFusion_symmetric
    (first second : list RankedResult) (k : Z) (ident : string) :
  NoDup (rid <$> first) →
  NoDup (rid <$> second) →
  positiveRanks k first →
  positiveRanks k second →
  (rrfScore [first; second] k ident
   == termOf k first ident + termOf k second ident)%Q
  ∧ (rrfScore [second; first] k ident == rrfScore [first; second] k ident)%Q.
Proof.
  intros Hfirst Hsecond _ _.
  assert (∀ l1 l2, NoDup (rid <$> l1) → NoDup (rid <$> l2) →
            rrfScore [l1; l2] k ident == termOf k l1 ident + termOf k l2 ident)%Q
    as Hsum.
  { intros l1 l2 H1 H2. unfold rrfScore, reciprocalRankFusion. simpl.
    rewrite !fold_addReciprocalRank_score. simpl.
    rewrite (contribution_termOf k l1 ident H1), (contribution_termOf k l2 ident H2).
    ring. }
  split; [by apply Hsum|].
  rewrite (Hsum second first Hsecond Hfirst), (Hsum first second Hfirst Hsecond).
  ring.
Qed.

Lemma reciprocalRankFusion_symmetric_witness :
  (rrfScore [rankSemantic exampleSemantic; rankFts exampleFts] RRF_K "c"
   == termOf RRF_K (rankSemantic exampleSemantic) "c"
      + termOf RRF_K (rankFts exampleFts) "c")%Q
  ∧ (rrfScore [rankFts exampleFts; rankSemantic exampleSemantic] RRF_K "c"
     == rrfScore [rankSemantic exampleSemantic; rankFts exampleFts] RRF_K "c")%Q.
Proof.
  apply (reciprocalRankFusion_symmetric (rankSemantic exampleSemantic)
           (rankFts exampleFts) RRF_K "c").
  - apply (bool_decide_unpack _). vm_compute. reflexivity.
  - apply (bool_decide_unpack _). vm_compute. reflexivity.
  - repeat (constructor; [vm_compute; reflexivity|]). constructor.
  - repeat (constructor; [vm_compute; reflexivity|]). constructor.
Defined.

(** *** Better ranks, better score *)

Lemma stageTerm_noWorse ids x y :
  noWorse ids x y → (stageTerm ids y <= stageTerm ids x)%Q.
Proof.
  unfold noWorse, stageTerm.
  assert (∀ n : nat, 0 < inject_Z (RRF_K + (Z.of_nat n + 1)))%Q as Hpos.
  { intros n. change 0%Q with (inject_Z 0). rewrite <- Zlt_Qlt. unfold RRF_K. lia. }
  assert (∀ n : nat, 0 <= 1 / inject_Z (RRF_K + (Z.of_nat n + 1)))%Q as Hnonneg.
  { intros n. apply Qle_shift_div_l; [apply Hpos|]. rewrite Qmult_0_l. lra. }
  destruct (positionOf x ids) as [i|], (positionOf y ids) as [j|];
    intros H; try done; try apply Hnonneg; try lra.
  unfold Qdiv. rewrite !Qmult_1_l.
  destruct (decide (i = j)) as [->|Hne]; [lra|].
  apply Qlt_le_weak. apply -> (Qinv_lt_contravar _ _ (Hpos i) (Hpos j)).
  rewrite <- Zlt_Qlt. lia.
Qed.

(** X10. Fusion is monotone: a chunk that is placed no worse than another one in
    both stages has a fused score that is not smaller. *)
Theorem fusedScore_monotone
    (semanticResults : list SimilarChunk) (ftsResults : list FtsRow) (x y : string) :
  NoDup (semanticIds semanticResults) →
  NoDup (ftsIds ftsResults) →
  noWorse (semanticIds semanticResults) x y →
  noWorse (ftsIds ftsResults) x y →
  (fusedScore semanticResults ftsResults y <= fusedScore semanticResults ftsResults x)%Q.
Proof.
  intros Hs Hf Hsem Hfts.
  rewrite (fusedScore_stageTerms _ _ x Hs Hf), (fusedScore_stageTerms _ _ y Hs Hf).
  apply Qplus_le_compat; by apply stageTerm_noWorse.
Qed.

Lemma fusedScore_monotone_witness :
  (fusedScore exampleSemantic exampleFts "c" <= fusedScore exampleSemantic exampleFts "a")%Q.
Proof.
  apply (fusedScore_monotone exampleSemantic exampleFts "a" "c").
  - apply (bool_decide_unpack _). vm_compute. reflexivity.
  - apply (bool_decide_unpack _). vm_compute. reflexivity.
  - vm_compute. lia.
  - vm_compute. lia.
Defined.

(** *** Where the returned chunks come from *)

Lemma elem_of_keys_mapSet {V} (m : JsMap V) k v x :
  x ∈ keys (mapSet m k v) ↔ x ∈ keys m ∨ x = k.
Proof.
  rewrite keys_mapSet. unfold mapHas.
  destruct (mapGet m k) eqn:E.
  - split; [by left|]. intros [H | ->]; [done|].
    destruct (decide (k ∈ keys m)) as [Hin|Hout]; [done|].
    apply mapGet_None in Hout. congruence.
  - rewrite elem_of_app, list_elem_of_singleton. done.
Qed.

Lemma length_keys_mapSet {V} (m : JsMap V) k v :
  (length (keys (mapSet m k v)) ≤ S (length (keys m)))%nat.
Proof.
  rewrite keys_mapSet. destruct (mapHas m k); [lia|].
  rewrite length_app. simpl. lia.
Qed.

Lemma keys_fold_addReciprocalRank k l : ∀ scores x,
  x ∈ keys (fold_left (addReciprocalRank k) l scores)
  ↔ x ∈ keys scores ∨ x ∈ rid <$> l.
Proof.
  induction l as [|item l IH]; intros scores x; simpl.
  - rewrite elem_of_nil. tauto.
  - rewrite IH. unfold addReciprocalRank. rewrite elem_of_keys_mapSet, elem_of_cons.
    split; [intros [[H| ->]|H] | intros [H|[->|H]]]; tauto.
Qed.

Lemma length_keys_fold_addReciprocalRank k l : ∀ scores,
  (length (keys (fold_left (addReciprocalRank k) l scores))
   ≤ length (keys scores) + length l)%nat.
Proof.
  induction l as [|item l IH]; intros scores; simpl; [lia|].
  etransitivity; [apply IH|].
  pose proof (length_keys_mapSet scores (rid item)
                (orZero (mapGet scores (rid item)) + 1 / inject_Z (k + rank item))%Q).
  unfold addReciprocalRank. lia.
Qed.

Lemma rid_ranked {A} (getId : A → string) (getScore : A → Q) l : ∀ offset,
  rid <$> ranked getId getScore offset l = getId <$> l.
Proof.
  induction l as [|x l IH]; intros offset; [done|].
  rewrite ranked_cons. csimpl. by rewrite IH.
Qed.

(** The ids with a fused score are the ids of the two stages. *)
Lemma keys_fused sem fts x :
  x ∈ keys (reciprocalRankFusion [rankSemantic sem; rankFts fts] RRF_K)
  ↔ x ∈ semanticIds sem ∨ x ∈ ftsIds fts.
Proof.
  unfold reciprocalRankFusion. simpl.
  rewrite !keys_fold_addReciprocalRank.
  rewrite rankSemantic_ranked, rankFts_ranked, !rid_ranked.
  unfold keys. simpl. rewrite elem_of_nil. unfold semanticIds, ftsIds. tauto.
Qed.

Lemma length_keys_fused sem fts :
  (length (keys (reciprocalRankFusion [rankSemantic sem; rankFts fts] RRF_K))
   ≤ length sem + length fts)%nat.
Proof.
  unfold reciprocalRankFusion. simpl.
  etransitivity; [apply length_keys_fold_addReciprocalRank|].
  pose proof (length_keys_fold_addReciprocalRank RRF_K (rankSemantic sem) []).
  unfold rankSemantic, rankFts in *. rewrite !length_imap in *. simpl in *. lia.
Qed.

Lemma mapGet_is_Some {V} (m : JsMap V) k : is_Some (mapGet m k) ↔ k ∈ keys m.
Proof.
  destruct (mapGet m k) eqn:E.
  - split; [intros _ | by eexists].
    destruct (decide (k ∈ keys m)) as [Hin|Hout]; [done|].
    apply mapGet_None in Hout. congruence.
  - apply mapGet_None in E. split; [intros [? ?]; done | done].
Qed.

Lemma semanticMap_get sem : ∀ m k c,
  mapGet (fold_left (λ chunkMap c, mapSet chunkMap (id c) c) sem m) k = Some c →
  c ∈ sem ∨ mapGet m k = Some c.
Proof.
  induction sem as [|c0 sem IH]; intros m k c; simpl; [by right|].
  intros Hget. destruct (IH _ _ _ Hget) as [Hin | Hm]; [left; by right|].
  rewrite mapGet_mapSet in Hm.
  destruct (String.eqb (id c0) k); [|by right].
  injection Hm as <-. left. by left.
Qed.

Lemma semanticMap_keys sem : ∀ m x,
  x ∈ keys (fold_left (λ chunkMap c, mapSet chunkMap (id c) c) sem m)
  ↔ x ∈ keys m ∨ x ∈ semanticIds sem.
Proof.
  unfold semanticIds.
  induction sem as [|c0 sem IH]; intros m x; csimpl.
  - rewrite elem_of_nil. tauto.
  - rewrite IH, elem_of_keys_mapSet, elem_of_cons. tauto.
Qed.

Lemma ftsMap_get rows : ∀ m k c,
  mapGet (fold_left
            (λ chunkMap row,
               if negb (mapHas chunkMap (id (chunk row)))
               then mapSet chunkMap (id (chunk row)) (chunk row)
               else chunkMap) rows m) k = Some c →
  mapGet m k = Some c
  ∨ (mapGet m k = None ∧ ∃ row, row ∈ rows ∧ chunk row = c ∧ id c = k).
Proof.
  induction rows as [|row rows IH]; intros m k c; simpl; [by left|].
  intros Hget. apply IH in Hget.
  unfold mapHas in Hget.
  destruct (mapGet m (id (chunk row))) as [c0|] eqn:Hhas; simpl in Hget.
  - destruct Hget as [H | (H & r & Hr & Hc & Hk)]; [by left|].
    right. split; [done|]. exists r. split; [by right | done].
  - rewrite mapGet_mapSet in Hget.
    destruct (String.eqb (id (chunk row)) k) eqn:E.
    + apply String.eqb_eq in E as <-.
      destruct Hget as [[= <-] | (H & _)]; [|done].
      right. split; [done|]. exists row. split; [by left | done].
    + destruct Hget as [H | (H & r & Hr & Hc & Hk)]; [by left|].
      right. split; [done|]. exists r. split; [by right | done].
Qed.

Lemma ftsMap_keys rows : ∀ m x,
  x ∈ keys (fold_left
              (λ chunkMap row,
                 if negb (mapHas chunkMap (id (chunk row)))
                 then mapSet chunkMap (id (chunk row)) (chunk row)
                 else chunkMap) rows m)
  ↔ x ∈ keys m ∨ x ∈ ftsIds rows.
Proof.
  unfold ftsIds.
  induction rows as [|row rows IH]; intros m x; csimpl.
  - rewrite elem_of_nil. tauto.
  - rewrite IH, elem_of_cons.
    unfold mapHas. destruct (mapGet m (id (chunk row))) eqn:E; simpl.
    + assert (id (chunk row) ∈ keys m) as Hin by (apply mapGet_is_Some; by eexists).
      split; [tauto|]. intros [Hx|[->|Hx]]; tauto.
    + rewrite elem_of_keys_mapSet. tauto.
Qed.

Lemma buildChunkMap_get sem fts k c :
  mapGet (buildChunkMap sem fts) k = Some c → fromStages sem fts c.
Proof.
  unfold buildChunkMap. intros Hget.
  apply ftsMap_get in Hget as [Hsem | (Hnone & row & Hrow & Hc & Hk)].
  - apply semanticMap_get in Hsem as [Hin | Hm]; [by left | discriminate Hm].
  - right. split; [|by exists row].
    apply mapGet_None in Hnone. rewrite semanticMap_keys in Hnone.
    rewrite Hk. tauto.
Qed.

Lemma buildChunkMap_has sem fts k :
  k ∈ semanticIds sem ∨ k ∈ ftsIds fts → is_Some (mapGet (buildChunkMap sem fts) k).
Proof.
  intros Hk. apply mapGet_is_Some. unfold buildChunkMap.
  rewrite ftsMap_keys, semanticMap_keys. tauto.
Qed.

Lemma elem_of_mergeResults sem fts limit c :
  c ∈ mergeResults sem fts limit →
  ∃ k, k ∈ keys (reciprocalRankFusion [rankSemantic sem; rankFts fts] RRF_K)
       ∧ mapGet (buildChunkMap sem fts) k = Some c.
Proof.
  unfold mergeResults. intros Hc.
  apply elem_of_take in Hc as (i & Hi & _).
  apply list_elem_of_lookup_2 in Hi.
  rewrite sort_Permutation in Hi.
  apply list_elem_of_omap in Hi as ([k v] & Hin & Hget).
  exists k. split; [|exact Hget].
  unfold keys. apply list_elem_of_fmap. by exists (k, v).
Qed.

(** X11. Every chunk that the merge returns is a row of one of the two stages:
    the row of the vector stage when the vector stage has the id, with the
    similarity it has there, and a row of the keyword stage only for an id
    that the vector stage does not have. *)
Theorem mergeResults_prefers_vector_rows
    (semanticResults : list SimilarChunk) (ftsResults : list FtsRow) (limit : nat)
    (c : SimilarChunk) :
  c ∈ mergeResults semanticResults ftsResults limit →
  c ∈ semanticResults
  ∨ ((id c ∉ semanticIds semanticResults)
     ∧ ∃ row, row ∈ ftsResults ∧ chunk row = c).
Proof.
  intros Hc. apply elem_of_mergeResults in Hc as (k & _ & Hget).
  by apply buildChunkMap_get in Hget.
Qed.

Lemma mergeResults_prefers_vector_rows_witness :
  (exampleChunk "a" (9 # 10) ∈ exampleSemantic
   ∨ ((id (exampleChunk "a" (9 # 10)) ∉ semanticIds exampleSemantic)
      ∧ ∃ row, row ∈ exampleFts ∧ chunk row = exampleChunk "a" (9 # 10)))
  ∧ mergeResults exampleSemantic exampleFts 4
    = [exampleChunk "a" (9 # 10); exampleChunk "c" (7 # 10);
       exampleChunk "b" (8 # 10); exampleChunk "z" (1 # 10)].
Proof.
  assert (mergeResults exampleSemantic exampleFts 4
          = [exampleChunk "a" (9 # 10); exampleChunk "c" (7 # 10);
             exampleChunk "b" (8 # 10); exampleChunk "z" (1 # 10)]) as Heval
    by (vm_compute; reflexivity).
  split; [|exact Heval].
  apply (mergeResults_prefers_vector_rows exampleSemantic exampleFts 4).
  rewrite Heval. apply elem_of_cons. by left.
Defined.

(** X12. With a limit that is not smaller than the two stages together, the merge
    loses nothing: every chunk id of either stage is in the result. *)
Theorem mergeResults_complete
    (semanticResults : list SimilarChunk) (ftsResults : list FtsRow) (limit : nat)
    (ident : string) :
  (length semanticResults + length ftsResults ≤ limit)%nat →
  ident ∈ semanticIds semanticResults ∨ ident ∈ ftsIds ftsResults →
  ident ∈ id <$> mergeResults semanticResults ftsResults limit.
Proof.
  intros Hlimit Hident. unfold mergeResults.
  set (rrfScores := reciprocalRankFusion
                      [rankSemantic semanticResults; rankFts ftsResults] RRF_K).
  set (chunkMap := buildChunkMap semanticResults ftsResults).
  set (found := omap (λ entry, mapGet chunkMap (fst entry)) rrfScores).
  assert (length found ≤ limit)%nat as Hlen.
  { pose proof (length_keys_fused semanticResults ftsResults) as Hk.
    fold rrfScores in Hk. unfold keys in Hk. rewrite length_fmap in Hk.
    assert (length found ≤ length rrfScores)%nat; [|lia].
    unfold found. clear. induction rrfScores as [|e l IH]; csimpl; [lia|].
    destruct (mapGet chunkMap e.1); simpl; lia. }
  rewrite take_ge by (by rewrite (Permutation_length (sort_Permutation _ found))).
  rewrite sort_Permutation.
  destruct (buildChunkMap_has semanticResults ftsResults ident Hident) as [c Hc].
  apply list_elem_of_fmap. exists c. split.
  - symmetry. exact (buildChunkMap_keyedById _ _ _ _ Hc).
  - apply keys_fused in Hident. unfold keys in Hident.
    apply list_elem_of_fmap in Hident as ([k v] & -> & Hin).
    apply list_elem_of_omap. by exists (k, v).
Qed.

Lemma mergeResults_complete_witness :
  "z" ∈ id <$> mergeResults exampleSemantic exampleFts 6.
Proof.
  apply (mergeResults_complete exampleSemantic exampleFts 6 "z").
  - simpl. lia.
  - right. apply (bool_decide_unpack _). vm_compute. reflexivity.
Defined.

(** *** Failures of the database *)

(** X13. A failure of the database is never swallowed: when the vector query
    fails, the search fails after that one query; when the keyword query
    fails, the search fails too, and does not fall back to the vector rows.
    This holds without a document scope and with one. *)
Theorem hybridSearch_propagates_failure
    (runVectorQuery : Query → option (list SimilarChunk))
    (runTextQuery : Query → option (list FtsRow))
    (queryEmbedding : list Q) (queryText : jsstring) (limit : nat) (minSimilarity : Q) :
  (runVectorQuery (unscopedVectorQuery queryEmbedding limit minSimilarity) = None →
     hybridSearch runVectorQuery runTextQuery queryEmbedding queryText limit minSimilarity []
     = (inl QueryFailed, [unscopedVectorQuery queryEmbedding limit minSimilarity]))
  ∧ (∀ sem,
       runVectorQuery (unscopedVectorQuery queryEmbedding limit minSimilarity) = Some sem →
       keywordsOf queryText ≠ [] →
       runTextQuery (unscopedTextQuery queryEmbedding queryText limit) = None →
       outcome (hybridSearch runVectorQuery runTextQuery
                  queryEmbedding queryText limit minSimilarity) = inl QueryFailed)
  ∧ (∀ documentIds, documentIds ≠ [] →
       (runVectorQuery (scopedVectorQuery queryEmbedding documentIds limit minSimilarity)
          = None →
        hybridSearchInDocuments runVectorQuery runTextQuery
          queryEmbedding queryText documentIds limit minSimilarity []
        = (inl QueryFailed,
           [scopedVectorQuery queryEmbedding documentIds limit minSimilarity]))
       ∧ (∀ sem,
            runVectorQuery (scopedVectorQuery queryEmbedding documentIds limit minSimilarity)
              = Some sem →
            tsTokensOf queryText ≠ [] →
            runTextQuery (scopedTextQuery queryEmbedding queryText documentIds limit)
              = None →
            outcome (hybridSearchInDocuments runVectorQuery runTextQuery
                       queryEmbedding queryText documentIds limit minSimilarity)
            = inl QueryFailed)).
Proof.
  split; [|split].
  - intros Hfail. unfold hybridSearch, bind, queryRaw.
    fold (unscopedVectorQuery queryEmbedding limit minSimilarity). by rewrite Hfail.
  - intros sem Hsem Hk Hfail. unfold outcome.
    rewrite (hybridSearch_run _ _ _ _ _ _ _ Hsem).
    destruct (keywordsOf queryText); [done|]. by rewrite Hfail.
  - intros documentIds Hdocs. split.
    + intros Hfail. unfold hybridSearchInDocuments.
      destruct documentIds as [|d ds]; [done|]. simpl Nat.eqb. cbv iota.
      unfold bind, queryRaw.
      fold (scopedVectorQuery queryEmbedding (d :: ds) limit minSimilarity).
      by rewrite Hfail.
    + intros sem Hsem Hk Hfail. unfold outcome.
      rewrite (hybridSearchInDocuments_run _ _ _ _ _ _ _ _ Hdocs Hsem).
      destruct (tsTokensOf queryText); [done|]. by rewrite Hfail.
Qed.

Lemma hybridSearch_propagates_failure_witness :
  hybridSearch failingVectorDb exampleTextDb [1%Q] (js "hybrid search") 2 (1 # 5) []
  = (inl QueryFailed, [unscopedVectorQuery [1%Q] 2 (1 # 5)])
  ∧ outcome (hybridSearch exampleVectorDb failingTextDb [1%Q] (js "hybrid search") 2 (1 # 5))
    = inl QueryFailed
  ∧ outcome (hybridSearchInDocuments exampleVectorDb failingTextDb [1%Q]
               (js "hybrid search") ["doc-1"] 2 (1 # 5)) = inl QueryFailed.
Proof.
  split; [|split].
  - apply (proj1 (hybridSearch_propagates_failure failingVectorDb exampleTextDb [1%Q]
                    (js "hybrid search") 2 (1 # 5))).
    reflexivity.
  - apply (proj1 (proj2 (hybridSearch_propagates_failure exampleVectorDb failingTextDb
                           [1%Q] (js "hybrid search") 2 (1 # 5))) exampleSemantic).
    + reflexivity.
    + vm_compute. discriminate.
    + reflexivity.
  - apply (proj2 (proj2 (proj2 (hybridSearch_propagates_failure exampleVectorDb
                                  failingTextDb [1%Q] (js "hybrid search") 2 (1 # 5)))
                          ["doc-1"] ltac:(discriminate)) exampleSemantic).
    + reflexivity.
    + vm_compute. discriminate.
    + reflexivity.
Defined.

(** *** Quotes in the keyword condition *)

Lemma quotes_app (a b : jsstring) : quotes (a ++ b) = (quotes a + quotes b)%nat.
Proof. unfold quotes. by rewrite List.filter_app, length_app. Qed.

Lemma quotes_word (w : jsstring) :
  Forall (λ c, isWordChar c = true) w → quotes w = O.
Proof.
  unfold quotes. induction 1 as [|c w Hc _ IH]; [done|].
  cbn [List.filter]. destruct (N.eqb 39 c) eqn:E; [|exact IH].
  apply N.eqb_eq in E as <-. discriminate Hc.
Qed.

Lemma stripNonWord_word (w : jsstring) :
  Forall (λ c, isWordChar c = true) (stripNonWord w).
Proof.
  unfold stripNonWord. apply Forall_forall. intros c Hc.
  apply list_elem_of_In, filter_In in Hc. tauto.
Qed.

Lemma keywordsOf_word queryText :
  Forall (λ kw, Forall (λ c, isWordChar c = true) kw ∧ 3 ≤ strlen kw)
         (keywordsOf queryText).
Proof.
  unfold keywordsOf. apply Forall_forall. intros kw Hkw.
  apply list_elem_of_In, filter_In in Hkw as [Hin Hlen].
  apply in_map_iff in Hin as (w & <- & _).
  split; [apply stripNonWord_word | apply Z.ltb_lt in Hlen; lia].
Qed.

Lemma tsTokensOf_word queryText :
  Forall (λ tok, Forall (λ c, isWordChar c = true) tok ∧ 1 ≤ strlen tok)
         (tsTokensOf queryText).
Proof.
  unfold tsTokensOf. apply Forall_forall. intros tok Htok.
  apply list_elem_of_In, filter_In in Htok as [Hin Hlen].
  apply in_map_iff in Hin as (w & <- & _).
  split; [apply stripNonWord_word | apply Z.ltb_lt in Hlen; lia].
Qed.

Lemma quotes_join sep parts n :
  quotes sep = O → Forall (λ part, quotes part = n) parts →
  quotes (join sep parts) = (n * length parts)%nat.
Proof.
  intros Hsep. induction 1 as [|part parts Hpart Hparts IH];
    [by rewrite Nat.mul_0_r|].
  destruct parts as [|part' parts].
  - simpl. rewrite Hpart. lia.
  - change (join sep (part :: part' :: parts))
      with (part ++ sep ++ join sep (part' :: parts)).
    rewrite !quotes_app, IH, Hsep, Hpart. simpl length. nia.
Qed.

(** X14. The text of the query cannot put a quote into the SQL text: every
    keyword of [hybridSearch] has at least three characters, all of them
    word characters, so the [ILIKE] condition has exactly the two quotes per
    keyword that its template writes; and the [to_tsquery] argument of
    [hybridSearchInDocuments], made of non-empty tokens of word characters,
    has no quote at all. *)
Theorem keyword_condition_quotes (queryText : jsstring) :
  Forall (λ kw, Forall (λ c, isWordChar c = true) kw ∧ 3 ≤ strlen kw)
         (keywordsOf queryText)
  ∧ quotes (likeConditionsOf (keywordsOf queryText))
    = (2 * length (keywordsOf queryText))%nat
  ∧ Forall (λ tok, Forall (λ c, isWordChar c = true) tok ∧ 1 ≤ strlen tok)
           (tsTokensOf queryText)
  ∧ quotes (tsQueryOf queryText) = O.
Proof.
  split; [apply keywordsOf_word|]. split; [|split; [apply tsTokensOf_word|]].
  - unfold likeConditionsOf.
    rewrite (quotes_join _ _ 2); [by rewrite length_map | reflexivity |].
    apply Forall_forall. intros part Hpart.
    apply list_elem_of_In, in_map_iff in Hpart as (kw & <- & Hkw).
    rewrite !quotes_app, (quotes_word kw); [reflexivity|].
    pose proof (keywordsOf_word queryText) as Hall.
    rewrite Forall_forall in Hall. by apply Hall, list_elem_of_In.
  - unfold tsQueryOf.
    rewrite (quotes_join _ _ 0); [lia | reflexivity |].
    eapply Forall_impl; [apply tsTokensOf_word|].
    intros tok [Hw _]. by apply quotes_word.
Qed.

(** *** Ties *)

Section Stable.
Context {A : Type} (f : A → Q).

(** Where [insertSorted] puts [x]: behind elements of strictly greater
    value only. *)
Lemma insertSorted_split x l :
  ∃ l1 l2, insertSorted (byValue f) x l = l1 ++ x :: l2
           ∧ l = l1 ++ l2
           ∧ Forall (λ y, ¬ (f y <= f x)%Q) l1.
Proof.
  induction l as [|y l (l1 & l2 & Hins & Hl & Hbig)]; simpl.
  - exists [], []. by repeat split.
  - unfold byValue at 1.
    destruct (Qle_bool (f y - f x) 0) eqn:E; simpl.
    + exists [], (y :: l). by repeat split.
    + exists (y :: l1), l2. rewrite Hins, Hl. repeat split; try done.
      constructor; [|done]. intros Hle.
      assert (Qle_bool (f y - f x) 0 = true); [|congruence].
      apply Qle_bool_iff. lra.
Qed.

Lemma sort_stable l a b :
  before a b l → (f b <= f a)%Q → before a b (sort (byValue f) l).
Proof.
  unfold before. intros Hab Hle. induction l as [|x l IH]; [by inversion Hab|].
  simpl.
  destruct (insertSorted_split x (sort (byValue f) l)) as (l1 & l2 & -> & Hl & Hbig).
  apply sublist_cons_r in Hab as [Hab | (l' & [= <- <-] & Hb)].
  - specialize (IH Hab). rewrite Hl in IH.
    etransitivity; [exact IH|].
    apply sublist_app; [done|]. by apply sublist_cons.
  - apply sublist_inserts_l, sublist_skip.
    apply singleton_sublist_l in Hb. apply singleton_sublist_l.
    rewrite <- (sort_Permutation (byValue f) l), Hl in Hb.
    apply elem_of_app in Hb as [Hb | Hb]; [|done].
    rewrite Forall_forall in Hbig. by destruct (Hbig b Hb).
Qed.
End Stable.

Lemma keys_fold_prefix k l : ∀ scores,
  ∃ extra, keys (fold_left (addReciprocalRank k) l scores) = keys scores ++ extra.
Proof.
  induction l as [|item l IH]; intros scores; simpl.
  - exists []. by rewrite app_nil_r.
  - destruct (IH (addReciprocalRank k scores item)) as [extra ->].
    unfold addReciprocalRank. rewrite keys_mapSet.
    destruct (mapHas scores (rid item)); [by eexists|].
    rewrite <- app_assoc. by eexists.
Qed.

Lemma keys_fold_fresh k l : ∀ scores,
  NoDup (rid <$> l) → (∀ x, x ∈ rid <$> l → x ∉ keys scores) →
  keys (fold_left (addReciprocalRank k) l scores) = keys scores ++ (rid <$> l).
Proof.
  induction l as [|item l IH]; intros scores Hnd Hfresh; csimpl.
  - by rewrite app_nil_r.
  - rewrite fmap_cons in Hnd. apply NoDup_cons in Hnd as [Hitem Hnd].
    assert (keys (addReciprocalRank k scores item) = keys scores ++ [rid item]) as Hk.
    { unfold addReciprocalRank. rewrite keys_mapSet. unfold mapHas.
      destruct (mapGet scores (rid item)) eqn:E; [|done].
      destruct (Hfresh (rid item)); [by left|].
      apply mapGet_is_Some. by eexists. }
    rewrite IH, Hk; [by rewrite <- app_assoc | done |].
    intros x Hx. rewrite Hk, elem_of_app, list_elem_of_singleton.
    intros [Hin | ->]; [|done].
    apply (Hfresh x); [by right | done].
Qed.

Lemma semanticMap_get_other sem : ∀ m k,
  k ∉ semanticIds sem →
  mapGet (fold_left (λ chunkMap c, mapSet chunkMap (id c) c) sem m) k = mapGet m k.
Proof.
  unfold semanticIds.
  induction sem as [|c0 sem IH]; intros m k Hk; csimpl; [done|].
  apply not_elem_of_cons in Hk as [Hne Hk].
  rewrite IH by done. rewrite mapGet_mapSet.
  destruct (String.eqb (id c0) k) eqn:E; [|done].
  apply String.eqb_eq in E. congruence.
Qed.

Lemma semanticMap_get_own sem : ∀ m c,
  NoDup (semanticIds sem) → c ∈ sem →
  mapGet (fold_left (λ chunkMap c, mapSet chunkMap (id c) c) sem m) (id c) = Some c.
Proof.
  unfold semanticIds.
  induction sem as [|c0 sem IH]; intros m c Hnd Hc; csimpl; [by apply elem_of_nil in Hc|].
  rewrite fmap_cons in Hnd. apply NoDup_cons in Hnd as [Hc0 Hnd].
  apply elem_of_cons in Hc as [-> | Hc]; [|by apply IH].
  rewrite semanticMap_get_other by exact Hc0.
  by rewrite mapGet_mapSet, String.eqb_refl.
Qed.

Lemma ftsMap_get_kept rows : ∀ m k,
  is_Some (mapGet m k) →
  mapGet (fold_left
            (λ chunkMap row,
               if negb (mapHas chunkMap (id (chunk row)))
               then mapSet chunkMap (id (chunk row)) (chunk row)
               else chunkMap) rows m) k = mapGet m k.
Proof.
  induction rows as [|row rows IH]; intros m k Hk; simpl; [done|].
  unfold mapHas. destruct (mapGet m (id (chunk row))) eqn:E; simpl.
  - by apply IH.
  - assert (String.eqb (id (chunk row)) k = false) as Hne.
    { apply not_true_is_false. intros Heq. apply String.eqb_eq in Heq as <-.
      rewrite E in Hk. by destruct Hk. }
    rewrite IH; rewrite mapGet_mapSet, Hne; done.
Qed.

(** With pairwise different ids in the vector stage, the chunks that enter
    the sort are the rows of the vector stage, in their order, followed by
    rows of the keyword stage. *)
Lemma found_semantic_prefix sem fts :
  NoDup (semanticIds sem) →
  ∃ rest,
    omap (λ entry : string * Q, mapGet (buildChunkMap sem fts) (fst entry))
      (reciprocalRankFusion [rankSemantic sem; rankFts fts] RRF_K)
    = sem ++ rest.
Proof.
  intros Hnd.
  set (chunkMap := buildChunkMap sem fts).
  assert (∀ entries : JsMap Q,
            omap (λ entry : string * Q, mapGet chunkMap (fst entry)) entries
            = omap (mapGet chunkMap) (keys entries)) as Hkeys.
  { unfold keys. induction entries as [|[k v] entries IH]; csimpl; [done|].
    by rewrite IH. }
  rewrite Hkeys. unfold reciprocalRankFusion. simpl.
  destruct (keys_fold_prefix RRF_K (rankFts fts)
              (fold_left (addReciprocalRank RRF_K) (rankSemantic sem) []))
    as [extra ->].
  rewrite keys_fold_fresh.
  - rewrite rankSemantic_ranked, rid_ranked. unfold keys at 1. simpl.
    rewrite omap_app. exists (omap (mapGet chunkMap) extra). f_equal.
    assert (Forall (λ c, mapGet chunkMap (id c) = Some c) sem) as Hown.
    { apply Forall_forall. intros c Hc. unfold chunkMap, buildChunkMap.
      rewrite ftsMap_get_kept; rewrite semanticMap_get_own; by try eexists. }
    clearbody chunkMap. unfold semanticIds. clear -Hown.
    induction Hown as [|c l Hc _ IH]; csimpl; [done|].
    by rewrite Hc, IH.
  - by rewrite rankSemantic_ranked, rid_ranked.
  - intros x _. unfold keys. simpl. apply not_elem_of_nil.
Qed.

Lemma before_noWorse sem a b :
  NoDup (semanticIds sem) → before a b sem →
  noWorse (semanticIds sem) (id a) (id b).
Proof.
  unfold before, semanticIds. intros Hnd Hab.
  apply sublist_cons_l in Hab as (k1 & k2 & -> & Hb).
  apply singleton_sublist_l, list_elem_of_lookup in Hb as [j Hj].
  assert ((id <$> k1 ++ a :: k2) !! length k1 = Some (id a)) as Ha.
  { rewrite list_lookup_fmap, lookup_app_r by lia. by rewrite Nat.sub_diag. }
  assert ((id <$> k1 ++ a :: k2) !! (length k1 + S j)%nat = Some (id b)) as Hb.
  { rewrite list_lookup_fmap, lookup_app_r by lia.
    replace (length k1 + S j - length k1)%nat with (S j) by lia. simpl.
    by rewrite Hj. }
  unfold noWorse.
  rewrite (positionOf_lookup _ _ _ Hnd Ha), (positionOf_lookup _ _ _ Hnd Hb). lia.
Qed.

Lemma fusedScore_noWorse sem fts x y :
  NoDup (semanticIds sem) → NoDup (ftsIds fts) →
  noWorse (semanticIds sem) x y → noWorse (ftsIds fts) x y →
  (fusedScore sem fts y <= fusedScore sem fts x)%Q.
Proof.
  intros Hs Hf Hsem Hfts.
  rewrite (fusedScore_stageTerms _ _ x Hs Hf), (fusedScore_stageTerms _ _ y Hs Hf).
  apply Qplus_le_compat; by apply stageTerm_noWorse.
Qed.

(** X15. The merge changes the order of two rows of the vector stage only
    when the keyword stage places the later one better. Let no stage repeat
    an id and the limit be no smaller than both stages together. If [a]
    stands before [b] in the vector stage and the keyword stage places [a] no
    worse than [b] ([b] is absent from it, or both are present and [a] comes
    first), then [a] stands before [b] in the result; and for every limit the
    result is the beginning of that untruncated result. *)
Theorem mergeResults_keeps_vector_order
    (semanticResults : list SimilarChunk) (ftsResults : list FtsRow) (limit : nat)
    (a b : SimilarChunk) :
  NoDup (semanticIds semanticResults) →
  NoDup (ftsIds ftsResults) →
  (length semanticResults + length ftsResults ≤ limit)%nat →
  before a b semanticResults →
  noWorse (ftsIds ftsResults) (id a) (id b) →
  before a b (mergeResults semanticResults ftsResults limit)
  ∧ ∀ n, mergeResults semanticResults ftsResults n
         = take n (mergeResults semanticResults ftsResults limit).
Proof.
  intros Hnd Hndf Hlimit Hab Hfts.
  assert (fusedScore semanticResults ftsResults (id b)
          <= fusedScore semanticResults ftsResults (id a))%Q as Hle.
  { apply fusedScore_noWorse; [done | done | by apply before_noWorse | done]. }
  unfold mergeResults.
  set (rrfScores := reciprocalRankFusion
                      [rankSemantic semanticResults; rankFts ftsResults] RRF_K).
  set (found := omap (λ entry : string * Q,
                        mapGet (buildChunkMap semanticResults ftsResults) (fst entry))
                  rrfScores).
  set (f := λ c : SimilarChunk, orZero (mapGet rrfScores (id c))).
  change (sort _ found) with (sort (byValue f) found).
  assert (length (sort (byValue f) found) ≤ limit)%nat as Hlen.
  { rewrite (Permutation_length (sort_Permutation _ found)).
    pose proof (length_keys_fused semanticResults ftsResults) as Hk.
    fold rrfScores in Hk. unfold keys in Hk. rewrite length_fmap in Hk.
    assert (length found ≤ length rrfScores)%nat; [|lia].
    unfold found. clear. induction rrfScores as [|e l IH]; csimpl; [lia|].
    destruct (mapGet _ e.1); simpl; lia. }
  rewrite (take_ge _ limit) by exact Hlen. split; [|done].
  apply (sort_stable f); [|exact Hle].
  destruct (found_semantic_prefix semanticResults ftsResults Hnd) as [rest Hfound].
  fold rrfScores in Hfound. fold found in Hfound. rewrite Hfound.
  by apply sublist_inserts_r.
Qed.

Lemma mergeResults_keeps_vector_order_witness :
  before (exampleChunk "a" (9 # 10)) (exampleChunk "c" (7 # 10))
    (mergeResults exampleSemantic exampleFts 6)
  ∧ ∀ n, mergeResults exampleSemantic exampleFts n
         = take n (mergeResults exampleSemantic exampleFts 6).
Proof.
  apply (mergeResults_keeps_vector_order exampleSemantic exampleFts 6).
  - apply (bool_decide_unpack _). vm_compute. reflexivity.
  - apply (bool_decide_unpack _). vm_compute. reflexivity.
  - simpl. lia.
  - unfold before, exampleSemantic.
    apply sublist_skip, sublist_cons, sublist_skip, sublist_nil.
  - vm_compute. lia.
Defined.

End VectorSearchMoreProps.

(** ** More properties of the reranker *)

Module RerankMoreProps.
Import JsString JsValue Effect VectorSearch VectorSearchSpec Rerank RerankSpec.
Import RerankCustom RerankMoreSpec.

Lemma mapResults_inRange chunks results :
  inRange chunks results →
  ∃ out, mapResults chunks results = inr out
         ∧ length out = length results
         ∧ ∀ i r, results !! i = Some r →
             ∃ c, chunks !! Z.to_nat (index r) = Some c
                  ∧ out !! i = Some (rescored c (relevanceScore r)).
Proof.
  unfold inRange. induction 1 as [|r results Hr _ (out & Hmap & Hlen & Hout)]; simpl.
  - exists []. by repeat split.
  - rewrite Hmap. unfold toReranked, chunkAt.
    assert ((index r <? 0) = false) as -> by lia.
    destruct (lookup_lt_is_Some_2 chunks (Z.to_nat (index r))) as [c Hc]; [lia|].
    rewrite Hc. eexists. split; [done|]. split; [simpl; by rewrite Hlen|].
    intros [|i] r'; simpl.
    + intros [= <-]. by exists c.
    + apply Hout.
Qed.

(** X16. When the service answers, the result is its answer, element by element
    and in its order: the named chunk with [similarity] and [rerankScore]
    set to the relevance score and [originalSimilarity] to the similarity it
    had. One request went out, carrying the content of every chunk. The
    result has as many elements as the answer, whatever [topN] is. *)
Theorem rerankChunks_follows_service
    (env : Environment) (query : jsstring) (chunks : list SimilarChunk) (topN : nat)
    (results : list RerankResult) :
  (topN < length chunks)%nat →
  cohereInstalled env = true →
  keyMissing (COHERE_API_KEY env) = false →
  rerankService env (requestOf env query chunks topN) = Some results →
  inRange chunks results →
  ∃ out,
    rerankChunks env query chunks topN [] = (inr out, [requestOf env query chunks topN])
    ∧ length out = length results
    ∧ ∀ i r, results !! i = Some r →
        ∃ c, chunks !! Z.to_nat (index r) = Some c
             ∧ out !! i = Some (rescored c (relevanceScore r)).
Proof.
  intros Hlen Hinst Hkey Hanswer Hrange.
  destruct (mapResults_inRange chunks results Hrange) as (out & Hmap & Hout).
  exists out. split; [|exact Hout].
  unfold rerankChunks, tryCatch, bind, importCohere, callRerank.
  fold (requestOf env query chunks topN).
  assert ((length chunks =? 0)%nat = false) as -> by (apply Nat.eqb_neq; lia).
  assert ((length chunks <=? topN)%nat = false) as -> by (apply Nat.leb_gt; lia).
  by rewrite Hinst, Hkey, Hanswer, Hmap.
Qed.

Lemma rerankChunks_follows_service_witness :
  ∃ out,
    rerankChunks thirdThenFirst (js "q") exampleSemantic 2 []
    = (inr out, [requestOf thirdThenFirst (js "q") exampleSemantic 2])
    ∧ length out = 2%nat
    ∧ ∀ i r,
        [mkRerankResult 2 (9 # 10); mkRerankResult 0 (1 # 2)] !! i = Some r →
        ∃ c, exampleSemantic !! Z.to_nat (index r) = Some c
             ∧ out !! i = Some (rescored c (relevanceScore r)).
Proof.
  apply (rerankChunks_follows_service thirdThenFirst (js "q") exampleSemantic 2
           [mkRerankResult 2 (9 # 10); mkRerankResult 0 (1 # 2)]).
  - simpl. lia.
  - reflexivity.
  - reflexivity.
  - reflexivity.
  - repeat constructor; simpl; lia.
Defined.

(** X17. The requests of a call: one, with the content of every chunk in order,
    when the list is longer than [topN], the client library loads and the key
    is set; none otherwise. A list of at most [topN] chunks comes back whole
    and in order, each chunk with its own similarity as score. *)
Theorem rerankChunks_requests
    (env : Environment) (query : jsstring) (chunks : list SimilarChunk) (topN : nat) :
  calls (rerankChunks env query chunks topN)
  = (if (topN <? length chunks)%nat && cohereInstalled env
        && negb (keyMissing (COHERE_API_KEY env))
     then [mkRerankRequest (default [] (COHERE_API_KEY env)) RERANK_MODEL query
             (VectorSearch.content <$> chunks) topN false]
     else [])
  ∧ ((topN <? length chunks)%nat = false →
     outcome (rerankChunks env query chunks topN) = inr (withOwnScore <$> chunks)).
Proof.
  unfold calls, outcome, rerankChunks, tryCatch, bind, importCohere, callRerank.
  destruct (length chunks =? 0)%nat eqn:Hzero.
  - apply Nat.eqb_eq in Hzero. apply nil_length_inv in Hzero as ->.
    by destruct topN.
  - destruct (length chunks <=? topN)%nat eqn:Hshort.
    + assert ((topN <? length chunks)%nat = false) as ->
        by (apply Nat.ltb_ge; by apply Nat.leb_le).
      done.
    + assert ((topN <? length chunks)%nat = true) as ->
        by (apply Nat.ltb_lt; by apply Nat.leb_gt).
      split; [|done]. simpl.
      destruct (cohereInstalled env); simpl; [|done].
      destruct (keyMissing _); simpl; [done|].
      destruct (rerankService env _) as [results|]; simpl; [|done].
      by destruct (mapResults chunks results).
Qed.

Lemma rerankChunks_requests_witness :
  outcome (rerankChunks thirdThenFirst (js "q") exampleSemantic 3)
  = inr (withOwnScore <$> exampleSemantic).
Proof.
  apply (rerankChunks_requests thirdThenFirst (js "q") exampleSemantic 3).
  reflexivity.
Defined.

(** X18. [rerankChunksCustom] never throws, and without a model of its own it is
    [rerankChunks] at the same [topN] (5 when none is given): same result,
    same requests. *)
Theorem rerankChunksCustom_agrees
    (env : Environment) (query : jsstring) (chunks : list SimilarChunk)
    (options : RerankOptions) :
  (∃ out, outcome (rerankChunksCustom env query chunks options) = inr out)
  ∧ (default RERANK_MODEL (model_opt options) = RERANK_MODEL →
     ∀ log, rerankChunksCustom env query chunks options log
            = rerankChunks env query chunks
                (default RERANK_TOP_N (topN_opt options)) log).
Proof.
  split.
  - unfold outcome, rerankChunksCustom, tryCatch, bind, importCohere, callRerank.
    destruct (length chunks =? 0)%nat; [by eexists|].
    destruct (length chunks <=? _)%nat; [by eexists|].
    destruct (cohereInstalled env); simpl; [|by eexists].
    destruct (keyMissing _); simpl; [by eexists|].
    destruct (rerankService env _) as [results|]; simpl; [|by eexists].
    destruct (mapResults chunks results); simpl; by eexists.
  - intros Hmodel log. unfold rerankChunksCustom, rerankChunks.
    by rewrite Hmodel.
Qed.

Lemma rerankChunksCustom_agrees_witness :
  rerankChunksCustom thirdThenFirst (js "q") exampleSemantic noOptions []
  = rerankChunks thirdThenFirst (js "q") exampleSemantic RERANK_TOP_N [].
Proof.
  apply (rerankChunksCustom_agrees thirdThenFirst (js "q") exampleSemantic noOptions).
  reflexivity.
Defined.

End RerankMoreProps.

(** ** More properties of the semantic chunker *)

Module SemanticChunkerMoreProps.
Import JsString JsStringProps JsValue Effect SemanticChunker SemanticChunkerSpec.
Import SemanticChunkerProps SemanticChunkerMoreSpec.

Lemma totalLength_app g1 g2 :
  totalLength (g1 ++ g2) = totalLength g1 + totalLength g2.
Proof.
  unfold totalLength. induction g1 as [|s g1 IH]; simpl; [done|]. rewrite IH. lia.
Qed.

Lemma grouped_nil P limit m : grouped P limit m [] [].
Proof. split; [done|]. intros i g Hg. by rewrite lookup_nil in Hg. Qed.

Lemma grouped_snoc P limit m groups out group avgSimilarity :
  grouped P limit m groups out →
  group ≠ [] →
  ((1 < length group)%nat → totalLength group ≤ limit) →
  P avgSimilarity →
  grouped P limit m (groups ++ [group])
    (out ++ [mkSemanticChunk (trim (join (js " ") group))
               (chunkMetadata (Z.of_nat (length out)) (Z.of_nat (length group))
                  avgSimilarity m)]).
Proof.
  intros [Hlen Hall] Hne Hsize Havg. split.
  - rewrite !length_app, Hlen. done.
  - intros i g Hg. apply lookup_app_Some in Hg as [Hg | [Hge Hg]].
    + destruct (Hall i g Hg) as (Hne' & Hsize' & avg' & Havg' & Hout).
      split; [done|]. split; [done|]. exists avg'. split; [done|].
      rewrite lookup_app_l; [done|]. by eapply lookup_lt_Some.
    + apply list_lookup_singleton_Some in Hg as [Hi <-].
      assert (i = length out) as -> by lia.
      split; [done|]. split; [done|]. exists avgSimilarity. split; [done|].
      rewrite lookup_app_r by lia. by rewrite Nat.sub_diag.
Qed.

(** *** What the grouping loop keeps *)

Section Grouping.
Variable Math_sqrt : Q → Q.
Variable cfg : SemanticChunkConfig.
Variable additionalMetadata : gmap string value.

Lemma groupStep_groupedSoFar embeddings i sentence st st' seen :
  groupStep Math_sqrt cfg additionalMetadata embeddings i sentence st = inr st' →
  groupedSoFar cfg additionalMetadata seen st →
  groupedSoFar cfg additionalMetadata (seen ++ [sentence]) st'.
Proof.
  unfold groupStep.
  destruct (sumSimilarities _ _ _ _ _) as [e|sum]; [done|].
  intros Hstep (groups & Hgr & Hseen & Hidx & Hsize & Hne & Hmax).
  destruct (maxChunkSize cfg <? currentSize st + strlen sentence) eqn:Hexceeds;
    [|destruct (negb _ && _) eqn:Hsplit]; simpl in Hstep;
    injection Hstep as <-.
  1,2: exists (groups ++ [currentChunk st]); simpl;
       (split; [unfold finalize; simpl; rewrite Hidx; by apply grouped_snoc|]);
       (split; [by rewrite concat_app, <- Hseen; simpl; rewrite app_nil_r|]);
       (split; [rewrite length_app, Hidx; simpl; lia|]);
       (split; [unfold totalLength; simpl; lia|]);
       (split; [done | simpl; lia]).
  exists groups. simpl. split; [done|].
  split; [by rewrite <- Hseen, app_assoc|]. split; [done|].
  split; [rewrite totalLength_app, Hsize; unfold totalLength; simpl; lia|].
  split; [by destruct (currentChunk st)|]. intros _.
  apply Z.ltb_ge in Hexceeds. rewrite totalLength_app, <- Hsize.
  unfold totalLength. simpl. lia.
Qed.

Lemma groupLoop_groupedSoFar embeddings rest : ∀ i st st' seen,
  groupLoop Math_sqrt cfg additionalMetadata embeddings i rest st = inr st' →
  groupedSoFar cfg additionalMetadata seen st →
  groupedSoFar cfg additionalMetadata (seen ++ rest) st'.
Proof.
  induction rest as [|sentence rest IH]; intros i st st' seen; simpl.
  - intros [= <-]. by rewrite app_nil_r.
  - destruct (groupStep _ _ _ _ _ _ _) as [e|st1] eqn:Hstep; [done|].
    intros Hloop Hinv.
    replace (seen ++ sentence :: rest) with ((seen ++ [sentence]) ++ rest)
      by (by rewrite <- app_assoc).
    eapply IH; [exact Hloop|]. by eapply groupStep_groupedSoFar.
Qed.

Lemma groupSentences_grouped embeddings sentences out :
  groupSentences Math_sqrt cfg additionalMetadata embeddings sentences = inr out →
  ∃ groups, concat groups = sentences
            ∧ grouped anyScore (maxChunkSize cfg) additionalMetadata groups out.
Proof.
  unfold groupSentences. destruct sentences as [|first rest]; [done|].
  destruct (groupLoop _ _ _ _ _ _ _) as [e|st] eqn:Hloop; [done|].
  intros [= <-].
  destruct (groupLoop_groupedSoFar embeddings rest 1 _ st [first] Hloop)
    as (groups & Hgr & Hseen & Hidx & Hsize & Hne & Hmax).
  { exists []. simpl. split; [apply grouped_nil|]. repeat split; try done.
    - unfold totalLength. simpl. lia.
    - simpl. lia. }
  assert ((0 <? length (currentChunk st))%nat = true) as ->.
  { apply Nat.ltb_lt. destruct (currentChunk st); [done | simpl; lia]. }
  exists (groups ++ [currentChunk st]). split.
  - rewrite concat_app. simpl. by rewrite app_nil_r.
  - unfold finalize. rewrite Hidx. by apply grouped_snoc.
Qed.
End Grouping.

(** *** The calls to the embedding provider *)

Section Embedding.
Variable generateEmbedding : jsstring → option (list Q).

Lemma embedBatches_run rounds : ∀ rest acc log,
  (length rest ≤ rounds)%nat →
  (∃ vs, mapM generateEmbedding rest = Some vs
         ∧ embedBatches generateEmbedding rounds 20 rest acc log
           = (inr (acc ++ vs), log ++ rest))
  ∨ (mapM generateEmbedding rest = None
     ∧ ∃ k, embedBatches generateEmbedding rounds 20 rest acc log
            = (inl EmbeddingFailed, log ++ take k rest)).
Proof.
  induction rounds as [|rounds IH]; intros rest acc log Hr.
  - destruct rest; [|simpl in Hr; lia].
    left. exists []. simpl. unfold ret. by rewrite !app_nil_r.
  - destruct rest as [|s rest].
    { left. exists []. simpl. unfold ret. by rewrite !app_nil_r. }
    set (l := s :: rest) in *.
    change (embedBatches generateEmbedding (S rounds) 20 l acc log)
      with (bind (embedBatch generateEmbedding (take 20 l))
              (λ b, embedBatches generateEmbedding rounds 20 (drop 20 l) (acc ++ b)) log).
    unfold bind, embedBatch.
    destruct (mapM generateEmbedding (take 20 l)) as [vs1|] eqn:Hhead.
    + destruct (IH (drop 20 l) (acc ++ vs1) (log ++ take 20 l))
        as [(vs2 & Htail & ->) | (Htail & k & ->)].
      { rewrite length_drop. subst l. simpl in *. lia. }
      * left. exists (vs1 ++ vs2). split.
        -- apply mapM_Some. rewrite <- (take_drop 20 l).
           apply Forall2_app; by apply mapM_Some.
        -- by rewrite <- !app_assoc, take_drop.
      * right. split.
        -- apply mapM_None. rewrite <- (take_drop 20 l).
           apply Exists_app. right. by apply mapM_None.
        -- exists (20 + k)%nat. by rewrite <- app_assoc, take_take_drop.
    + right. split.
      * apply mapM_None. rewrite <- (take_drop 20 l).
        apply Exists_app. left. by apply mapM_None.
      * by exists 20%nat.
Qed.
End Embedding.

(** X19. For a text longer than [maxChunkSize], [semanticChunk] asks the
    embedding provider for the sentences in their order, each at most once.
    When the provider answers all of them, every sentence is sent exactly
    once. When it fails on one, the call throws that failure: there is no
    retry and no partial result. *)
Theorem semanticChunk_embeds_each_sentence_once
    (nlpSentences : jsstring → list jsstring)
    (generateEmbedding : jsstring → option (list Q)) (Math_sqrt : Q → Q)
    (text : jsstring) (config : PartialSemanticChunkConfig)
    (additionalMetadata : gmap string value) :
  trim text ≠ [] →
  maxChunkSize (resolveConfig config) < strlen text →
  let sentences := splitIntoSentences nlpSentences text in
  let call := semanticChunk nlpSentences generateEmbedding Math_sqrt
                text config additionalMetadata in
  calls call `prefix_of` sentences
  ∧ (Forall (λ s, is_Some (generateEmbedding s)) sentences → calls call = sentences)
  ∧ (Exists (λ s, generateEmbedding s = None) sentences
     → outcome call = inl EmbeddingFailed).
Proof.
  intros Hb Hlong sentences call. unfold calls, outcome, call, semanticChunk.
  assert ((strlen text =? 0) = false) as ->.
  { apply not_true_is_false. rewrite strlen_zero. intros ->. by apply Hb. }
  assert ((strlen (trim text) =? 0) = false) as ->.
  { apply not_true_is_false. by rewrite strlen_zero. }
  simpl orb. cbv iota. fold sentences.
  destruct sentences as [|first rest] eqn:Hs.
  { simpl. split; [done|]. split; [done|]. by intros ?%Exists_nil. }
  rewrite <- Hs. replace (length sentences =? 0)%nat with false by (by rewrite Hs).
  assert ((strlen text <=? maxChunkSize (resolveConfig config)) = false) as ->
    by (apply Z.leb_gt; lia).
  cbn [orb]. cbv iota. unfold bind, embedSentences.
  destruct (embedBatches_run generateEmbedding (length sentences) sentences [] [])
    as [(vs & Hall & ->) | (Hfail & k & ->)]; [done | |].
  - assert (snd (match groupSentences Math_sqrt (resolveConfig config)
                         additionalMetadata ([] ++ vs) sentences with
                 | inl e => throw e
                 | inr chunks => ret chunks
                 end ([] ++ sentences)) = sentences) as ->.
    { by destruct (groupSentences _ _ _ _ _). }
    split; [done|]. split; [done|].
    intros Hex%mapM_None. congruence.
  - simpl. split; [apply prefix_take|]. split; [|done].
    intros Hall%mapM_is_Some. rewrite Hfail in Hall. by destruct Hall.
Qed.

Lemma semanticChunk_embeds_each_sentence_once_witness :
  calls (semanticChunk wordsAsSentences (failingOn (js "cc")) noRoot
           (js "aa bb cc dd") invertedSizes ∅) = js <$> ["aa"; "bb"; "cc"; "dd"]
  ∧ outcome (semanticChunk wordsAsSentences (failingOn (js "cc")) noRoot
               (js "aa bb cc dd") invertedSizes ∅) = inl EmbeddingFailed.
Proof.
  destruct (semanticChunk_embeds_each_sentence_once wordsAsSentences
              (failingOn (js "cc")) noRoot (js "aa bb cc dd") invertedSizes ∅)
    as (_ & _ & Hfail).
  - vm_compute. discriminate.
  - vm_compute. reflexivity.
  - split; [vm_compute; reflexivity|]. apply Hfail.
    apply Exists_exists. exists (js "cc"). split; [|reflexivity].
    vm_compute. do 2 right. by left.
Defined.

(** X20. For a text longer than [maxChunkSize] whose sentences the provider
    answers with vectors of one length, [semanticChunk] returns chunks that
    partition the sentences: cut into consecutive, non-empty groups, the
    sentences give the chunks one by one, with [chunkIndex] counting from 0
    and [sentenceCount] the size of the group. The sentences of a group of
    more than one sentence have at most [maxChunkSize] characters together
    (the joining spaces are not counted). *)
Theorem semanticChunk_partitions_sentences
    (nlpSentences : jsstring → list jsstring)
    (generateEmbedding : jsstring → option (list Q)) (Math_sqrt : Q → Q)
    (dim : nat) (text : jsstring) (config : PartialSemanticChunkConfig)
    (additionalMetadata : gmap string value) :
  trim text ≠ [] →
  maxChunkSize (resolveConfig config) < strlen text →
  embeddable generateEmbedding dim (splitIntoSentences nlpSentences text) →
  ∃ out groups,
    outcome (semanticChunk nlpSentences generateEmbedding Math_sqrt
               text config additionalMetadata) = inr out
    ∧ concat groups = splitIntoSentences nlpSentences text
    ∧ grouped anyScore (maxChunkSize (resolveConfig config)) additionalMetadata
        groups out.
Proof.
  intros Hb Hlong He. unfold outcome, semanticChunk.
  assert ((strlen text =? 0) = false) as ->.
  { apply not_true_is_false. rewrite strlen_zero. intros ->. by apply Hb. }
  assert ((strlen (trim text) =? 0) = false) as ->.
  { apply not_true_is_false. by rewrite strlen_zero. }
  simpl orb. cbv iota.
  destruct (splitIntoSentences nlpSentences text) as [|first rest] eqn:Hs.
  { exists [], []. simpl. split; [done|]. split; [done|]. apply grouped_nil. }
  change (length (first :: rest) =? 0)%nat with false. cbv iota.
  assert ((strlen text <=? maxChunkSize (resolveConfig config)) = false) as ->
    by (apply Z.leb_gt; lia).
  cbn [orb]. cbv iota. unfold bind, embedSentences. cbv beta.
  destruct (embedBatches_ok generateEmbedding dim (length (first :: rest))
              (first :: rest) [] [])
    as (vs & -> & Hlen & Hdim); [done | done | constructor |].
  destruct (groupSentences Math_sqrt (resolveConfig config) additionalMetadata vs
              (first :: rest)) as [e|out] eqn:Hgroup.
  - exfalso. unfold groupSentences in Hgroup.
    destruct (groupLoop_ok Math_sqrt dim (resolveConfig config) additionalMetadata
                vs rest 1 (mkGroupState [] [first] (strlen first) 0 []))
      as (st & Hloop & Hpos); [done | lia | | simpl; lia | simpl; lia |].
    { rewrite Hlen. simpl. lia. }
    by rewrite Hloop in Hgroup.
  - destruct (groupSentences_grouped _ _ _ _ _ _ Hgroup) as (groups & Hcat & Hgr).
    by exists out, groups.
Qed.

Lemma semanticChunk_partitions_sentences_witness :
  ∃ out groups,
    outcome (semanticChunk wordsAsSentences lengthEmbedding noRoot
               (js "aa bb cc dd") invertedSizes ∅) = inr out
    ∧ concat groups = splitIntoSentences wordsAsSentences (js "aa bb cc dd")
    ∧ grouped anyScore 5 ∅ groups out.
Proof.
  apply (semanticChunk_partitions_sentences wordsAsSentences lengthEmbedding noRoot
           2 (js "aa bb cc dd") invertedSizes ∅).
  - vm_compute. discriminate.
  - vm_compute. reflexivity.
  - apply lengthEmbedding_embeddable.
Defined.

End SemanticChunkerMoreProps.

(** ** Properties of [hybridChunk] *)

Module HybridChunkerProps.
Import JsString JsStringProps JsValue Effect SemanticChunker SemanticChunkerSpec.
Import SemanticChunkerMoreSpec SemanticChunkerMoreProps HybridChunker HybridChunkerSpec.

Lemma fallbackStep_collectedSoFar m seen st sentence :
  collectedSoFar m seen st →
  collectedSoFar m (seen ++ [sentence]) (fallbackStep m st sentence).
Proof.
  intros (groups & Hgr & Hseen & Hidx & Hsize & Hmax). unfold fallbackStep.
  destruct (maxSize <? currentSize st + strlen sentence) eqn:Hexceeds;
    [destruct (0 <? length (currentChunk st))%nat eqn:Hsome|]; simpl.
  - apply Nat.ltb_lt in Hsome.
    exists (groups ++ [currentChunk st]). simpl.
    split; [unfold fallbackChunk; rewrite Hidx; apply grouped_snoc; try done;
            by destruct (currentChunk st); [simpl in Hsome; lia|]|].
    split; [by rewrite concat_app, <- Hseen; simpl; rewrite app_nil_r|].
    split; [rewrite length_app, Hidx; simpl; lia|].
    split; [unfold totalLength; simpl; lia | lia].
  - apply Nat.ltb_ge in Hsome.
    destruct (currentChunk st) as [|s0 l0] eqn:Hcur; [|simpl in Hsome; lia].
    rewrite app_nil_r in Hseen.
    exists groups. simpl. split; [done|]. split; [by rewrite Hseen|].
    split; [done|]. split; [|lia].
    rewrite Hsize. unfold totalLength. simpl. lia.
  - apply Z.ltb_ge in Hexceeds.
    exists groups. simpl. split; [done|].
    split; [by rewrite <- Hseen, app_assoc|]. split; [done|].
    split; [rewrite totalLength_app, Hsize; unfold totalLength; simpl; lia|].
    intros _. rewrite totalLength_app, <- Hsize. unfold totalLength. simpl. lia.
Qed.

Lemma fold_fallbackStep_collectedSoFar m rest : ∀ st seen,
  collectedSoFar m seen st →
  collectedSoFar m (seen ++ rest) (fold_left (fallbackStep m) rest st).
Proof.
  induction rest as [|sentence rest IH]; intros st seen Hinv; simpl.
  - by rewrite app_nil_r.
  - replace (seen ++ sentence :: rest) with ((seen ++ [sentence]) ++ rest)
      by (by rewrite <- app_assoc).
    by apply IH, fallbackStep_collectedSoFar.
Qed.

Lemma fallback_grouped m sentences :
  ∃ groups, concat groups = sentences
            ∧ grouped zeroScore maxSize m groups (fallback m sentences).
Proof.
  unfold fallback.
  destruct (fold_fallbackStep_collectedSoFar m sentences
              (mkFallbackState [] [] 0 0) [])
    as (groups & Hgr & Hseen & Hidx & Hsize & Hmax).
  { exists []. simpl. split; [apply grouped_nil|]. repeat split; done. }
  simpl in Hseen.
  set (st := fold_left (fallbackStep m) sentences (mkFallbackState [] [] 0 0)) in *.
  destruct (0 <? length (currentChunk st))%nat eqn:Hsome.
  - apply Nat.ltb_lt in Hsome.
    exists (groups ++ [currentChunk st]). split.
    + rewrite concat_app. simpl. by rewrite app_nil_r.
    + unfold fallbackChunk. rewrite Hidx. apply grouped_snoc; try done.
      destruct (currentChunk st); [simpl in Hsome; lia | done].
  - apply Nat.ltb_ge in Hsome.
    destruct (currentChunk st) as [|s0 l0] eqn:Hcur; [|simpl in Hsome; lia].
    exists groups. split; [|done]. by rewrite app_nil_r in Hseen.
Qed.

(** X21. [hybridChunk] never throws. What it returns is the result of
    [semanticChunk] with the default configuration, or chunks that partition
    the detected sentences into consecutive, non-empty groups, with
    [chunkIndex] counting from 0, [avgSimilarity] 0, and at most 1500
    characters in the sentences of a group of more than one sentence. *)
Theorem hybridChunk_never_throws
    (nlpSentences : jsstring → list jsstring)
    (generateEmbedding : jsstring → option (list Q)) (Math_sqrt : Q → Q)
    (text : jsstring) (additionalMetadata : gmap string value) :
  ∃ out,
    outcome (hybridChunk nlpSentences generateEmbedding Math_sqrt
               text additionalMetadata) = inr out
    ∧ (outcome (semanticChunk nlpSentences generateEmbedding Math_sqrt
                  text SemanticChunker.noOverrides additionalMetadata) = inr out
       ∨ ∃ groups,
           concat groups = splitIntoSentences nlpSentences text
           ∧ grouped zeroScore maxSize additionalMetadata groups out).
Proof.
  unfold outcome, hybridChunk, bind, tryCatch.
  destruct (_ && _).
  - destruct (semanticChunk _ _ _ _ _ _ []) as [[e|result] log] eqn:Hsem; simpl.
    + eexists. split; [reflexivity|]. right. apply fallback_grouped.
    + exists result. split; [done|]. by left.
  - simpl. eexists. split; [reflexivity|]. right. apply fallback_grouped.
Qed.

(** X22. A text of more than 100 detected sentences is chunked without any call
    to the embedding provider, along sentence boundaries. *)
Theorem hybridChunk_large_document
    (nlpSentences : jsstring → list jsstring)
    (generateEmbedding : jsstring → option (list Q)) (Math_sqrt : Q → Q)
    (text : jsstring) (additionalMetadata : gmap string value) :
  (100 < length (splitIntoSentences nlpSentences text))%nat →
  calls (hybridChunk nlpSentences generateEmbedding Math_sqrt
           text additionalMetadata) = []
  ∧ ∃ out groups,
      outcome (hybridChunk nlpSentences generateEmbedding Math_sqrt
                 text additionalMetadata) = inr out
      ∧ concat groups = splitIntoSentences nlpSentences text
      ∧ grouped zeroScore maxSize additionalMetadata groups out.
Proof.
  intros Hmany. unfold calls, outcome, hybridChunk, bind.
  assert ((length (splitIntoSentences nlpSentences text) <=? 100)%nat = false) as ->
    by (apply Nat.leb_gt; lia).
  rewrite andb_false_r. simpl. split; [done|].
  destruct (fallback_grouped additionalMetadata
              (splitIntoSentences nlpSentences text)) as (groups & Hcat & Hgr).
  by eexists _, groups.
Qed.

Lemma hybridChunk_large_document_witness :
  calls (hybridChunk wordsAsSentences lengthEmbedding noRoot
           (wordsOf 101 (js "a")) ∅) = []
  ∧ ∃ out groups,
      outcome (hybridChunk wordsAsSentences lengthEmbedding noRoot
                 (wordsOf 101 (js "a")) ∅) = inr out
      ∧ concat groups = splitIntoSentences wordsAsSentences (wordsOf 101 (js "a"))
      ∧ grouped zeroScore maxSize ∅ groups out.
Proof.
  apply (hybridChunk_large_document wordsAsSentences lengthEmbedding noRoot
           (wordsOf 101 (js "a")) ∅).
  apply Nat.ltb_lt. vm_compute. reflexivity.
Defined.

End HybridChunkerProps.

(** ** Properties of retry and circuit breaker *)

Module ErrorHandlingProps.
Import Effect ErrorHandling ErrorHandlingSpec.

Lemma invocations_app l1 l2 : invocations (l1 ++ l2) = (invocations l1 + invocations l2)%nat.
Proof. unfold invocations. by rewrite List.filter_app, length_app. Qed.

Lemma sleeps_app l1 l2 : sleeps (l1 ++ l2) = (sleeps l1 + sleeps l2)%nat.
Proof. unfold sleeps. by rewrite List.filter_app, length_app. Qed.

Lemma invocations_invoke l : invocations (l ++ [Invoke]) = S (invocations l).
Proof. rewrite invocations_app. cbn. lia. Qed.

Lemma invocations_sleep l ms : invocations (l ++ [Sleep ms]) = invocations l.
Proof. rewrite invocations_app. cbn. lia. Qed.

Lemma sleeps_invoke l : sleeps (l ++ [Invoke]) = sleeps l.
Proof. rewrite sleeps_app. cbn. lia. Qed.

Lemma sleeps_sleep l ms : sleeps (l ++ [Sleep ms]) = S (sleeps l).
Proof. rewrite sleeps_app. cbn. lia. Qed.

Section Retry.
Context {E T : Type}.
Variable config : RetryOptions (E := E).
Variable fn : nat → E + T.
Variable random : Z → Q.

Lemma retryLoop_bounds range : ∀ delay lastError log,
  boundedDelay config delay →
  Forall (boundedSleep config) log →
  let log' := snd (retryLoop config fn random range delay lastError log) in
  (invocations log' ≤ invocations log + length range)%nat
  ∧ Forall (boundedSleep config) log'.
Proof.
  induction range as [|attempt rest IH]; intros delay lastError log Hdelay Hlog; simpl.
  - split; [lia | done].
  - unfold tryCatch, invoke.
    assert (Forall (boundedSleep config) (log ++ [Invoke])) as Hlog1.
    { apply Forall_app. split; [done|]. by constructor. }
    pose proof (invocations_invoke log) as Hinv.
    destruct (fn _) as [error|value]; simpl.
    + destruct (negb _); simpl; [split; [lia | done]|].
      destruct (attempt =? _); simpl; [split; [lia | done]|].
      unfold bind, issue.
      match goal with
      | |- context [retryLoop config fn random rest ?d ?e ?l] =>
          destruct (IH d e l) as [Hn Hs]
      end.
      * right. apply Q.le_min_r.
      * apply Forall_app. split; [done|]. by constructor.
      * split; [|exact Hs].
        etransitivity; [exact Hn|].
        rewrite invocations_sleep, Hinv. lia.
    + split; [lia | done].
Qed.

Lemma retryLoop_decisive (k : nat) : ∀ (n : nat) (a : nat) delay lastError log,
  invocations log = a →
  (a ≤ k < a + n)%nat →
  maxRetries config = Z.of_nat (a + n) - 1 →
  (∀ j, (a ≤ j < k)%nat → failsRetryably config fn j) →
  decisive config fn k →
  ∃ log', retryLoop config fn random (seqZ (Z.of_nat a) (Z.of_nat n))
            delay lastError log = (fn k, log')
          ∧ invocations log' = S k
          ∧ sleeps log' = (sleeps log + (k - a))%nat.
Proof.
  induction n as [|n IH]; intros a delay lastError log Hlog Hk Hmax Hbefore Hdec; [lia|].
  rewrite seqZ_cons by lia. simpl. unfold tryCatch, invoke.
  fold (invocations log). rewrite Hlog.
  assert (invocations (log ++ [Invoke]) = S a) as Hinv
    by (by rewrite invocations_invoke, Hlog).
  pose proof (sleeps_invoke log) as Hsl.
  destruct (decide (a = k)) as [->|Hne].
  - destruct Hdec as [[v Hv] | [(e & He & Hno) | Hlast]].
    + rewrite Hv. eexists. split; [done|]. split; [done|]. rewrite Hsl. lia.
    + rewrite He, Hno. simpl. eexists. split; [done|]. split; [done|].
      rewrite Hsl. lia.
    + destruct (fn k) as [e|v] eqn:Hfn.
      * destruct (negb _); simpl.
        { eexists. split; [done|]. split; [done|]. rewrite Hsl. lia. }
        assert ((Z.of_nat k =? maxRetries config) = true) as -> by lia.
        eexists. split; [done|]. split; [done|]. rewrite Hsl. lia.
      * eexists. split; [done|]. split; [done|]. rewrite Hsl. lia.
  - destruct (Hbefore a) as (e & -> & Hretry); [lia|]. rewrite Hretry. simpl.
    assert ((Z.of_nat a =? maxRetries config) = false) as -> by lia.
    unfold bind, issue.
    replace (Z.succ (Z.of_nat a)) with (Z.of_nat (S a)) by lia.
    replace (Z.pred (Z.of_nat (S n))) with (Z.of_nat n) by lia.
    match goal with
    | |- context [retryLoop config fn random _ ?d ?e' ?l] =>
        destruct (IH (S a) d e' l) as (log' & Hrun & Hcount & Hsleeps)
    end.
    + by rewrite invocations_sleep, Hinv.
    + lia.
    + rewrite Hmax. lia.
    + intros j Hj. apply Hbefore. lia.
    + done.
    + exists log'. split; [done|]. split; [done|].
      rewrite Hsleeps, sleeps_sleep, Hsl. lia.
Qed.
End Retry.

(** X23. [withRetry] invokes [fn] at most [maxRetries + 1] times, and every wait
    between two invocations is the initial delay or at most [maxDelay],
    whatever the random jitter is. *)
Theorem withRetry_bounded
    {E T : Type} (undefined : E) (defaultRetryable : E → bool)
    (fn : nat → E + T) (options : PartialRetryOptions) (random : Z → Q) :
  let config := resolveOptions defaultRetryable options in
  let log := calls (withRetry undefined defaultRetryable fn options random) in
  (invocations log ≤ Z.to_nat (maxRetries config + 1))%nat
  ∧ Forall (boundedSleep config) log.
Proof.
  intros config log. unfold log, calls, withRetry. fold config.
  destruct (retryLoop_bounds config fn random (seqZ 0 (maxRetries config + 1))
              (initialDelay config) undefined []) as [Hn Hs].
  - by left.
  - constructor.
  - split; [|exact Hs]. by rewrite length_seqZ in Hn.
Qed.

(** X24. [withRetry] ends with the first invocation that succeeds, fails with an
    error that is not retryable, or is the last one allowed: its outcome is
    the outcome of that invocation, [fn] has been invoked once per attempt up
    to it, and a wait precedes every attempt but the first. *)
Theorem withRetry_stops_at_first_decisive
    {E T : Type} (undefined : E) (defaultRetryable : E → bool)
    (fn : nat → E + T) (options : PartialRetryOptions) (random : Z → Q) (k : nat) :
  let config := resolveOptions defaultRetryable options in
  Z.of_nat k ≤ maxRetries config →
  (∀ j, (j < k)%nat → failsRetryably config fn j) →
  decisive config fn k →
  outcome (withRetry undefined defaultRetryable fn options random) = fn k
  ∧ invocations (calls (withRetry undefined defaultRetryable fn options random)) = S k
  ∧ sleeps (calls (withRetry undefined defaultRetryable fn options random)) = k.
Proof.
  intros config Hk Hbefore Hdec. unfold outcome, calls, withRetry. fold config.
  destruct (retryLoop_decisive config fn random k
              (Z.to_nat (maxRetries config + 1)) 0
              (initialDelay config) undefined [])
    as (log' & Hrun & Hcount & Hsleeps); [done | lia | lia | | done |].
  { intros j Hj. apply Hbefore. lia. }
  rewrite Z2Nat.id in Hrun by lia. change (Z.of_nat 0) with 0 in Hrun.
  rewrite Hrun. simpl. split; [done|]. split; [done|].
  rewrite Hsleeps. unfold sleeps. simpl. lia.
Qed.

Lemma withRetry_stops_at_first_decisive_witness :
  outcome (withRetry false (λ _, false) flaky retryAll noJitter) = inr 42
  ∧ invocations (calls (withRetry false (λ _, false) flaky retryAll noJitter)) = 3%nat
  ∧ sleeps (calls (withRetry false (λ _, false) flaky retryAll noJitter)) = 2%nat.
Proof.
  apply (withRetry_stops_at_first_decisive false (λ _, false) flaky retryAll noJitter 2).
  - vm_compute. discriminate.
  - intros j Hj. exists true.
    destruct j as [|[|j]]; [by split | by split | lia].
  - left. by exists 42.
Defined.

(** *** The circuit breaker *)

Lemma execute_settled {E T} now failedAt (fn : E + T) cb :
  1 ≤ threshold cb → settled cb → settled (after (execute now failedAt fn cb)).
Proof.
  intros Hth (Hopen & Hhalf & Hlast & Hpos). unfold execute.
  destruct (state cb) eqn:Hst; [| |done].
  - assert (failures cb < threshold cb) as Hlt.
    { destruct (decide (threshold cb ≤ failures cb)) as [Hge|]; [|lia].
      by apply Hopen in Hge. }
    destruct fn as [e|v]; unfold settled, onFailure, onSuccess; simpl; rewrite ?Hst.
    + destruct (threshold cb <=? failures cb + 1) eqn:Hle.
      * apply Z.leb_le in Hle.
        split; [split; [intros _; lia | done]|]. split; [done|].
        split; [by eexists | lia].
      * apply Z.leb_gt in Hle.
        split; [split; [done | lia]|]. split; [done|]. split; [done | lia].
    + split; [split; [done | lia]|]. split; [done|]. split; [done | lia].
  - assert (threshold cb ≤ failures cb) as Hge by (by apply Hopen).
    destruct (timeout cb <=? _); simpl.
    + destruct fn as [e|v]; unfold settled, onFailure, onSuccess; simpl.
      * assert ((threshold cb <=? failures cb + 1) = true) as -> by lia.
        split; [split; [intros _; lia | done]|]. split; [done|].
        split; [by eexists | lia].
      * split; [split; [done | lia]|]. split; [done|]. split; [done | lia].
    + unfold settled. rewrite Hst. done.
Qed.

Lemma execute_threshold {E T} now failedAt (fn : E + T) cb :
  threshold (after (execute now failedAt fn cb)) = threshold cb
  ∧ timeout (after (execute now failedAt fn cb)) = timeout cb.
Proof.
  unfold execute. destruct (state cb); [| destruct (timeout cb <=? _) |];
    simpl; try done; by destruct fn.
Qed.

Lemma history_settled {E T} (events : list (Event E T)) : ∀ cb,
  1 ≤ threshold cb → settled cb →
  settled (fold_left step events cb)
  ∧ threshold (fold_left step events cb) = threshold cb
  ∧ timeout (fold_left step events cb) = timeout cb.
Proof.
  induction events as [|ev events IH]; intros cb Hth Hcb; simpl; [done|].
  destruct ev as [now failedAt fn|]; simpl.
  - destruct (execute_threshold now failedAt fn cb) as [Ht Hto].
    destruct (IH (after (execute now failedAt fn cb))) as (H1 & H2 & H3).
    + by rewrite Ht.
    + by apply execute_settled.
    + by rewrite H2, H3.
  - destruct (IH (reset cb)) as (H1 & H2 & H3); [done | | done].
    repeat split; simpl; try done; lia.
Qed.

(** X25. After any sequence of calls and resets of a breaker with a threshold of
    at least 1, [execute] refuses to invoke [fn] exactly when the failure
    count has reached the threshold and less than [timeout] milliseconds have
    passed since the last failure. It then throws its own error and leaves
    the breaker as it is. *)
Theorem circuitBreaker_refuses_while_open
    {E T : Type} (th tmo : Z) (events : list (Event E T))
    (now failedAt : Z) (fn : E + T) :
  1 ≤ th →
  let cb := history th tmo events in
  let run := execute now failedAt fn cb in
  (invoked run = false
   ↔ th ≤ failures cb
     ∧ ∃ t, lastFailureTime cb = Some t ∧ now - t < tmo)
  ∧ (invoked run = false → result run = inl CircuitOpen ∧ after run = cb).
Proof.
  intros Hth cb run.
  destruct (history_settled events (newCircuitBreaker th tmo))
    as ((Hopen & Hhalf & Hlast & Hpos) & Hthr & Htmo); [done | |].
  { repeat split; simpl; try done; lia. }
  fold (history th tmo events) in Hopen, Hhalf, Hlast, Hpos, Hthr, Htmo.
  fold cb in Hopen, Hhalf, Hlast, Hpos, Hthr, Htmo.
  simpl in Hthr, Htmo. unfold run, execute.
  destruct (state cb) eqn:Hst.
  - split; [|by destruct fn]. split; [by destruct fn|].
    intros [Hge _]. rewrite <- Hthr in Hge. apply Hopen in Hge. done.
  - destruct (Hlast eq_refl) as [t Ht]. rewrite Ht, Htmo. simpl.
    destruct (tmo <=? now - t) eqn:Hle.
    + split; [|by destruct fn]. split; [by destruct fn|].
      intros (_ & t' & [= <-] & Hlt). lia.
    + split; [|done]. simpl. split; [|done]. intros _.
      split; [rewrite <- Hthr; by apply Hopen|]. exists t. split; [done | lia].
  - done.
Qed.

Lemma circuitBreaker_refuses_while_open_witness :
  let cb := history (E := bool) (T := Z) 2 1000
              [Execute 0 1 (inl true); Execute 10 11 (inl true)] in
  invoked (execute (E := bool) (T := Z) 500 501 (inr 7) cb) = false
  ∧ result (execute (E := bool) (T := Z) 500 501 (inr 7) cb) = inl CircuitOpen.
Proof.
  intros cb.
  destruct (circuitBreaker_refuses_while_open (E := bool) (T := Z) 2 1000
              [Execute 0 1 (inl true); Execute 10 11 (inl true)] 500 501 (inr 7))
    as [Hiff Hthen]; [lia|].
  assert (invoked (execute (E := bool) (T := Z) 500 501 (inr 7) cb) = false) as Hno.
  { apply Hiff. split; [vm_compute; discriminate|].
    exists 11. split; [reflexivity | lia]. }
  split; [exact Hno|]. by destruct (Hthen Hno).
Defined.

End ErrorHandlingProps.

(** ** Properties of rate limiting *)

Module RateLimitProps.
Import RateLimit RateLimitSpec.

Lemma checks_in_window times : ∀ identifier config store entry (i : nat) r,
  store !! identifier = Some entry →
  1 ≤ count entry →
  Forall (λ t, t ≤ resetTime entry) times →
  checks times identifier config store !! i = Some r →
  allowed r = bool_decide (count entry + Z.of_nat i < maxRequests config)
  ∧ remaining r = Z.max 0 (maxRequests config - count entry - Z.of_nat i - 1)
  ∧ resultResetTime r = resetTime entry.
Proof.
  induction times as [|now rest IH]; intros identifier config store entry i r
    Hentry Hcount Htimes Hr; simpl in Hr; [done|].
  apply Forall_cons in Htimes as [Hnow Hrest].
  unfold check in Hr. rewrite Hentry in Hr.
  assert (expired now entry = false) as Hlive by (unfold expired; lia).
  rewrite Hlive in Hr.
  destruct (maxRequests config <=? count entry) eqn:Hfull.
  - apply Z.leb_le in Hfull. destruct i as [|i]; simpl in Hr.
    + injection Hr as <-. simpl.
      rewrite bool_decide_eq_false_2 by lia. split; [done|]. split; [lia | done].
    + destruct (IH identifier config store entry i r Hentry Hcount Hrest Hr)
        as (Ha & Hrem & Hreset).
      rewrite Ha, Hrem. split; [|split; [lia | done]].
      rewrite !bool_decide_eq_false_2 by lia. done.
  - apply Z.leb_gt in Hfull. destruct i as [|i]; simpl in Hr.
    + injection Hr as <-. simpl.
      rewrite bool_decide_eq_true_2 by lia. split; [done|]. split; [lia | done].
    + destruct (IH identifier config _ (mkRateLimitEntry (count entry + 1) (resetTime entry))
                  i r (lookup_insert_eq _ _ _) ltac:(simpl; lia) Hrest Hr)
        as (Ha & Hrem & Hreset).
      simpl in Ha, Hrem, Hreset. rewrite Ha, Hrem. split; [|split; [lia | done]].
      apply bool_decide_ext. lia.
Qed.

(** X26. Within one window the first [maxRequests] checks of an identifier are
    allowed and no other. Let [identifier] have no running window at [now],
    and let [times] not pass the end [now + windowMs] of the window that the
    check at [now] opens. Then of the checks at [now] and at [times] the one
    at position [i] (from 0) is allowed exactly when [i < maxRequests], its
    [remaining] is [maxRequests - i - 1], or 0 when that is negative, and its
    reset time is the end of the window. *)
Theorem check_allows_first_maxRequests
    (now : Z) (times : list Z) (identifier : string) (config : RateLimitConfig)
    (store : gmap string RateLimitEntry) (i : nat) (r : CheckResult) :
  1 ≤ maxRequests config →
  fresh now identifier store →
  Forall (λ t, t ≤ now + windowMs config) times →
  checks (now :: times) identifier config store !! i = Some r →
  allowed r = bool_decide (Z.of_nat i < maxRequests config)
  ∧ remaining r = Z.max 0 (maxRequests config - Z.of_nat i - 1)
  ∧ resultResetTime r = now + windowMs config.
Proof.
  intros Hmax Hfresh Htimes Hr. simpl in Hr.
  assert (check now identifier config store
          = (mkCheckResult true (maxRequests config - 1) (now + windowMs config),
             <[identifier := mkRateLimitEntry 1 (now + windowMs config)]> store))
    as Hfirst.
  { unfold check. unfold fresh in Hfresh.
    destruct (store !! identifier) as [entry|]; [by rewrite Hfresh | done]. }
  rewrite Hfirst in Hr. destruct i as [|i]; simpl in Hr.
  - injection Hr as <-. simpl.
    rewrite bool_decide_eq_true_2 by lia. split; [done|]. split; [lia | done].
  - destruct (checks_in_window times identifier config _
                (mkRateLimitEntry 1 (now + windowMs config)) i r
                (lookup_insert_eq _ _ _) ltac:(simpl; lia) Htimes Hr)
      as (Ha & Hrem & Hreset).
    simpl in Ha, Hrem, Hreset. rewrite Ha, Hrem. split; [|split; [lia | done]].
    apply bool_decide_ext. lia.
Qed.

Lemma check_allows_first_maxRequests_witness :
  ∃ r, checks [0; 5; 60000] "10.0.0.1" (mkRateLimitConfig 60000 2) ∅ !! 2%nat = Some r
       ∧ allowed r = false ∧ remaining r = 0 ∧ resultResetTime r = 60000.
Proof.
  assert (is_Some (checks [0; 5; 60000] "10.0.0.1" (mkRateLimitConfig 60000 2) ∅
                     !! 2%nat)) as [r Hr] by (by eexists).
  exists r. split; [exact Hr|].
  apply (check_allows_first_maxRequests 0 [5; 60000] "10.0.0.1"
           (mkRateLimitConfig 60000 2) ∅ 2 r); [simpl; lia | done | | exact Hr].
  repeat constructor; simpl; lia.
Defined.

(** X27. Removing the expired entries changes no later answer: when the clock has
    not gone back since [cleanup], a check answers the same with and without
    it, and leaves the same entry for the identifier. *)
Theorem cleanup_is_unobservable
    (cleanedAt now : Z) (identifier : string) (config : RateLimitConfig)
    (store : gmap string RateLimitEntry) :
  cleanedAt ≤ now →
  fst (check now identifier config (cleanup cleanedAt store))
  = fst (check now identifier config store)
  ∧ snd (check now identifier config (cleanup cleanedAt store)) !! identifier
    = snd (check now identifier config store) !! identifier.
Proof.
  intros Hclock. unfold check, cleanup.
  set (kept := filter (λ kv : string * RateLimitEntry, expired cleanedAt kv.2 = false) store).
  destruct (store !! identifier) as [entry|] eqn:Hentry.
  - destruct (expired cleanedAt entry) eqn:Hgone.
    + assert (kept !! identifier = None) as ->.
      { apply map_lookup_filter_None. right. intros e He.
        rewrite Hentry in He. injection He as <-. cbn. congruence. }
      assert (expired now entry = true) as -> by (unfold expired in *; lia).
      cbn [fst snd]. by rewrite !lookup_insert_eq.
    + assert (kept !! identifier = Some entry) as Hkept
        by (by apply map_lookup_filter_Some).
      rewrite Hkept.
      destruct (expired now entry); cbn [fst snd]; [by rewrite !lookup_insert_eq|].
      destruct (maxRequests config <=? count entry); cbn [fst snd].
      * by rewrite Hentry, Hkept.
      * by rewrite !lookup_insert_eq.
  - assert (kept !! identifier = None) as ->.
    { apply map_lookup_filter_None. by left. }
    cbn [fst snd]. by rewrite !lookup_insert_eq.
Qed.

Lemma cleanup_is_unobservable_witness :
  fst (check 70000 "10.0.0.1" chat
         (cleanup 65000 (<["10.0.0.1" := mkRateLimitEntry 20 60000]> ∅)))
  = fst (check 70000 "10.0.0.1" chat (<["10.0.0.1" := mkRateLimitEntry 20 60000]> ∅)).
Proof.
  apply (cleanup_is_unobservable 65000 70000 "10.0.0.1" chat
           (<["10.0.0.1" := mkRateLimitEntry 20 60000]> ∅)).
  lia.
Defined.

End RateLimitProps.

(** ** Properties of embedding in batches *)

Module EmbeddingsProps.
Import JsString Effect Embeddings EmbeddingsSpec.

Lemma slice_window {A} (l : list A) (i : nat) (size : Z) :
  (i ≤ length l)%nat → 0 < size →
  slice l (Z.of_nat i) (Z.of_nat i + size) = take (Z.to_nat size) (drop i l).
Proof.
  intros Hi Hsize. unfold slice.
  assert ((Z.of_nat i <? 0) = false) as -> by lia.
  assert ((Z.of_nat i + size <? 0) = false) as -> by lia.
  rewrite (Z.min_l (Z.of_nat i)) by lia. rewrite Nat2Z.id.
  destruct (decide (Z.of_nat i + size ≤ Z.of_nat (length l))) as [Hfit|Hover].
  - rewrite Z.min_l by lia. f_equal. lia.
  - rewrite Z.min_r by lia.
    rewrite !take_ge; [done | |]; rewrite length_drop; lia.
Qed.

Lemma withPauses_cons batch rest :
  rest ≠ [] → withPauses (batch :: rest) = EmbedMany batch :: Delay BATCH_DELAY_MS :: withPauses rest.
Proof. by destruct rest. Qed.

Section Batches.
Variable embedMany : list jsstring → option (list (list Q)).
Hypothesis answers : ∀ values, is_Some (embedMany values).

Lemma batchLoop_partitions (texts : list jsstring) (batchSize : Z) :
  0 < batchSize →
  ∀ (fuel i : nat) embeddings log,
    (i ≤ length texts)%nat →
    (length texts - i ≤ fuel)%nat →
    ∃ batches vectors,
      batchLoop embedMany fuel texts batchSize (Z.of_nat i) embeddings log
      = (inr (Some (embeddings ++ concat vectors)), log ++ withPauses batches)
      ∧ concat batches = drop i texts
      ∧ Forall (λ batch, (1 ≤ length batch)%nat ∧ Z.of_nat (length batch) ≤ batchSize)
          batches
      ∧ mapM embedMany batches = Some vectors.
Proof.
  intros Hsize. induction fuel as [|fuel IH]; intros i embeddings log Hi Hfuel.
  - assert (i = length texts) as -> by lia. simpl.
    assert ((Z.of_nat (length texts) <? Z.of_nat (length texts)) = false) as -> by lia.
    exists [], []. rewrite drop_all, !app_nil_r. by repeat split.
  - simpl. destruct (Z.of_nat i <? Z.of_nat (length texts)) eqn:Hmore.
    + apply Z.ltb_lt in Hmore.
      rewrite slice_window by lia.
      set (batch := take (Z.to_nat batchSize) (drop i texts)).
      assert (1 ≤ length batch)%nat as Hne.
      { unfold batch. rewrite length_take, length_drop. lia. }
      assert (Z.of_nat (length batch) ≤ batchSize) as Hle.
      { unfold batch. rewrite length_take. lia. }
      unfold bind at 1. unfold generateEmbeddings.
      destruct (answers batch) as [vs Hvs]. rewrite Hvs.
      destruct (Z.of_nat i + batchSize <? Z.of_nat (length texts)) eqn:Hnext.
      * apply Z.ltb_lt in Hnext.
        assert (length batch = Z.to_nat batchSize) as Hfull.
        { unfold batch. rewrite length_take, length_drop. lia. }
        unfold bind, issue.
        replace (Z.of_nat i + batchSize) with (Z.of_nat (i + Z.to_nat batchSize)) by lia.
        destruct (IH (i + Z.to_nat batchSize)%nat (embeddings ++ vs)
                    ((log ++ [EmbedMany batch]) ++ [Delay BATCH_DELAY_MS]))
          as (batches & vectors & -> & Hcat & Hall & Hmap); [lia | lia |].
        exists (batch :: batches), (vs :: vectors).
        assert (batches ≠ []) as Hsome.
        { intros ->. simpl in Hcat. symmetry in Hcat.
          apply (f_equal length) in Hcat. rewrite length_drop in Hcat. simpl in Hcat. lia. }
        rewrite withPauses_cons by done. simpl.
        split; [by rewrite <- !app_assoc|].
        split; [rewrite Hcat; unfold batch; by rewrite <- drop_drop, take_drop|].
        split; [by constructor|]. by rewrite Hvs, Hmap.
      * apply Z.ltb_ge in Hnext. unfold bind, ret.
        assert (batch = drop i texts) as Hlast.
        { unfold batch. apply take_ge. rewrite length_drop. lia. }
        destruct fuel as [|fuel']; simpl;
          (assert ((Z.of_nat i + batchSize <? Z.of_nat (length texts)) = false) as ->
             by lia);
          exists [batch], [vs]; simpl; rewrite !app_nil_r;
          (split; [done|]); (split; [done|]); (split; [by repeat constructor|]);
          by rewrite Hvs.
    + apply Z.ltb_ge in Hmore. assert (i = length texts) as -> by lia.
      exists [], []. unfold ret. rewrite drop_all, !app_nil_r. by repeat split.
Qed.

Lemma batchLoop_stuck (texts : list jsstring) (batchSize : Z) :
  batchSize ≤ 0 → texts ≠ [] →
  ∀ fuel i embeddings log,
    i ≤ 0 →
    fst (batchLoop embedMany fuel texts batchSize i embeddings log) = inr None
    ∧ requests (snd (batchLoop embedMany fuel texts batchSize i embeddings log))
      = (requests log + fuel)%nat.
Proof.
  intros Hsize Hne.
  assert (0 < Z.of_nat (length texts)) as Hlen by (destruct texts; [done | simpl; lia]).
  induction fuel as [|fuel IH]; intros i embeddings log Hi; simpl.
  - assert ((i <? Z.of_nat (length texts)) = true) as -> by lia.
    simpl. split; [done | lia].
  - assert ((i <? Z.of_nat (length texts)) = true) as -> by lia.
    assert ((i + batchSize <? Z.of_nat (length texts)) = true) as -> by lia.
    unfold bind, generateEmbeddings, issue.
    destruct (answers (slice texts i (i + batchSize))) as [vs ->].
    match goal with
    | |- context [batchLoop embedMany fuel texts batchSize ?j ?e ?l] =>
        destruct (IH j e l) as [Hout Hreq]; [lia|]
    end.
    split; [done|]. rewrite Hreq. unfold requests.
    rewrite !List.filter_app, !length_app. simpl. lia.
Qed.
End Batches.

(** X28. With a batch size of at least 1 and a provider that answers,
    [generateEmbeddingsInBatches] returns after at most one pass per text. It
    sends the texts in consecutive batches of 1 to [batchSize] texts, each
    text once and in order, pauses between two batches and not after the
    last, and returns the answers one after the other. *)
Theorem generateEmbeddingsInBatches_partitions
    (embedMany : list jsstring → option (list (list Q)))
    (texts : list jsstring) (batchSize : option Z) :
  (∀ values, is_Some (embedMany values)) →
  0 < default DEFAULT_BATCH_SIZE batchSize →
  ∃ batches vectors,
    generateEmbeddingsInBatches embedMany (length texts) texts batchSize []
    = (inr (Some (concat vectors)), withPauses batches)
    ∧ concat batches = texts
    ∧ Forall (λ batch, (1 ≤ length batch)%nat
                       ∧ Z.of_nat (length batch) ≤ default DEFAULT_BATCH_SIZE batchSize)
        batches
    ∧ mapM embedMany batches = Some vectors.
Proof.
  intros Hanswers Hsize. unfold generateEmbeddingsInBatches.
  destruct (batchLoop_partitions embedMany Hanswers texts _ Hsize
              (length texts) 0 [] []) as (batches & vectors & Hrun & Hrest);
    [lia | lia |].
  exists batches, vectors. split; [exact Hrun | exact Hrest].
Qed.

Lemma generateEmbeddingsInBatches_partitions_witness :
  ∃ batches vectors,
    generateEmbeddingsInBatches lengths 3 (js <$> ["a"; "bb"; "ccc"]) (Some 2) []
    = (inr (Some (concat vectors)), withPauses batches)
    ∧ concat batches = js <$> ["a"; "bb"; "ccc"]
    ∧ Forall (λ batch, (1 ≤ length batch)%nat ∧ Z.of_nat (length batch) ≤ 2) batches
    ∧ mapM lengths batches = Some vectors.
Proof.
  assert (∀ values, is_Some (lengths values)) as Hanswers
    by (intros values; by eexists).
  assert (0 < default DEFAULT_BATCH_SIZE (Some 2)) as Hsize by (simpl; lia).
  exact (generateEmbeddingsInBatches_partitions lengths (js <$> ["a"; "bb"; "ccc"])
           (Some 2) Hanswers Hsize).
Defined.

(** X29. With a batch size of 0 or below and at least one text the loop is never
    left: every pass sends another request. *)
Theorem generateEmbeddingsInBatches_needs_positive_batchSize
    (embedMany : list jsstring → option (list (list Q)))
    (texts : list jsstring) (batchSize : Z) (fuel : nat) :
  (∀ values, is_Some (embedMany values)) →
  batchSize ≤ 0 →
  texts ≠ [] →
  outcome (generateEmbeddingsInBatches embedMany fuel texts (Some batchSize)) = inr None
  ∧ requests (calls (generateEmbeddingsInBatches embedMany fuel texts (Some batchSize)))
    = fuel.
Proof.
  intros Hanswers Hsize Hne. unfold outcome, calls, generateEmbeddingsInBatches.
  destruct (batchLoop_stuck embedMany Hanswers texts batchSize Hsize Hne fuel 0 [] [])
    as [Hout Hreq]; [lia|].
  simpl default. by rewrite Hout, Hreq.
Qed.

Lemma generateEmbeddingsInBatches_needs_positive_batchSize_witness :
  outcome (generateEmbeddingsInBatches lengths 50 [js "a"] (Some 0)) = inr None
  ∧ requests (calls (generateEmbeddingsInBatches lengths 50 [js "a"] (Some 0))) = 50%nat.
Proof.
  apply (generateEmbeddingsInBatches_needs_positive_batchSize lengths [js "a"] 0 50).
  - intros values. by eexists.
  - lia.
  - discriminate.
Defined.

End EmbeddingsProps.

(** ** Properties of the metrics *)

Module MetricsProps.
Import VectorSearch VectorSearchSpec VectorSearchProps Metrics MetricsSpec.

Lemma insertSorted_ascending x l :
  StronglySorted Qle l → StronglySorted Qle (insertSorted ascending x l).
Proof.
  induction 1 as [|y l Hs IH Hy]; simpl.
  - repeat constructor.
  - unfold ascending at 1.
    destruct (Qle_bool (x - y) 0) eqn:E; simpl.
    + apply Qle_bool_iff in E. constructor; [by constructor|].
      constructor; [lra|].
      eapply Forall_impl; [exact Hy|]. intros z Hz. simpl in Hz. lra.
    + assert (¬ (x - y <= 0)%Q) as Hgt by (rewrite <- Qle_bool_iff; congruence).
      constructor; [exact IH|].
      rewrite (insertSorted_Permutation ascending x l).
      constructor; [lra | exact Hy].
Qed.

Lemma sort_ascending l : StronglySorted Qle (sort ascending l).
Proof.
  induction l as [|x l IH]; simpl; [constructor|]. by apply insertSorted_ascending.
Qed.

Lemma StronglySorted_lookup_le (l : list Q) :
  StronglySorted Qle l →
  ∀ (i j : nat) a b, (i ≤ j)%nat → l !! i = Some a → l !! j = Some b → (a <= b)%Q.
Proof.
  induction 1 as [|x l Hs IH Hx]; intros i j a b Hij Hi Hj; [done|].
  destruct i as [|i], j as [|j]; simpl in Hi, Hj; try lia.
  - injection Hi as <-. injection Hj as <-. lra.
  - injection Hi as <-. rewrite Forall_forall in Hx.
    apply Hx. by eapply list_elem_of_lookup_2.
  - apply (IH i j); [lia | done | done].
Qed.

Lemma recordDuration_get name name' durationMs mc :
  mapGet (metrics (recordDuration name durationMs mc)) name'
  = if String.eqb name name'
    then Some (default [] (mapGet (metrics mc) name) ++ [durationMs])
    else mapGet (metrics mc) name'.
Proof. unfold recordDuration. simpl. apply mapGet_mapSet. Qed.

Lemma afterRecording_get name events : ∀ mc,
  mapGet (metrics (fold_left (λ mc event, recordDuration (fst event) (snd event) mc)
                     events mc)) name
  = match recorded name events with
    | [] => mapGet (metrics mc) name
    | _ => Some (default [] (mapGet (metrics mc) name) ++ recorded name events)
    end.
Proof.
  unfold recorded.
  induction events as [|[n d] events IH]; intros mc; simpl; [done|].
  rewrite IH, recordDuration_get.
  destruct (String.eqb n name) eqn:E; csimpl.
  - apply String.eqb_eq in E as ->.
    destruct (snd <$> List.filter _ events); simpl; [done|].
    by rewrite <- app_assoc.
  - done.
Qed.

(** X30. After any sequence of [recordDuration] calls, [getStats(name)] is [null]
    exactly when nothing was recorded under [name]. Otherwise [count] is the
    number of durations recorded under it, every field is a number, and
    [min <= p50 <= p95 <= p99 <= max], with every recorded duration between
    [min] and [max]. *)
Theorem getStats_percentiles_ordered (events : list (string * Q)) (name : string) :
  match getStats name (afterRecording events) with
  | None => recorded name events = []
  | Some stats =>
      recorded name events ≠ []
      ∧ count stats = Z.of_nat (length (recorded name events))
      ∧ ∃ lo a b c hi,
          min stats = Some lo ∧ p50 stats = Some a ∧ p95 stats = Some b
          ∧ p99 stats = Some c ∧ max stats = Some hi
          ∧ (lo <= a)%Q ∧ (a <= b)%Q ∧ (b <= c)%Q ∧ (c <= hi)%Q
          ∧ Forall (λ v, (lo <= v)%Q ∧ (v <= hi)%Q) (recorded name events)
  end.
Proof.
  unfold getStats, afterRecording. rewrite afterRecording_get. simpl.
  destruct (recorded name events) as [|v0 values] eqn:Hrec; [done|].
  rewrite <- Hrec. set (recordedValues := recorded name events) in *.
  assert (length recordedValues ≠ 0)%nat as Hlen by (by rewrite Hrec).
  destruct (length recordedValues =? 0)%nat eqn:Hzero;
    [by apply Nat.eqb_eq in Hzero|].
  set (sorted := sort ascending recordedValues).
  assert (length sorted = length recordedValues) as Hsame
    by (apply Permutation_length, sort_Permutation).
  assert (StronglySorted Qle sorted) as Hsorted by apply sort_ascending.
  set (n := Z.of_nat (length sorted)).
  assert (1 ≤ n) as Hn by lia.
  assert (∀ i, 0 ≤ i < n → ∃ x, at_ sorted i = Some x ∧ sorted !! Z.to_nat i = Some x)
    as Hat.
  { intros i Hi. unfold at_. assert ((i <? 0) = false) as -> by lia.
    destruct (lookup_lt_is_Some_2 sorted (Z.to_nat i)) as [x Hx]; [lia|]. eauto. }
  change (Z.pos (1 * 10)) with 10. change (Z.pos (1 * 100)) with 100.
  cbn [count min max p50 p95 p99].
  assert (0 ≤ n * 5 / 10 ≤ n * 95 / 100
          ∧ n * 95 / 100 ≤ n * 99 / 100 ≤ n - 1) as Hidx.
  { Z.to_euclidean_division_equations. lia. }
  destruct (Hat 0) as (lo & Hlo & Hlo'); [lia|].
  destruct (Hat (n * 5 / 10)) as (a & Ha & Ha'); [lia|].
  destruct (Hat (n * 95 / 100)) as (b & Hb & Hb'); [lia|].
  destruct (Hat (n * 99 / 100)) as (c & Hc & Hc'); [lia|].
  destruct (Hat (n - 1)) as (hi & Hhi & Hhi'); [lia|].
  split; [by rewrite Hrec|]. split; [unfold n; by rewrite Hsame|].
  exists lo, a, b, c, hi. repeat (split; [done|]).
  pose proof (StronglySorted_lookup_le sorted Hsorted) as Hle.
  split; [eapply Hle; [|exact Hlo'|exact Ha']; lia|].
  split; [eapply Hle; [|exact Ha'|exact Hb']; lia|].
  split; [eapply Hle; [|exact Hb'|exact Hc']; lia|].
  split; [eapply Hle; [|exact Hc'|exact Hhi']; lia|].
  apply Forall_forall. intros v Hv.
  rewrite <- (sort_Permutation ascending recordedValues) in Hv. fold sorted in Hv.
  apply list_elem_of_lookup in Hv as [k Hk].
  pose proof (lookup_lt_Some _ _ _ Hk) as Hklt.
  split.
  - eapply Hle; [|exact Hlo'|exact Hk]. lia.
  - eapply Hle; [|exact Hk|exact Hhi']. lia.
Qed.

End MetricsProps.
